(** * Labyrinth Survival: the server-side maze generator

    A shallow embedding of [src/server/game/MazeGenerator.js]: the grid,
    the solvability validator ([ensureMazeIsSolvable], its breadth-first
    search and [createPathToExit]), the shift step ([updateMaze],
    [shiftMazeWalls]), the constructor with its pattern choice, and
    [generateMaze] with [createExit], the four refinement passes and the
    geometric and symmetric builders.

    Conventions.
    - Coordinates are JavaScript numbers holding integers: [Z].
    - [mazeGrid] is an array of [width] columns of [height] booleans,
      [true] for a wall: [list (list bool)], indexed [g !! x !! y].
    - A read outside the array is [None]: [undefined] in JavaScript for a
      missing row, a [TypeError] for a missing column; a condition reads
      both as falsy.  A write outside the array is [None]: JavaScript
      raises [TypeError] on a missing column and grows the column on a
      missing row.  So a run of the program that neither raises nor
      writes outside the array is a run of the functions below, with the
      same result.
      That a function returns is stated for generators whose grid is the
      [width] by [height] array ([wellFormed]) and, for the passes, of
      5 by 5 cells or more with draws in [[0,1)]: there every read is
      inside the array.
    - [Math.random()] is a source of draws; the [n]-th draw is a rational
      of [[0,1)].  [Math.floor (Math.random() * k)] and the comparisons
      with [0.2], [0.3] and [0.7] are computed on exact rationals.
    - The times of the shift step ([shiftInterval], [nextShiftTime] and
      the [deltaTime] of [updateMaze]) are binary64 numbers, and the
      countdown is computed in binary64 arithmetic: [float], with its
      subtraction, division and comparison. *)

From Stdlib Require Import ZArith QArith Qround Bool List Lia Floats.
From stdpp Require Import base option list.

Open Scope Z_scope.

(** ** Cells and the grid *)

Definition Cell : Type := (Z * Z)%type.

Abbreviation Grid := (list (list bool)).

Definition cellEq (a b : Cell) : bool := (a.1 =? b.1) && (a.2 =? b.2).

(** [this.mazeGrid[x][y]] as a read.  [None] stands for JavaScript's
    [undefined] (row index outside the column) and for the [TypeError] a
    missing column raises. *)
Definition readCell (g : Grid) (c : Cell) : option bool :=
  if (0 <=? c.1) && (0 <=? c.2)
  then g !! Z.to_nat c.1 ≫= fun col => col !! Z.to_nat c.2
  else None.

(** Truthiness of [a[x][y]]: [undefined] is falsy. *)
Definition truthyAt (a : Grid) (c : Cell) : bool := default false (readCell a c).

(** [this.mazeGrid[x][y]] used as a condition. *)
Definition isWallAt (g : Grid) (c : Cell) : bool := truthyAt g c.

(** [!this.mazeGrid[x][y]] *)
Definition isPathAt (g : Grid) (c : Cell) : bool := negb (isWallAt g c).

(** The in-place update [a[x][y] = v] of a cell that exists. *)
Definition setCell (g : Grid) (c : Cell) (v : bool) : Grid :=
  alter (fun col => <[Z.to_nat c.2 := v]> col) (Z.to_nat c.1) g.

(** [this.mazeGrid[x][y] = v].  Inside the array this is [setCell].
    Outside it JavaScript either raises [TypeError] (no such column) or
    grows the column (no such row), and the grid stops being a [width] by
    [height] array: both are [None] here. *)
Definition writeCell (g : Grid) (c : Cell) (v : bool) : option Grid :=
  match readCell g c with
  | Some _ => Some (setCell g c v)
  | None => None
  end.

(** [Array(w).fill().map(() => Array(h).fill(v))] *)
Definition filledGrid (w h : Z) (v : bool) : Grid :=
  replicate (Z.to_nat w) (replicate (Z.to_nat h) v).

(** Directions: Up, Right, Down, Left *)
Definition directions : list Cell := [(0, 1); (1, 0); (0, -1); (-1, 0)].

Definition addCell (a d : Cell) : Cell := (a.1 + d.1, a.2 + d.2).

(** ** The generator object *)

Record MazeGenerator := mkMazeGenerator {
  width : Z;
  height : Z;
  cellSize : Z;
  shiftInterval : float;
  shiftChance : Q;
  mazeGrid : Grid;
  exitPosition : Cell;
  nextShiftTime : float;
  usePatternedGeneration : bool;
  patternType : Z
}.

Definition withGrid (m : MazeGenerator) (g : Grid) : MazeGenerator :=
  {| width := width m; height := height m; cellSize := cellSize m;
     shiftInterval := shiftInterval m; shiftChance := shiftChance m;
     mazeGrid := g; exitPosition := exitPosition m;
     nextShiftTime := nextShiftTime m;
     usePatternedGeneration := usePatternedGeneration m;
     patternType := patternType m |}.

Definition withNextShiftTime (m : MazeGenerator) (t : float) : MazeGenerator :=
  {| width := width m; height := height m; cellSize := cellSize m;
     shiftInterval := shiftInterval m; shiftChance := shiftChance m;
     mazeGrid := mazeGrid m; exitPosition := exitPosition m;
     nextShiftTime := t;
     usePatternedGeneration := usePatternedGeneration m;
     patternType := patternType m |}.

Definition withExit (m : MazeGenerator) (e : Cell) : MazeGenerator :=
  {| width := width m; height := height m; cellSize := cellSize m;
     shiftInterval := shiftInterval m; shiftChance := shiftChance m;
     mazeGrid := mazeGrid m; exitPosition := e;
     nextShiftTime := nextShiftTime m;
     usePatternedGeneration := usePatternedGeneration m;
     patternType := patternType m |}.

(** [isInBounds(cell)] *)
Definition isInBounds (m : MazeGenerator) (c : Cell) : bool :=
  (0 <=? c.1) && (c.1 <? width m) && (0 <=? c.2) && (c.2 <? height m).

(** The grid really is the [width] by [height] array the constructor and
    [initializeMaze] allocate. *)
Definition gridHasDims (w h : Z) (g : Grid) : Prop :=
  length g = Z.to_nat w ∧ Forall (fun col => length col = Z.to_nat h) g.

Definition wellFormed (m : MazeGenerator) : Prop :=
  gridHasDims (width m) (height m) (mazeGrid m).

(** ** The repair: [createPathToExit] *)

(** Both [while] loops of [createPathToExit] have one shape: step the
    coordinate, then open the cell it designates. *)
Fixpoint carveLine (cellOf : Z -> Cell) (fuel : nat) (g : Grid)
    (i step target : Z) : option Grid :=
  if i =? target then Some g
  else match fuel with
       | O => None
       | S fuel' =>
           g' ← writeCell g (cellOf (i + step)) false;
           carveLine cellOf fuel' g' (i + step) step target
       end.

(** [while (x !== this.exitPosition.x) { x += stepX;
      this.mazeGrid[x][startCell.y] = false; }] *)
Definition carveRow (fuel : nat) (g : Grid) (x stepX targetX row : Z)
  : option Grid :=
  carveLine (fun i => (i, row)) fuel g x stepX targetX.

(** [while (y !== this.exitPosition.y) { y += stepY;
      this.mazeGrid[this.exitPosition.x][y] = false; }] *)
Definition carveColumn (fuel : nat) (g : Grid) (y stepY targetY col : Z)
  : option Grid :=
  carveLine (fun i => (col, i)) fuel g y stepY targetY.

Definition createPathToExit (m : MazeGenerator) (startCell : Cell)
  : option MazeGenerator :=
  let e := exitPosition m in
  let dx := e.1 - startCell.1 in
  let dy := e.2 - startCell.2 in
  let stepX := if 0 <? dx then 1 else -1 in
  g1 ← carveRow (Z.abs_nat dx) (mazeGrid m) startCell.1 stepX e.1 startCell.2;
  let stepY := if 0 <? dy then 1 else -1 in
  g2 ← carveColumn (Z.abs_nat dy) g1 startCell.2 stepY e.2 e.1;
  Some (withGrid m g2).

(** ** The validator: [ensureMazeIsSolvable] *)

(** The order of the two nested [for] loops: [x] outermost. *)
Definition scanOrder (w h : Z) : list Cell :=
  flat_map (fun x => map (fun y => (x, y)) (seqZ 0 h)) (seqZ 0 w).

(** The first path cell that is not the exit; [None] is [startCell]
    staying [null]. *)
Definition findStartCell (m : MazeGenerator) : option Cell :=
  find (fun c => isPathAt (mazeGrid m) c
                 && (negb (c.1 =? (exitPosition m).1)
                     || negb (c.2 =? (exitPosition m).2)))
       (scanOrder (width m) (height m)).

(** The body of [this.directions.forEach(dir => ...)] inside the search:
    [visited] and [queue] are updated in place. *)
Definition visitNeighbor (m : MazeGenerator) (current : Cell)
    (vq : Grid * list Cell) (dir : Cell) : Grid * list Cell :=
  let next := addCell current dir in
  if isInBounds m next && isPathAt (mazeGrid m) next && negb (truthyAt vq.1 next)
  then (setCell vq.1 next true, vq.2 ++ [next])
  else vq.

(** [while (queue.length > 0) { const current = queue.shift(); ... }];
    the result is [foundPath]. *)
Fixpoint searchLoop (fuel : nat) (m : MazeGenerator) (visited : Grid)
    (queue : list Cell) {struct fuel} : option bool :=
  match queue with
  | [] => Some false
  | current :: rest =>
      if cellEq current (exitPosition m) then Some true
      else match fuel with
           | O => None
           | S fuel' =>
               let vq := fold_left (visitNeighbor m current) directions
                                   (visited, rest) in
               searchLoop fuel' m vq.1 vq.2
           end
  end.

(** Every turn of the loop removes one cell from the queue and every
    [push] marks one more cell of [visited]: twice the number of cells
    bounds the number of turns. *)
Definition searchFuel (m : MazeGenerator) : nat :=
  S (2 * (Z.to_nat (width m) * Z.to_nat (height m))).

Definition searchFrom (m : MazeGenerator) (startCell : Cell) : option bool :=
  searchLoop (searchFuel m) m
    (setCell (filledGrid (width m) (height m) false) startCell true)
    [startCell].

Definition ensureMazeIsSolvable (m : MazeGenerator) : option MazeGenerator :=
  match findStartCell m with
  | None => Some m
  | Some startCell =>
      foundPath ← searchFrom m startCell;
      if foundPath : bool then Some m else createPathToExit m startCell
  end.

(** ** The shift step *)

(** [Math.random()]: the [n]-th call returns [rs n]. *)
Definition RandomSource : Type := nat -> Q.

Definition nextRandom (rs : RandomSource) : Q * RandomSource :=
  (rs O, fun n => rs (S n)).

Definition Qlt_bool (a b : Q) : bool := negb (Qle_bool b a).

(** [Math.sqrt(Math.pow(x - ex, 2) + Math.pow(y - ey, 2)) < 3].  On integer
    coordinates the sum of squares is an exact integer and the rounded
    square root is below 3 exactly when that integer is below 9. *)
Definition distanceSquared (a b : Cell) : Z :=
  (a.1 - b.1) * (a.1 - b.1) + (a.2 - b.2) * (a.2 - b.2).

Definition nearExit (m : MazeGenerator) (c : Cell) : bool :=
  distanceSquared c (exitPosition m) <? 9.

(** [adjacentPaths] after the [forEach] over the four directions. *)
Definition countAdjacentPaths (m : MazeGenerator) (g : Grid) (c : Cell) : Z :=
  Z.of_nat (length (List.filter
    (fun d => isInBounds m (addCell c d) && isPathAt g (addCell c d))
    directions)).

Record WallShift := mkWallShift { shiftCell : Cell; toWall : bool }.

(** [for (let x = 1; x < this.width - 1; x++)
      for (let y = 1; y < this.height - 1; y++)] *)
Definition interiorCells (m : MazeGenerator) : list Cell :=
  flat_map (fun x => map (fun y => (x, y)) (seqZ 1 (height m - 2)))
           (seqZ 1 (width m - 2)).

(** One turn of the inner loop of [shiftMazeWalls]: the grid is only read. *)
Definition considerShift (m : MazeGenerator)
    (acc : list WallShift * RandomSource) (c : Cell)
  : list WallShift * RandomSource :=
  if nearExit m c then acc
  else
    let (u, rs') := nextRandom acc.2 in
    if Qlt_bool u (shiftChance m) then
      if isWallAt (mazeGrid m) c then
        if countAdjacentPaths m (mazeGrid m) c <=? 2
        then (acc.1 ++ [mkWallShift c false], rs')
        else (acc.1, rs')
      else
        if 3 <=? countAdjacentPaths m (mazeGrid m) c
        then (acc.1 ++ [mkWallShift c true], rs')
        else (acc.1, rs')
    else (acc.1, rs').

(** [wallsToShift] once the scan is over, and what is left of the source. *)
Definition collectShifts (m : MazeGenerator) (rs : RandomSource)
  : list WallShift * RandomSource :=
  fold_left (considerShift m) (interiorCells m) ([], rs).

(** [wallsToShift.forEach(wall => { this.mazeGrid[wall.x][wall.y] =
    wall.toWall; })] *)
Fixpoint applyShifts (g : Grid) (ws : list WallShift) : option Grid :=
  match ws with
  | [] => Some g
  | w :: ws' => g' ← writeCell g (shiftCell w) (toWall w); applyShifts g' ws'
  end.

(** [shiftMazeWalls] up to, and without, its last line. *)
Definition shiftBatch (m : MazeGenerator) (rs : RandomSource)
  : option (MazeGenerator * RandomSource) :=
  let (ws, rs') := collectShifts m rs in
  g ← applyShifts (mazeGrid m) ws;
  Some (withGrid m g, rs').

Definition shiftMazeWalls (m : MazeGenerator) (rs : RandomSource)
  : option (MazeGenerator * RandomSource) :=
  '(m1, rs') ← shiftBatch m rs;
  m2 ← ensureMazeIsSolvable m1;
  Some (m2, rs').

(** [updateMaze(deltaTime)]: the new object, the source and the returned
    boolean.  [-], [/] and [<=] are those of binary64; [NaN <= 0] is
    false. *)
Definition updateMaze (m : MazeGenerator) (deltaTime : float) (rs : RandomSource)
  : option (MazeGenerator * RandomSource * bool) :=
  let m0 := withNextShiftTime m (nextShiftTime m - deltaTime / 1000)%float in
  if PrimFloat.leb (nextShiftTime m0) 0 then
    '(m1, rs') ← shiftMazeWalls m0 rs;
    Some (withNextShiftTime m1 (shiftInterval m1), rs', true)
  else Some (m0, rs, false).

(** ** Construction and the choice of a pattern *)

Inductive JsError := RangeError | TypeError.

(** [Array(n)] raises [RangeError] unless [n] is an array length. *)
Definition validArrayLength (n : Z) : bool := (0 <=? n) && (n <? 2 ^ 32).

(** [Math.floor(Math.random() * k)] for the draw [u]. *)
Definition randomInt (u : Q) (k : Z) : Z := Qfloor (u * inject_Z k).

(** The binary64 values of the literals [0.2], [0.3] and [0.7]. *)
Definition literal_0_2 : Q := 3602879701896397 # (2 ^ 54).
Definition literal_0_3 : Q := 5404319552844595 # (2 ^ 54).
Definition literal_0_7 : Q := 3152519739159347 # (2 ^ 52).

(** [new MazeGenerator(width, height, cellSize)]; [u] is the draw of line
    40.  The columns are allocated by the callback of [map], which runs
    once per column: with no column, [Array(height)] is never called. *)
Definition constructor (w h cs : Z) (u : Q) : JsError + MazeGenerator :=
  if negb (validArrayLength w) then inl RangeError
  else if (0 <? w) && negb (validArrayLength h) then inl RangeError
  else inr {| width := w; height := h; cellSize := cs;
              shiftInterval := 60; shiftChance := literal_0_2;
              mazeGrid := filledGrid w h true;
              exitPosition := (0, 0);
              nextShiftTime := 0;
              usePatternedGeneration := true;
              patternType := randomInt u 3 |}.

Inductive Strategy := SpanningTree | Geometric | Concentric | Symmetric.

(** The [if]/[switch] at the head of [generateMaze]: which builder runs. *)
Definition selectedStrategy (m : MazeGenerator) : Strategy :=
  if usePatternedGeneration m then
    match patternType m with
    | 0 => Geometric
    | 1 => Concentric
    | 2 => Symmetric
    | _ => SpanningTree
    end
  else SpanningTree.

(** [options.mazeWidth || 20] of [RoomManager.createRoom]: a missing option
    and the falsy [0] give the default. *)
Definition roomDimension (option : option Z) : Z :=
  match option with
  | Some n => if n =? 0 then 20 else n
  | None => 20
  end.

(** [new MazeGenerator(room.options.mazeWidth, room.options.mazeHeight, 2)]
    of [RoomManager.startGame]. *)
Definition startGameGenerator (mazeWidth mazeHeight : option Z) (u : Q)
  : JsError + MazeGenerator :=
  constructor (roomDimension mazeWidth) (roomDimension mazeHeight) 2 u.

(** [initializeMaze] *)
Definition initializeMaze (m : MazeGenerator) : MazeGenerator :=
  withNextShiftTime (withGrid m (filledGrid (width m) (height m) true))
                    (shiftInterval m).

(** ** [createExit] *)

Definition chooseExit (m : MazeGenerator) (rs : RandomSource)
  : Cell * RandomSource :=
  let (u, rs1) := nextRandom rs in
  match randomInt u 4 with
  | 0 => let (v, rs2) := nextRandom rs1 in
         ((randomInt v (width m), height m - 1), rs2)
  | 1 => let (v, rs2) := nextRandom rs1 in
         ((width m - 1, randomInt v (height m)), rs2)
  | 2 => let (v, rs2) := nextRandom rs1 in
         ((randomInt v (width m), 0), rs2)
  | 3 => let (v, rs2) := nextRandom rs1 in
         ((0, randomInt v (height m)), rs2)
  | _ => (exitPosition m, rs1)
  end.

Definition exitApproach (m : MazeGenerator) (e : Cell) : Cell :=
  if e.1 =? 0 then (e.1 + 1, e.2)
  else if e.1 =? width m - 1 then (e.1 - 1, e.2)
  else if e.2 =? 0 then (e.1, e.2 + 1)
  else if e.2 =? height m - 1 then (e.1, e.2 - 1)
  else e.

Definition createExit (m : MazeGenerator) (rs : RandomSource)
  : option (MazeGenerator * RandomSource) :=
  let (e, rs') := chooseExit m rs in
  g1 ← writeCell (mazeGrid m) e false;
  g2 ← writeCell g1 (exitApproach m e) false;
  Some (withGrid (withExit m e) g2, rs').

(** ** The refinement passes of [applyWaveFunctionCollapse]

    Each pass works on [this.mazeGrid] and draws from [Math.random()]: the
    state threaded through a pass is the grid and the source. *)

Definition PassState : Type := (Grid * RandomSource)%type.

(** A [for] loop of [n] turns. *)
Fixpoint repeatLoop {S : Type} (n : nat) (body : S -> option S) (s : S)
  : option S :=
  match n with
  | O => Some s
  | S n' => s' ← body s; repeatLoop n' body s'
  end.

(** A [for] loop over the values of its variable. *)
Fixpoint forEach {A S : Type} (xs : list A) (body : A -> S -> option S) (s : S)
  : option S :=
  match xs with
  | [] => Some s
  | x :: xs' => s' ← body x s; forEach xs' body s'
  end.

(** [if (this.isInBounds({x, y})) this.mazeGrid[x][y] = v;] *)
Definition writeIfInBounds (m : MazeGenerator) (c : Cell) (v : bool) (g : Grid)
  : option Grid :=
  if isInBounds m c then writeCell g c v else Some g.

(** *** First pass: [createChambers] *)

Definition clearChamber (m : MazeGenerator) (center : Cell) (cw ch : Z)
    (g : Grid) : option Grid :=
  forEach (seqZ (center.1 - cw / 2) (2 * (cw / 2) + 1))
    (fun x => forEach (seqZ (center.2 - ch / 2) (2 * (ch / 2) + 1))
                (fun y g' => writeIfInBounds m (x, y) false g'))
    g.

Definition chamberPillar (m : MazeGenerator) (center : Cell) (s : PassState)
  : option PassState :=
  let (u1, rs1) := nextRandom s.2 in
  let (u2, rs2) := nextRandom rs1 in
  let p := (center.1 - 1 + randomInt u1 3, center.2 - 1 + randomInt u2 3) in
  g ← writeIfInBounds m p true s.1;
  Some (g, rs2).

Definition chamberStep (m : MazeGenerator) (s : PassState) : option PassState :=
  let (u1, rs1) := nextRandom s.2 in
  let (u2, rs2) := nextRandom rs1 in
  let (u3, rs3) := nextRandom rs2 in
  let (u4, rs4) := nextRandom rs3 in
  let center := (2 + randomInt u1 (width m - 4), 2 + randomInt u2 (height m - 4)) in
  let cw := 3 + randomInt u3 3 in
  let ch := 3 + randomInt u4 3 in
  if distanceSquared center (exitPosition m) <? 25 then Some (s.1, rs4)
  else
    g ← clearChamber m center cw ch s.1;
    if (4 <=? cw) && (4 <=? ch) then
      let (u5, rs5) := nextRandom rs4 in
      repeatLoop (Z.to_nat (1 + randomInt u5 2)) (chamberPillar m center) (g, rs5)
    else Some (g, rs4).

Definition createChambers (m : MazeGenerator) (s : PassState) : option PassState :=
  let (u, rs1) := nextRandom s.2 in
  repeatLoop (Z.to_nat (2 + randomInt u 3)) (chamberStep m) (s.1, rs1).

(** *** Second pass: [addArchitecturalFeatures] *)

Definition pillarStep (m : MazeGenerator) (s : PassState) : option PassState :=
  let (u1, rs1) := nextRandom s.2 in
  let (u2, rs2) := nextRandom rs1 in
  let c := (1 + randomInt u1 (width m - 2), 1 + randomInt u2 (height m - 2)) in
  let adjacentPaths := countAdjacentPaths m s.1 c in
  if isPathAt s.1 c && (3 <=? adjacentPaths)
  then g ← writeCell s.1 c true; Some (g, rs2)
  else Some (s.1, rs2).

Definition archStep (m : MazeGenerator) (s : PassState) : option PassState :=
  let (u1, rs1) := nextRandom s.2 in
  let (u2, rs2) := nextRandom rs1 in
  let (u3, rs3) := nextRandom rs2 in
  let x := 2 + randomInt u1 (width m - 4) in
  let y := 2 + randomInt u2 (height m - 4) in
  let dirIndex := randomInt u3 2 in
  let far := if dirIndex =? 0 then (x + 2, y) else (x, y + 2) in
  let mid := if dirIndex =? 0 then (x + 1, y) else (x, y + 1) in
  if isPathAt s.1 (x, y) && isPathAt s.1 far then
    g1 ← writeCell s.1 (x, y) true;
    g2 ← writeCell g1 far true;
    g3 ← writeCell g2 mid false;
    Some (g3, rs3)
  else Some (s.1, rs3).

Definition addArchitecturalFeatures (m : MazeGenerator) (s : PassState)
  : option PassState :=
  s1 ← repeatLoop (Z.to_nat (width m * height m / 40)) (pillarStep m) s;
  repeatLoop (Z.to_nat (width m * height m / 60)) (archStep m) s1.

(** *** Third pass: [createWiderCorridors] *)

(** [if (this.isInBounds(c) && Math.random() < 0.7) this.mazeGrid[c] = false;]
    The draw is made only when [c] is in bounds. *)
Definition widenInto (m : MazeGenerator) (c : Cell) (s : PassState)
  : option PassState :=
  if isInBounds m c then
    let (u, rs1) := nextRandom s.2 in
    if Qlt_bool u literal_0_7
    then g ← writeCell s.1 c false; Some (g, rs1)
    else Some (s.1, rs1)
  else Some s.

(** [this.directions[k]]; [None] is [undefined], whose field [x] cannot be
    read. *)
Definition directionAt (k : Z) : option Cell :=
  if 0 <=? k then directions !! Z.to_nat k else None.

Definition corridorCell (m : MazeGenerator) (startCell : Cell)
    (direction : option Cell) (j : Z) (s : PassState) : option PassState :=
  dir ← direction;
  let c := (startCell.1 + dir.1 * j, startCell.2 + dir.2 * j) in
  if isInBounds m c then
    g ← writeCell s.1 c false;
    if dir.1 =? 0 then
      s1 ← widenInto m (c.1 + 1, c.2) (g, s.2);
      widenInto m (c.1 - 1, c.2) s1
    else
      s1 ← widenInto m (c.1, c.2 + 1) (g, s.2);
      widenInto m (c.1, c.2 - 1) s1
  else Some s.

Definition corridorStep (m : MazeGenerator) (s : PassState) : option PassState :=
  let (u1, rs1) := nextRandom s.2 in
  let (u2, rs2) := nextRandom rs1 in
  let startCell := (1 + randomInt u1 (width m - 2),
                    1 + randomInt u2 (height m - 2)) in
  if isPathAt s.1 startCell then
    let (u3, rs3) := nextRandom rs2 in
    let (u4, rs4) := nextRandom rs3 in
    forEach (seqZ 0 (2 + randomInt u4 4))
            (corridorCell m startCell (directionAt (randomInt u3 4)))
            (s.1, rs4)
  else Some (s.1, rs2).

Definition createWiderCorridors (m : MazeGenerator) (s : PassState)
  : option PassState :=
  repeatLoop (Z.to_nat (width m * height m / 30)) (corridorStep m) s.

(** *** Final pass: [addRandomVariations] *)

(** [neighborPaths] of the inner [forEach]: the paths around [n] other
    than the cell [c] under consideration. *)
Definition otherPathsAround (m : MazeGenerator) (g : Grid) (c n : Cell) : Z :=
  Z.of_nat (length (List.filter
    (fun d => isInBounds m (addCell n d) && isPathAt g (addCell n d)
              && negb (((addCell n d).1 =? c.1) && ((addCell n d).2 =? c.2)))
    directions)).

(** [createDeadEnd] after the outer [forEach]. *)
Definition createDeadEnd (m : MazeGenerator) (g : Grid) (c : Cell) : bool :=
  forallb (fun d =>
             if isInBounds m (addCell c d) && isPathAt g (addCell c d)
             then negb (otherPathsAround m g c (addCell c d) <=? 1)
             else true)
          directions.

Definition variationStep (m : MazeGenerator) (s : PassState) : option PassState :=
  let (u1, rs1) := nextRandom s.2 in
  let (u2, rs2) := nextRandom rs1 in
  let c := (randomInt u1 (width m - 2) + 1, randomInt u2 (height m - 2) + 1) in
  if nearExit m c then Some (s.1, rs2)
  else
    let adjacentPaths := countAdjacentPaths m s.1 c in
    if isWallAt s.1 c && (3 <=? adjacentPaths) then
      g ← writeCell s.1 c false; Some (g, rs2)
    else if isPathAt s.1 c && (adjacentPaths <=? 1) then
      if createDeadEnd m s.1 c then
        let (u3, rs3) := nextRandom rs2 in
        if Qlt_bool u3 literal_0_3
        then g ← writeCell s.1 c true; Some (g, rs3)
        else Some (s.1, rs3)
      else Some (s.1, rs2)
    else Some (s.1, rs2).

Definition addRandomVariations (m : MazeGenerator) (s : PassState)
  : option PassState :=
  repeatLoop (Z.to_nat (width m * height m / 10)) (variationStep m) s.

Definition applyWaveFunctionCollapse (m : MazeGenerator) (s : PassState)
  : option PassState :=
  s1 ← createChambers m s;
  s2 ← addArchitecturalFeatures m s1;
  s3 ← createWiderCorridors m s2;
  addRandomVariations m s3.

(** ** [generateGeometricPattern], the builder behind [patternType = 0] *)

(** The values of [v] in [for (let v = start; v < bound; v += step)]. *)
Definition steps (start step bound : Z) : list Z :=
  map (fun k => start + k * step) (seqZ 0 ((bound - start + step - 1) / step)).

Definition gridSpacing : Z := 3.

(** [if (cond) this.mazeGrid[x][y] = v;] *)
Definition writeIf (cond : bool) (c : Cell) (v : bool) (g : Grid) : option Grid :=
  if cond then writeCell g c v else Some g.

Definition diagonalConnection (m : MazeGenerator) (i : Z) (g : Grid)
  : option Grid :=
  let startX := gridSpacing + (i * gridSpacing * 2) `mod` width m in
  let startY := gridSpacing + (i * gridSpacing) `mod` height m in
  if (startX <? width m - gridSpacing) && (startY <? height m - gridSpacing)
  then
    forEach (seqZ 0 gridSpacing)
      (fun j g' => writeIf ((startX + j <? width m) && (startY + j <? height m))
                           (startX + j, startY + j) false g')
      g
  else Some g.

Definition zigzag (m : MazeGenerator) (i : Z) (g : Grid) : option Grid :=
  let startX := gridSpacing * 2 + (i * gridSpacing * 3) `mod` width m in
  let startY := gridSpacing * 2 + (i * gridSpacing * 2) `mod` height m in
  if (startX <? width m - gridSpacing * 2)
     && (startY <? height m - gridSpacing * 2)
  then
    forEach (seqZ 0 gridSpacing)
      (fun j g0 =>
         g1 ← writeIf (startX + j <? width m) (startX + j, startY) false g0;
         g2 ← writeIf (startY + j <? height m)
                      (startX + gridSpacing, startY + j) false g1;
         writeIf (startX + gridSpacing - j <? width m)
                 (startX + gridSpacing - j, startY + gridSpacing) false g2)
      g
  else Some g.

(** One arm of a junction: [for (let i = 1; i <= gridSpacing; i++)
    if (this.isInBounds(c)) this.mazeGrid[c] = false;] under its [if]. *)
Definition junctionArm (m : MazeGenerator) (cond : bool) (cellOf : Z -> Cell)
    (g : Grid) : option Grid :=
  if cond then
    forEach (seqZ 1 gridSpacing)
            (fun i g' => writeIfInBounds m (cellOf i) false g') g
  else Some g.

Definition junction (m : MazeGenerator) (c : Cell) (s : PassState)
  : option PassState :=
  let (u, rs1) := nextRandom s.2 in
  let junctionType := randomInt u 4 in
  g0 ← writeIfInBounds m c false s.1;
  g1 ← junctionArm m ((junctionType =? 0) || (junctionType =? 3))
                   (fun i => (c.1, c.2 + i)) g0;
  g2 ← junctionArm m ((junctionType =? 1) || (junctionType =? 3))
                   (fun i => (c.1 + i, c.2)) g1;
  g3 ← junctionArm m ((junctionType =? 2) || (junctionType =? 3))
                   (fun i => (c.1, c.2 - i)) g2;
  g4 ← junctionArm m ((junctionType =? 0) || (junctionType =? 2))
                   (fun i => (c.1 - i, c.2)) g3;
  Some (g4, rs1).

Definition generateGeometricPattern (m : MazeGenerator) (rs : RandomSource)
  : option (Grid * RandomSource) :=
  let g0 := filledGrid (width m) (height m) true in
  g1 ← forEach (steps gridSpacing gridSpacing (height m))
        (fun y => forEach (seqZ 0 (width m))
                    (fun x g => writeCell g (x, y) false))
        g0;
  g2 ← forEach (steps gridSpacing gridSpacing (width m))
        (fun x => forEach (seqZ 0 (height m))
                    (fun y g => writeCell g (x, y) false))
        g1;
  g3 ← forEach (seqZ 0 ((width m + 2) / 3)) (diagonalConnection m) g2;
  g4 ← forEach (seqZ 0 ((width m + 3) / 4)) (zigzag m) g3;
  forEach (steps gridSpacing (gridSpacing * 2) (height m))
    (fun y => forEach (steps gridSpacing (gridSpacing * 2) (width m))
                (fun x => junction m (x, y)))
    (g4, rs).

(** ** [generateSymmetricPattern], the builder behind [patternType = 2] *)

(** The cells of the first quadrant that the pattern opens. *)
Definition quadrantPattern (x y : Z) : bool :=
  ((x mod 3 =? 0) && (y mod 2 =? 0))
  || ((x mod 4 =? 0) && (y mod 3 =? 0))
  || (x =? y)
  || (x =? y + 2).

(** The body of the two nested loops: the cell and its three mirrors. *)
Definition mirrorCell (m : MazeGenerator) (c : Cell) (g : Grid) : option Grid :=
  if quadrantPattern c.1 c.2 then
    g0 ← writeCell g c false;
    g1 ← writeIfInBounds m (width m - 1 - c.1, c.2) false g0;
    g2 ← writeIfInBounds m (c.1, height m - 1 - c.2) false g1;
    writeIfInBounds m (width m - 1 - c.1, height m - 1 - c.2) false g2
  else Some g.

(** One of the ten connecting paths: a whole row or a whole column. *)
Definition connectingPath (m : MazeGenerator) (s : PassState) : option PassState :=
  let (u1, rs1) := nextRandom s.2 in
  let (u2, rs2) := nextRandom rs1 in
  let (u3, rs3) := nextRandom rs2 in
  let x := Qfloor (u1 * (inject_Z (width m) / 2)) in
  let y := Qfloor (u2 * (inject_Z (height m) / 2)) in
  g ← (if Qlt_bool u3 (1 # 2)
       then forEach (seqZ 0 (width m))
                    (fun j g => writeIfInBounds m (j, y) false g) s.1
       else forEach (seqZ 0 (height m))
                    (fun j g => writeIfInBounds m (x, j) false g) s.1);
  Some (g, rs3).

(** The pattern of the quadrants, before the connecting paths. *)
Definition mirroredQuadrants (m : MazeGenerator) : option Grid :=
  forEach (seqZ 0 (width m / 2))
    (fun x => forEach (seqZ 0 (height m / 2)) (fun y => mirrorCell m (x, y)))
    (filledGrid (width m) (height m) true).

Definition generateSymmetricPattern (m : MazeGenerator) (rs : RandomSource)
  : option (Grid * RandomSource) :=
  g ← mirroredQuadrants m;
  repeatLoop 10 (connectingPath m) (g, rs).

(** ** [generateMaze]

    The four builders of the base structure ([runPrimsAlgorithm],
    [generateGeometricPattern], [generateConcentricPattern],
    [generateSymmetricPattern]) fill [this.mazeGrid] and nothing else that
    the rest of the pipeline reads; the concentric one does so through
    [Math.cos] and [Math.sin].  What they carve is left open in
    [generateMaze]: [runStrategy] is any function from the object and the
    source to a grid and the rest of the source.  [patternBuilders] then
    puts [generateGeometricPattern] and [generateSymmetricPattern] in
    their places. *)
Section GenerateMaze.

Variable runStrategy :
  Strategy -> MazeGenerator -> RandomSource -> option (Grid * RandomSource).

Definition generateMaze (m : MazeGenerator) (rs : RandomSource)
  : option (MazeGenerator * RandomSource) :=
  let m0 := initializeMaze m in
  '(g1, rs1) ← runStrategy (selectedStrategy m0) m0 rs;
  '(m2, rs2) ← createExit (withGrid m0 g1) rs1;
  '(g3, rs3) ← applyWaveFunctionCollapse m2 (mazeGrid m2, rs2);
  m4 ← ensureMazeIsSolvable (withGrid m2 g3);
  Some (m4, rs3).

End GenerateMaze.

Definition patternBuilders
    (other : Strategy -> MazeGenerator -> RandomSource
             -> option (Grid * RandomSource))
    (st : Strategy) : MazeGenerator -> RandomSource -> option (Grid * RandomSource) :=
  match st with
  | Geometric => generateGeometricPattern
  | Symmetric => generateSymmetricPattern
  | _ => other st
  end.

(** ** Connectivity through path cells *)

(** A cell of the grid that is a path. *)
Definition pathCell (m : MazeGenerator) (c : Cell) : Prop :=
  isInBounds m c = true ∧ readCell (mazeGrid m) c = Some false.

Definition adjacent (a b : Cell) : Prop := ∃ d, d ∈ directions ∧ b = addCell a d.

(** [reaches m a b]: from [a] one can walk to [b], each step to one of the
    four neighbours and onto a path cell. *)
Inductive reaches (m : MazeGenerator) (a : Cell) : Cell -> Prop :=
  | reaches_here : reaches m a a
  | reaches_step b c :
      reaches m a b -> adjacent b c -> pathCell m c -> reaches m a c.

(** The exit is reachable from every path cell. *)
Definition solvableFromEverywhere (m : MazeGenerator) : Prop :=
  ∀ c, pathCell m c -> reaches m c (exitPosition m).

(** The corridor of the repair: the row of the start from its column to
    the exit's, then the exit's column from that row to the exit. *)
Definition between (a b i : Z) : Prop := Z.min a b <= i <= Z.max a b.

Definition onCorridor (s e c : Cell) : Prop :=
  (c.2 = s.2 ∧ between s.1 e.1 c.1) ∨ (c.1 = e.1 ∧ between s.2 e.2 c.2).

#[global] Instance onCorridor_dec (s e c : Cell) : Decision (onCorridor s e c).
Proof. unfold onCorridor, between. apply _. Defined.

(** Decision of [solvableFromEverywhere] by one search per path cell. *)
Definition solvableFromEverywhereb (m : MazeGenerator) : bool :=
  forallb (fun c => isWallAt (mazeGrid m) c
                    || match searchFrom m c with Some true => true | _ => false end)
          (scanOrder (width m) (height m)).

(** Decision of [gridHasDims]. *)
Definition gridHasDimsb (w h : Z) (g : Grid) : bool :=
  (length g =? Z.to_nat w)%nat
  && forallb (fun col => (length col =? Z.to_nat h)%nat) g.

(** The number of cells of [visited] that are still [false]. *)
Definition unmarked (visited : Grid) : nat :=
  list_sum (map (fun col => length (List.filter negb col)) visited).

(** A draw of [Math.random()] lies in [[0,1)]. *)
Definition unitDraw (u : Q) : Prop := (0 <= u)%Q ∧ (u < 1)%Q.

(** ** Notions used to state the facts below *)

(** Every draw of the source lies in [[0,1)]. *)
Definition unitSource (rs : RandomSource) : Prop := ∀ n, unitDraw (rs n).

(** A pass can run: the grid is the array of [m] and the draws are proper. *)
Definition passReady (m : MazeGenerator) (s : PassState) : Prop :=
  gridHasDims (width m) (height m) s.1 ∧ unitSource s.2.


Definition towards (i step target : Z) : Prop :=
  (step = 1 ∧ i <= target) ∨ (step = -1 ∧ target <= i).

(** What one [forEach] over directions does to [visited] and [queue]. *)
Definition visitOutcome (m : MazeGenerator) (current : Cell) (dirs : list Cell)
    (visited : Grid) (queue : list Cell) (vq : Grid * list Cell) : Prop :=
  gridHasDims (width m) (height m) vq.1
  ∧ ∃ new, vq.2 = queue ++ new
      ∧ (unmarked vq.1 + length new = unmarked visited)%nat
      ∧ (∀ n, n ∈ new ->
              (∃ d, d ∈ dirs ∧ n = addCell current d)
              ∧ isInBounds m n = true ∧ isPathAt (mazeGrid m) n = true)
      ∧ (∀ c, truthyAt vq.1 c = true ↔ truthyAt visited c = true ∨ c ∈ new)
      ∧ (∀ d, d ∈ dirs ->
              isInBounds m (addCell current d) = true ->
              isPathAt (mazeGrid m) (addCell current d) = true ->
              truthyAt vq.1 (addCell current d) = true).

(** Every visited cell that has left the queue is not the exit and has
    all its path neighbours visited. *)
Definition settled (m : MazeGenerator) (visited : Grid) (queue : list Cell) : Prop :=
  ∀ c, truthyAt visited c = true -> c ∉ queue ->
       c ≠ exitPosition m
       ∧ ∀ d, d ∈ directions -> pathCell m (addCell c d) ->
              truthyAt visited (addCell c d) = true.

(** What the scan requires of a cell before it enters [wallsToShift]. *)
Definition eligibleShift (m : MazeGenerator) (w : WallShift) : Prop :=
  In (shiftCell w) (interiorCells m)
  ∧ nearExit m (shiftCell w) = false
  ∧ if toWall w
    then isWallAt (mazeGrid m) (shiftCell w) = false
         ∧ 3 <= countAdjacentPaths m (mazeGrid m) (shiftCell w)
    else isWallAt (mazeGrid m) (shiftCell w) = true
         ∧ countAdjacentPaths m (mazeGrid m) (shiftCell w) <= 2.

Definition sameNearExit (m : MazeGenerator) (s s' : PassState) : Prop :=
  ∀ c, nearExit m c = true -> readCell s'.1 c = readCell s.1 c.

Definition keepsDims (w h : Z) (g g' : Grid) : Prop :=
  gridHasDims w h g -> gridHasDims w h g'.

Definition passKeepsDims (w h : Z) (s s' : PassState) : Prop :=
  keepsDims w h s.1 s'.1.

(** The builders allocate [this.mazeGrid] as a [width] by [height] array
    (or, for the spanning tree, carve the one [initializeMaze] made). *)
Definition buildersAllocate
    (run : Strategy -> MazeGenerator -> RandomSource -> option (Grid * RandomSource))
  : Prop :=
  ∀ st m rs g rs', run st m rs = Some (g, rs') ->
                   gridHasDims (width m) (height m) g.

(** The number of path cells of a grid. *)
Definition pathCount (g : Grid) : nat := unmarked g.

(** [g'] has at most [k] path cells fewer than [g]. *)
Definition closesAtMost (k : nat) (g g' : Grid) : Prop :=
  (pathCount g <= pathCount g' + k)%nat.

Definition passCloses (k : nat) (s s' : PassState) : Prop :=
  closesAtMost k s.1 s'.1.

(** The writes of [true] the four passes can make: at most four chambers
    of two pillars each, one per standalone pillar, two per arch and one
    per turn of the noise pass. *)
Definition wallBudget (m : MazeGenerator) : nat :=
  (8 + Z.to_nat (width m * height m / 40)
   + 2 * Z.to_nat (width m * height m / 60)
   + Z.to_nat (width m * height m / 10))%nat.

(** Every path cell of [g] is a path cell of [g']. *)
Definition keepsPaths (g g' : Grid) : Prop :=
  ∀ c, readCell g c = Some false -> readCell g' c = Some false.

Definition passKeepsPaths (s s' : PassState) : Prop := keepsPaths s.1 s'.1.

(** A step that draws and only opens cells. *)
Definition opensAndDraws (s s' : PassState) : Prop :=
  unitSource s.2 -> unitSource s'.2 ∧ keepsPaths s.1 s'.1.

(** The cells of [rows] across the columns of [columns]. *)
Definition rowCells (columns rows : list Z) : list Cell :=
  flat_map (fun y => map (fun x => (x, y)) columns) rows.

(** What [generateMaze] needs of the builder it runs: the [width] by
    [height] array, a source whose draws are still proper, and more path
    cells than the four passes can close. *)
Definition builderDelivers
    (run : Strategy -> MazeGenerator -> RandomSource -> option (Grid * RandomSource))
    (m : MazeGenerator) (rs : RandomSource) : Prop :=
  ∃ g rs1,
    run (selectedStrategy (initializeMaze m)) (initializeMaze m) rs = Some (g, rs1)
    ∧ gridHasDims (width m) (height m) g ∧ unitSource rs1
    ∧ (wallBudget m + 2 <= pathCount g)%nat.

(** The edge of the grid. *)
Definition onEdge (m : MazeGenerator) (c : Cell) : Prop :=
  c.1 = 0 ∨ c.1 = width m - 1 ∨ c.2 = 0 ∨ c.2 = height m - 1.

(** A path cell at [k] steps from the exit at most. *)
Definition openWithin (m : MazeGenerator) (k : Z) (g : Grid) : Prop :=
  ∃ c, readCell g c = Some false
       ∧ Z.abs (c.1 - (exitPosition m).1) + Z.abs (c.2 - (exitPosition m).2) <= k.

(** The builder of this call returns the array, and leaves proper draws. *)
Definition builderReturns
    (run : Strategy -> MazeGenerator -> RandomSource -> option (Grid * RandomSource))
    (m : MazeGenerator) (rs : RandomSource) : Prop :=
  ∃ g rs1,
    run (selectedStrategy (initializeMaze m)) (initializeMaze m) rs = Some (g, rs1)
    ∧ gridHasDims (width m) (height m) g ∧ unitSource rs1.

(** * Mazes and sources used as examples *)

(** A generator whose grid is all walls but for [paths]. *)
Definition mazeOf (w h : Z) (e : Cell) (paths : list Cell) (t : float)
  : MazeGenerator :=
  {| width := w; height := h; cellSize := 2; shiftInterval := 60;
     shiftChance := literal_0_2;
     mazeGrid := fold_right (fun c g => setCell g c false)
                            (filledGrid w h true) paths;
     exitPosition := e; nextShiftTime := t;
     usePatternedGeneration := true; patternType := 0 |}.

(** Every draw is [1/2] but the [k]-th, which is [0]. *)
Definition drawsExcept (k : nat) : RandomSource :=
  fun n => if (n =? k)%nat then 0%Q else (1 # 2)%Q.

(** The draws of [l], then [1/2] for ever. *)
Definition drawsFrom (l : list Q) : RandomSource := fun n => nth n l (1 # 2)%Q.

Definition halfDraws : RandomSource := fun _ => (1 # 2)%Q.

(** A 7 by 7 maze, exit on the left edge: one corridor along the row 3
    and a crossing at (4,3) with three dead ends. *)
Definition junctionMaze : MazeGenerator :=
  mazeOf 7 7 (0, 3)
    [(0, 3); (1, 3); (2, 3); (3, 3); (4, 3); (5, 3); (4, 2); (4, 4)] 60.

(** A 7 by 7 maze, exit on the right edge, whose first path cell (1,1)
    reaches the exit only through the crossing (3,3). *)
Definition bridgeMaze : MazeGenerator :=
  mazeOf 7 7 (6, 3)
    [(1, 1); (1, 2); (1, 3); (2, 3); (3, 3); (4, 3); (5, 3); (6, 3); (3, 4)] 60.

(** [bridgeMaze] after the shift firing that walls the crossing (3,3):
    the validator has carved the row 1 and the column 6 up to the exit. *)
Definition bridgeMazeRepaired : MazeGenerator :=
  mazeOf 7 7 (6, 3)
    [(1, 1); (1, 2); (1, 3); (2, 1); (2, 3); (3, 1); (3, 4); (4, 1); (4, 3);
     (5, 1); (5, 3); (6, 1); (6, 2); (6, 3)] 60.

(** [bridgeMaze] with three more path cells around the wall (3,1). *)
Definition crowdedMaze : MazeGenerator :=
  mazeOf 7 7 (6, 3)
    [(1, 1); (1, 2); (1, 3); (2, 3); (3, 3); (4, 3); (5, 3); (6, 3); (3, 4);
     (3, 0); (3, 2); (4, 1)] 60.

(** An 8 by 8 maze whose only paths are the exit (7,3) and the two cells
    before it. *)
Definition archMaze : MazeGenerator :=
  mazeOf 8 8 (7, 3) [(5, 3); (6, 3); (7, 3)] 60.

Definition archDraws : RandomSource := drawsFrom [0; 0; 3 # 4; 1 # 4; 0]%Q.

Definition corridorDraws : RandomSource :=
  drawsFrom [2 # 3; 1 # 3; 0; 0; 9 # 10; 9 # 10; 9 # 10; 9 # 10; 0; 0]%Q.

(** A 12 by 12 maze whose only paths are the exit (0,5) and the cell next
    to it. *)
Definition chamberMaze : MazeGenerator := mazeOf 12 12 (0, 5) [(0, 5); (1, 5)] 60.

Definition chamberDraws : RandomSource :=
  drawsFrom [0; 1 # 4; 3 # 4; 3 # 4; 3 # 4; 0; 1 # 2; 1 # 2; 0; 3 # 8; 0; 0]%Q.

(** Scenario 2 of the specification: a 5 by 5 grid, exit at (4,4) with
    walls all around it, and one path cell at (1,1). *)
Definition walledExitMaze : MazeGenerator := mazeOf 5 5 (4, 4) [(1, 1); (4, 4)] 60.

(** A builder that opens every cell. *)
Definition openField (st : Strategy) (m : MazeGenerator) (rs : RandomSource)
  : option (Grid * RandomSource) :=
  Some (filledGrid (width m) (height m) false, rs).

(** A freshly constructed 7 by 7 generator with [patternType = 0], and
    draws for one call of [generateMaze]: the junction type, the exit on
    the left edge at (0,3), two chambers too close to the exit to be
    placed, a pillar on the crossing (3,3), a corridor start and four
    noise cells that are skipped. *)
Definition freshMaze7 : MazeGenerator := mazeOf 7 7 (0, 0) [] 0.

Definition generationDraws : RandomSource :=
  drawsFrom [1 # 2; 3 # 4; 1 # 2; 0; 1 # 2; 1 # 2; 1 # 2; 1 # 2;
             1 # 2; 1 # 2; 1 # 2; 1 # 2; 1 # 2; 1 # 2; 0; 0;
             0; 1 # 2; 0; 1 # 2; 0; 1 # 2; 0; 1 # 2]%Q.

(** What that call returns. *)
Definition generatedMaze7 : MazeGenerator :=
  mazeOf 7 7 (0, 3)
    [(0, 3); (0, 4); (0, 5); (0, 6); (1, 3); (1, 6); (2, 3); (2, 6);
     (3, 0); (3, 1); (3, 2); (3, 4); (3, 5); (3, 6);
     (4, 3); (4, 4); (4, 6); (5, 3); (5, 5); (5, 6);
     (6, 0); (6, 1); (6, 2); (6, 3); (6, 4); (6, 5); (6, 6)] 60.

(** * Facts about the grid *)

Lemma cellEq_true (a b : Cell) : cellEq a b = true ↔ a = b.
Proof.
  destruct a as [ax ay], b as [bx b_y]; unfold cellEq; simpl.
  rewrite andb_true_iff, !Z.eqb_eq. split; [intros [-> ->]|intros [= -> ->]]; done.
Qed.

Lemma cellEq_false (a b : Cell) : cellEq a b = false ↔ a ≠ b.
Proof.
  rewrite <- cellEq_true. destruct (cellEq a b); split; congruence.
Qed.

Lemma readCell_nonneg (g : Grid) (c : Cell) b :
  readCell g c = Some b -> 0 <= c.1 ∧ 0 <= c.2.
Proof.
  unfold readCell. destruct (0 <=? c.1) eqn:H1, (0 <=? c.2) eqn:H2; simpl; try done.
  intros _. split; lia.
Qed.

Lemma lookup_insert_column (col : list bool) (i j : nat) (v : bool) :
  <[i := v]> col !! j = if decide (j = i) then col !! i ≫= (fun _ => Some v) else col !! j.
Proof.
  case_decide as Hij.
  - subst j. destruct (col !! i) eqn:Hc; simpl.
    + apply list_lookup_insert_eq. by eapply lookup_lt_Some.
    + apply lookup_ge_None in Hc. rewrite list_insert_ge by lia.
      by apply lookup_ge_None.
  - by apply list_lookup_insert_ne.
Qed.

Lemma readCell_setCell (g : Grid) (c c' : Cell) (v : bool) :
  0 <= c.1 -> 0 <= c.2 ->
  readCell (setCell g c v) c'
  = if decide (c' = c) then readCell g c ≫= (fun _ => Some v) else readCell g c'.
Proof.
  intros Hx Hy. destruct c as [x y], c' as [x' y']; simpl in *.
  unfold readCell, setCell; simpl.
  destruct (0 <=? x') eqn:Hx'; [|case_decide as E; [inversion E; lia|done]].
  destruct (0 <=? y') eqn:Hy'; [|case_decide as E; [inversion E; lia|done]].
  simpl. replace (0 <=? x) with true by lia. replace (0 <=? y) with true by lia.
  simpl. destruct (decide (x' = x)) as [->|Hne].
  - rewrite list_lookup_alter_eq. destruct (g !! Z.to_nat x) as [col|]; simpl.
    + rewrite lookup_insert_column.
      destruct (decide (Z.to_nat y' = Z.to_nat y)) as [E|E].
      * assert (y' = y) as -> by lia. by rewrite decide_True.
      * rewrite decide_False; [done|]. intros [= ->]. done.
    + case_decide; done.
  - rewrite list_lookup_alter_ne by lia.
    rewrite decide_False; [done|]. intros [= -> ->]. done.
Qed.

Lemma readCell_writeCell (g g' : Grid) (c c' : Cell) (v : bool) :
  writeCell g c v = Some g' ->
  readCell g' c' = if decide (c' = c) then Some v else readCell g c'.
Proof.
  unfold writeCell. destruct (readCell g c) as [b|] eqn:Hc; [|done].
  intros [= <-]. destruct (readCell_nonneg _ _ _ Hc).
  rewrite readCell_setCell by done. rewrite Hc. done.
Qed.

Lemma writeCell_is_Some (g : Grid) (c : Cell) (v : bool) :
  is_Some (readCell g c) -> is_Some (writeCell g c v).
Proof. intros [b Hb]. unfold writeCell. rewrite Hb. eauto. Qed.

Lemma gridHasDims_setCell w h (g : Grid) c v :
  gridHasDims w h g -> gridHasDims w h (setCell g c v).
Proof.
  intros [Hl Hc]. unfold setCell. split.
  - by rewrite length_alter.
  - apply Forall_lookup. intros i col Hi.
    destruct (decide (i = Z.to_nat c.1)) as [->|Hne].
    + rewrite list_lookup_alter_eq in Hi.
      destruct (g !! Z.to_nat c.1) as [col0|] eqn:E; simplify_eq/=.
      rewrite length_insert. eapply (proj1 (Forall_lookup _ _) Hc); eauto.
    + rewrite list_lookup_alter_ne in Hi by done.
      eapply (proj1 (Forall_lookup _ _) Hc); eauto.
Qed.

Lemma gridHasDims_writeCell w h (g g' : Grid) c v :
  writeCell g c v = Some g' -> gridHasDims w h g -> gridHasDims w h g'.
Proof.
  unfold writeCell. destruct (readCell g c); [|done].
  intros [= <-]. apply gridHasDims_setCell.
Qed.

Lemma readCell_in_grid w h (g : Grid) (c : Cell) :
  gridHasDims w h g ->
  is_Some (readCell g c) ↔ (0 <= c.1 < w ∧ 0 <= c.2 < h).
Proof.
  intros [Hl Hc]. unfold readCell.
  destruct (0 <=? c.1) eqn:H1; simpl; [|split; [by intros [? ?]|lia]].
  destruct (0 <=? c.2) eqn:H2; simpl; [|split; [by intros [? ?]|lia]].
  destruct (g !! Z.to_nat c.1) as [col|] eqn:E; simpl.
  - assert (length col = Z.to_nat h) as Hcol
      by (eapply (proj1 (Forall_lookup _ _) Hc); eauto).
    apply lookup_lt_Some in E. rewrite lookup_lt_is_Some. lia.
  - apply lookup_ge_None in E. split; [by intros [? ?]|lia].
Qed.

Lemma isInBounds_spec (m : MazeGenerator) (c : Cell) :
  isInBounds m c = true ↔ (0 <= c.1 < width m ∧ 0 <= c.2 < height m).
Proof. unfold isInBounds. rewrite !andb_true_iff. lia. Qed.

Lemma towards_step i dx : towards i (if 0 <? dx then 1 else -1) (i + dx).
Proof. unfold towards. destruct (0 <? dx) eqn:E; lia. Qed.

Section CarveLine.

Variable cellOf : Z -> Cell.

Lemma carveLine_keeps_paths fuel : ∀ (g g' : Grid) i step target,
    carveLine cellOf fuel g i step target = Some g' ->
    ∀ c, readCell g c = Some false -> readCell g' c = Some false.
  Proof.
    induction fuel as [|fuel IH]; intros g g' i step target; simpl;
      destruct (i =? target); try done; try by intros [= <-].
    destruct (writeCell g (cellOf (i + step)) false) as [g1|] eqn:Hw; [|done].
    simpl. intros Hrest c Hc. eapply IH; [exact Hrest|].
    rewrite (readCell_writeCell _ _ _ _ _ Hw). by case_decide.
  Qed.

Lemma carveLine_dims fuel w h : ∀ (g g' : Grid) i step target,
    carveLine cellOf fuel g i step target = Some g' ->
    gridHasDims w h g -> gridHasDims w h g'.
  Proof.
    induction fuel as [|fuel IH]; intros g g' i step target; simpl;
      destruct (i =? target); try done; try by intros [= <-].
    destruct (writeCell g (cellOf (i + step)) false) as [g1|] eqn:Hw; [|done].
    simpl. intros Hrest Hd. eapply IH; [exact Hrest|].
    by eapply gridHasDims_writeCell.
  Qed.

Lemma carveLine_opens fuel : ∀ (g g' : Grid) i step target,
    towards i step target ->
    carveLine cellOf fuel g i step target = Some g' ->
    ∀ j, j ≠ i -> between i target j -> readCell g' (cellOf j) = Some false.
  Proof.
    induction fuel as [|fuel IH]; intros g g' i step target Hdir; simpl;
      destruct (i =? target) eqn:E; try done;
      try (intros _ j Hne Hb; unfold between in Hb; lia).
    destruct (writeCell g (cellOf (i + step)) false) as [g1|] eqn:Hw; [|done].
    simpl. intros Hrest j Hne Hb.
    destruct (decide (j = i + step)) as [->|Hne'].
    - eapply carveLine_keeps_paths; [exact Hrest|].
      rewrite (readCell_writeCell _ _ _ _ _ Hw). by rewrite decide_True.
    - eapply IH; [|exact Hrest|done|].
      + unfold towards in *. lia.
      + unfold between in *. unfold towards in Hdir. lia.
  Qed.

Lemma carveLine_elsewhere fuel : ∀ (g g' : Grid) i step target,
    towards i step target ->
    carveLine cellOf fuel g i step target = Some g' ->
    ∀ c, (∀ j, j ≠ i -> between i target j -> c ≠ cellOf j) ->
         readCell g' c = readCell g c.
  Proof.
    induction fuel as [|fuel IH]; intros g g' i step target Hdir; simpl;
      destruct (i =? target) eqn:E; try done; try by intros [= <-].
    destruct (writeCell g (cellOf (i + step)) false) as [g1|] eqn:Hw; [|done].
    simpl. intros Hrest c Hc.
    assert (towards (i + step) step target) as Hdir'
      by (unfold towards in *; lia).
    rewrite (IH _ _ _ _ _ Hdir' Hrest c).
    - rewrite (readCell_writeCell _ _ _ _ _ Hw). rewrite decide_False; [done|].
      apply Hc; unfold between, towards in *; lia.
    - intros j Hj Hb. apply Hc; unfold between, towards in *; lia.
  Qed.

Lemma carveLine_total fuel : ∀ (g : Grid) i step target,
    towards i step target ->
    (Z.abs_nat (target - i) <= fuel)%nat ->
    (∀ j, j ≠ i -> between i target j -> is_Some (readCell g (cellOf j))) ->
    is_Some (carveLine cellOf fuel g i step target).
  Proof.
    induction fuel as [|fuel IH]; intros g i step target Hdir Hfuel Hin; simpl;
      destruct (i =? target) eqn:E; try done; try lia.
    destruct (writeCell_is_Some g (cellOf (i + step)) false) as [g1 Hw].
    { apply Hin; unfold between, towards in *; lia. }
    rewrite Hw. simpl. apply IH.
    - unfold towards in *. lia.
    - unfold towards in *. lia.
    - intros j Hj Hb. rewrite (readCell_writeCell _ _ _ _ _ Hw).
      case_decide; [done|]. apply Hin; unfold between, towards in *; lia.
  Qed.

End CarveLine.

(** * Walking along path cells *)

Lemma reaches_trans m a b c : reaches m a b -> reaches m b c -> reaches m a c.
Proof.
  intros Hab Hbc. induction Hbc as [|x y Hbx IH Hadj Hp]; [done|].
  eapply reaches_step; eauto.
Qed.

Lemma adjacent_right x y : adjacent (x, y) (x + 1, y).
Proof. exists (1, 0). split; [unfold directions; repeat constructor|]. unfold addCell; simpl. f_equal; lia. Qed.

Lemma adjacent_left x y : adjacent (x, y) (x - 1, y).
Proof. exists (-1, 0). split; [unfold directions; repeat constructor|]. unfold addCell; simpl. f_equal; lia. Qed.

Lemma adjacent_up x y : adjacent (x, y) (x, y + 1).
Proof. exists (0, 1). split; [unfold directions; repeat constructor|]. unfold addCell; simpl. f_equal; lia. Qed.

Lemma adjacent_down x y : adjacent (x, y) (x, y - 1).
Proof. exists (0, -1). split; [unfold directions; repeat constructor|]. unfold addCell; simpl. f_equal; lia. Qed.

Section WalkLine.

Variable m : MazeGenerator.
Variable cellOf : Z -> Cell.
Hypothesis next_adjacent : ∀ i, adjacent (cellOf i) (cellOf (i + 1)).
Hypothesis prev_adjacent : ∀ i, adjacent (cellOf i) (cellOf (i - 1)).

Lemma reaches_along_line (a : Cell) (n : nat) : ∀ i target,
    Z.abs_nat (target - i) = n ->
    (∀ j, j ≠ i -> between i target j -> pathCell m (cellOf j)) ->
    reaches m a (cellOf i) -> reaches m a (cellOf target).
  Proof.
    induction n as [|n IH]; intros i target Hn Hpath Hi.
    - assert (target = i) as -> by lia. done.
    - destruct (Z.lt_ge_cases i target) as [Hlt|Hge].
      + apply (IH (i + 1)); [lia| |].
        * intros j Hj Hb. apply Hpath; unfold between in *; lia.
        * eapply reaches_step; [exact Hi|apply next_adjacent|].
          apply Hpath; unfold between; lia.
      + apply (IH (i - 1)); [lia| |].
        * intros j Hj Hb. apply Hpath; unfold between in *; lia.
        * eapply reaches_step; [exact Hi|apply prev_adjacent|].
          apply Hpath; unfold between; lia.
  Qed.

End WalkLine.

Lemma createPathToExit_spec (m : MazeGenerator) (s : Cell) :
  wellFormed m ->
  isInBounds m s = true ->
  isInBounds m (exitPosition m) = true ->
  ∃ g', createPathToExit m s = Some (withGrid m g')
        ∧ gridHasDims (width m) (height m) g'
        ∧ (∀ c, onCorridor s (exitPosition m) c -> c ≠ s ->
                readCell g' c = Some false)
        ∧ (∀ c, ¬ onCorridor s (exitPosition m) c ->
                readCell g' c = readCell (mazeGrid m) c)
        ∧ readCell g' s = readCell (mazeGrid m) s.
Proof.
  intros Hwf Hs He. unfold createPathToExit.
  destruct s as [sx sy]. destruct (exitPosition m) as [ex ey] eqn:Hexit.
  apply isInBounds_spec in Hs, He. simpl in *.
  assert (towards sx (if 0 <? ex - sx then 1 else -1) ex) as HdirX.
  { pose proof (towards_step sx (ex - sx)) as H.
    by replace (sx + (ex - sx)) with ex in H by lia. }
  assert (towards sy (if 0 <? ey - sy then 1 else -1) ey) as HdirY.
  { pose proof (towards_step sy (ey - sy)) as H.
    by replace (sy + (ey - sy)) with ey in H by lia. }
  destruct (carveLine_total (fun i => (i, sy)) (Z.abs_nat (ex - sx))
              (mazeGrid m) sx _ ex HdirX) as [g1 Hg1].
  { lia. }
  { intros j Hj Hb. apply (readCell_in_grid _ _ _ _ Hwf).
    unfold between in Hb. simpl. lia. }
  unfold carveRow, carveColumn. rewrite Hg1. simpl.
  assert (gridHasDims (width m) (height m) g1) as Hd1
    by (eapply carveLine_dims; [exact Hg1|exact Hwf]).
  destruct (carveLine_total (fun i => (ex, i)) (Z.abs_nat (ey - sy))
              g1 sy _ ey HdirY) as [g2 Hg2].
  { lia. }
  { intros j Hj Hb. apply (readCell_in_grid _ _ _ _ Hd1).
    unfold between in Hb. simpl. lia. }
  rewrite Hg2. simpl. exists g2. split; [done|].
  split; [eapply carveLine_dims; [exact Hg2|exact Hd1]|].
  assert (∀ j, j ≠ sx -> between sx ex j -> readCell g2 (j, sy) = Some false)
    as Hrow.
  { intros j Hj Hb. eapply carveLine_keeps_paths; [exact Hg2|].
    by apply (carveLine_opens _ _ _ _ _ _ _ HdirX Hg1 j). }
  split; [|split].
  - intros [x y] [[Hy Hb]|[Hx Hb]] Hne; simpl in *; subst.
    + apply Hrow; [|done]. intros ->. done.
    + destruct (decide (y = sy)) as [->|Hy].
      * apply Hrow; [|unfold between; lia]. intros ->. done.
      * by apply (carveLine_opens _ _ _ _ _ _ _ HdirY Hg2 y).
  - intros c Hc.
    rewrite (carveLine_elsewhere _ _ _ _ _ _ _ HdirY Hg2).
    + apply (carveLine_elsewhere _ _ _ _ _ _ _ HdirX Hg1).
      intros j Hj Hb ->. apply Hc. left. done.
    + intros j Hj Hb ->. apply Hc. right. done.
  - rewrite (carveLine_elsewhere _ _ _ _ _ _ _ HdirY Hg2).
    + apply (carveLine_elsewhere _ _ _ _ _ _ _ HdirX Hg1).
      intros j Hj Hb [= ->]. done.
    + intros j Hj Hb [= -> ->]. done.
Qed.

Lemma createPathToExit_keeps_paths (m m' : MazeGenerator) (s : Cell) :
  createPathToExit m s = Some m' ->
  ∃ g', m' = withGrid m g'
        ∧ ∀ c, readCell (mazeGrid m) c = Some false -> readCell g' c = Some false.
Proof.
  unfold createPathToExit, carveRow, carveColumn. intros H.
  destruct (carveLine _ _ (mazeGrid m) _ _ _) as [g1|] eqn:H1; [|done].
  simpl in H.
  destruct (carveLine _ _ g1 _ _ _) as [g2|] eqn:H2; [|done].
  simpl in H. injection H as <-. exists g2. split; [done|].
  intros c Hc. eapply carveLine_keeps_paths; [exact H2|].
  eapply carveLine_keeps_paths; [exact H1|done].
Qed.

Lemma pathCell_withGrid (m : MazeGenerator) (g : Grid) (c : Cell) :
  pathCell (withGrid m g) c ↔ isInBounds m c = true ∧ readCell g c = Some false.
Proof. done. Qed.

Lemma createPathToExit_connects (m : MazeGenerator) (s : Cell) g' :
  isInBounds m s = true ->
  isInBounds m (exitPosition m) = true ->
  (∀ c, onCorridor s (exitPosition m) c -> c ≠ s -> readCell g' c = Some false) ->
  reaches (withGrid m g') s (exitPosition m).
Proof.
  intros Hs He Hopen. destruct s as [sx sy].
  destruct (exitPosition m) as [ex ey] eqn:Hexit.
  apply isInBounds_spec in Hs, He. simpl in *.
  assert (reaches (withGrid m g') (sx, sy) (ex, sy)) as Hrow.
  { apply (reaches_along_line (withGrid m g') (fun i => (i, sy))
             (fun i => adjacent_right i sy) (fun i => adjacent_left i sy)
             (sx, sy) (Z.abs_nat (ex - sx)) sx ex eq_refl); [|constructor].
    intros j Hj Hb. apply pathCell_withGrid. split.
    - apply isInBounds_spec. unfold between in Hb. simpl. lia.
    - apply Hopen; [left; done|]. intros [= ->]. done. }
  eapply reaches_trans; [exact Hrow|].
  apply (reaches_along_line (withGrid m g') (fun i => (ex, i))
           (fun i => adjacent_up ex i) (fun i => adjacent_down ex i)
           (ex, sy) (Z.abs_nat (ey - sy)) sy ey eq_refl); [|constructor].
  intros j Hj Hb. apply pathCell_withGrid. split.
  - apply isInBounds_spec. unfold between in Hb. simpl. lia.
  - apply Hopen; [right; done|]. intros [= -> ->]. done.
Qed.

Lemma corridor_reaches (m : MazeGenerator) (s c : Cell) g' :
  isInBounds m s = true ->
  isInBounds m (exitPosition m) = true ->
  (∀ c, onCorridor s (exitPosition m) c -> readCell g' c = Some false) ->
  onCorridor s (exitPosition m) c ->
  reaches (withGrid m g') c (exitPosition m).
Proof.
  intros Hs He Hopen Hc. destruct s as [sx sy], c as [x y].
  destruct (exitPosition m) as [ex ey] eqn:Hexit.
  apply isInBounds_spec in Hs, He. simpl in *.
  assert (∀ y0, between sy ey y0 ->
                reaches (withGrid m g') (ex, y0) (ex, ey)) as Hcol.
  { intros y0 Hy0.
    apply (reaches_along_line (withGrid m g') (fun i => (ex, i))
             (fun i => adjacent_up ex i) (fun i => adjacent_down ex i)
             (ex, y0) (Z.abs_nat (ey - y0)) y0 ey eq_refl); [|constructor].
    intros j Hj Hb. apply pathCell_withGrid. split.
    - apply isInBounds_spec. unfold between in *. simpl. lia.
    - apply Hopen. right. unfold between in *. simpl. lia. }
  destruct Hc as [[Hy Hb]|[Hx Hb]]; simpl in *; subst.
  - eapply reaches_trans; [|apply (Hcol sy); unfold between; lia].
    apply (reaches_along_line (withGrid m g') (fun i => (i, sy))
             (fun i => adjacent_right i sy) (fun i => adjacent_left i sy)
             (x, sy) (Z.abs_nat (ex - x)) x ex eq_refl); [|constructor].
    intros j Hj Hbj. apply pathCell_withGrid. split.
    + apply isInBounds_spec. unfold between in *. simpl. lia.
    + apply Hopen. left. unfold between in *. simpl. lia.
  - by apply Hcol.
Qed.

Lemma find_refines {A : Type} (f g : A -> bool) (l : list A) (a b : A) :
  (∀ x, f x = true -> g x = true) ->
  find f l = Some a -> find g l = Some b ->
  b = a ∨ f b = false.
Proof.
  intros Hfg. induction l as [|x l IH]; simpl; [done|].
  destruct (g x) eqn:Hg.
  - intros Hf [= <-]. destruct (f x) eqn:Hfx; [left; congruence|by right].
  - destruct (f x) eqn:Hfx; [by rewrite (Hfg x Hfx) in Hg|]. apply IH.
Qed.

(** * The search *)

Lemma unmarked_column (col : list bool) : ∀ i,
  col !! i = Some false ->
  (length (List.filter negb (<[i := true]> col)) + 1
   = length (List.filter negb col))%nat.
Proof.
  induction col as [|b col IH]; intros [|i]; simpl; try done.
  - intros [= ->]. simpl. lia.
  - intros Hi. specialize (IH i Hi). destruct b; simpl; lia.
Qed.

Lemma unmarked_setCell (visited : Grid) (c : Cell) :
  readCell visited c = Some false ->
  (unmarked (setCell visited c true) + 1 = unmarked visited)%nat.
Proof.
  intros Hc. destruct (readCell_nonneg _ _ _ Hc) as [Hx Hy].
  unfold readCell in Hc. replace (0 <=? c.1) with true in Hc by lia.
  replace (0 <=? c.2) with true in Hc by lia. simpl in Hc.
  unfold unmarked, setCell. revert Hc. generalize (Z.to_nat c.1) as i.
  induction visited as [|col visited IH]; intros [|i]; simpl; try done.
  - intros Hi. pose proof (unmarked_column col _ Hi). lia.
  - intros Hi. specialize (IH i Hi). change (alter ?f i visited)
      with (list_alter f i visited) in IH. lia.
Qed.

Lemma unmarked_filledGrid w h :
  unmarked (filledGrid w h false) = (Z.to_nat w * Z.to_nat h)%nat.
Proof.
  unfold unmarked, filledGrid. generalize (Z.to_nat w) as n.
  induction n as [|n IH]; simpl; [done|]. rewrite IH. f_equal.
  generalize (Z.to_nat h) as k. induction k; simpl; congruence.
Qed.

Lemma gridHasDims_filledGrid w h v : gridHasDims w h (filledGrid w h v).
Proof.
  unfold filledGrid. split; [by rewrite length_replicate|].
  apply Forall_forall. intros col Hcol. apply elem_of_replicate in Hcol as [-> _].
  by rewrite length_replicate.
Qed.

Lemma readCell_filledGrid w h v c :
  is_Some (readCell (filledGrid w h v) c) -> readCell (filledGrid w h v) c = Some v.
Proof.
  intros [b Hb]. rewrite Hb. f_equal. unfold readCell, filledGrid in Hb.
  destruct ((0 <=? c.1) && (0 <=? c.2)); [|done].
  destruct (replicate _ _ !! Z.to_nat c.1) as [col|] eqn:E; [|done]. simpl in Hb.
  apply lookup_replicate in E as [-> _].
  apply lookup_replicate in Hb as [-> _]. done.
Qed.

Section Search.

Variable m : MazeGenerator.

Lemma truthyAt_mark (visited : Grid) (c c' : Cell) :
    gridHasDims (width m) (height m) visited ->
    isInBounds m c = true ->
    truthyAt (setCell visited c true) c' = true
    ↔ truthyAt visited c' = true ∨ c' = c.
  Proof.
    intros Hd Hc. apply isInBounds_spec in Hc as Hc'.
    unfold truthyAt. rewrite readCell_setCell by lia.
    destruct (proj2 (readCell_in_grid _ _ _ c Hd) Hc') as [b Hb].
    case_decide as E; [subst; rewrite Hb; simpl; tauto|].
    split; [tauto|]. intros [?|?]; done.
  Qed.

Lemma unvisited_is_unmarked (visited : Grid) (c : Cell) :
    gridHasDims (width m) (height m) visited ->
    isInBounds m c = true ->
    truthyAt visited c = false ->
    readCell visited c = Some false.
  Proof.
    intros Hd Hc Hf. apply isInBounds_spec in Hc.
    destruct (proj2 (readCell_in_grid _ _ _ c Hd) Hc) as [b Hb].
    unfold truthyAt in Hf. rewrite Hb in *. simpl in Hf. by subst.
  Qed.

Lemma visitOutcome_skip current d dirs visited queue vq :
    (isInBounds m (addCell current d) = true ->
     isPathAt (mazeGrid m) (addCell current d) = true ->
     truthyAt visited (addCell current d) = true) ->
    visitOutcome m current dirs visited queue vq ->
    visitOutcome m current (d :: dirs) visited queue vq.
  Proof.
    intros Hskip (Hd & new & Hq & Hu & Hn & Ht & Hc).
    split; [done|]. exists new. split; [done|]. split; [done|].
    split; [|split; [done|]].
    - intros n Hin. destruct (Hn n Hin) as ((d' & Hd1 & Hd2) & Hrest).
      split; [|done]. exists d'. split; [by right|done].
    - intros d' Hd1 Hd2 Hd3. apply elem_of_cons in Hd1 as [->|Hd1].
      + apply Ht. left. by apply Hskip.
      + by apply Hc.
  Qed.

Lemma visit_directions (current : Cell) (dirs : list Cell) :
    ∀ (visited : Grid) (queue : list Cell),
      gridHasDims (width m) (height m) visited ->
      visitOutcome m current dirs visited queue
        (fold_left (visitNeighbor m current) dirs (visited, queue)).
  Proof.
    induction dirs as [|d dirs IH]; intros visited queue Hd; simpl.
    - split; [done|]. exists []. simpl. split; [by rewrite app_nil_r|].
      split; [lia|]. split; [intros n Hn; by apply elem_of_nil in Hn|].
      split; [|intros d Hd'; by apply elem_of_nil in Hd'].
      intros c. split; [tauto|]. intros [?|Hn]; [done|].
      by apply elem_of_nil in Hn.
    - unfold visitNeighbor at 2. simpl.
      destruct (isInBounds m (addCell current d)) eqn:Hb; simpl;
        [|apply visitOutcome_skip; [congruence|by apply IH]].
      destruct (isPathAt (mazeGrid m) (addCell current d)) eqn:Hp; simpl;
        [|apply visitOutcome_skip; [congruence|by apply IH]].
      destruct (truthyAt visited (addCell current d)) eqn:Hv; simpl;
        [apply visitOutcome_skip; [congruence|by apply IH]|].
      set (n := addCell current d) in *.
      assert (gridHasDims (width m) (height m) (setCell visited n true)) as Hd1
        by by apply gridHasDims_setCell.
      destruct (IH (setCell visited n true) (queue ++ [n]) Hd1)
        as (Hd' & new & Hq & Hu & Hn & Ht & Hc).
      split; [done|]. exists (n :: new). split; [|split; [|split; [|split]]].
      + rewrite Hq, <- app_assoc. done.
      + pose proof (unmarked_setCell visited n
                      (unvisited_is_unmarked _ _ Hd Hb Hv)). simpl. lia.
      + intros n' Hn'. apply elem_of_cons in Hn' as [->|Hn'].
        * split; [|done]. exists d. split; [by left|done].
        * destruct (Hn n' Hn') as ((d' & Hd2 & Hd3) & Hrest).
          split; [|done]. exists d'. split; [by right|done].
      + intros c. rewrite Ht, truthyAt_mark by done.
        rewrite elem_of_cons. tauto.
      + intros d' Hd2 Hd3 Hd4. apply elem_of_cons in Hd2 as [->|Hd2].
        * apply Ht. left. apply truthyAt_mark; [done..|]. by right.
        * by apply Hc.
  Qed.

End Search.

Lemma pathCell_isPathAt (m : MazeGenerator) (c : Cell) :
  pathCell m c -> isInBounds m c = true ∧ isPathAt (mazeGrid m) c = true.
Proof.
  intros [Hb Hr]. split; [done|]. unfold isPathAt, isWallAt, truthyAt.
  by rewrite Hr.
Qed.

Lemma isPathAt_pathCell (m : MazeGenerator) (c : Cell) :
  wellFormed m -> isInBounds m c = true -> isPathAt (mazeGrid m) c = true ->
  pathCell m c.
Proof.
  intros Hwf Hb Hp. split; [done|]. apply (unvisited_is_unmarked m); [done..|].
  unfold isPathAt, isWallAt in Hp. by destruct (truthyAt (mazeGrid m) c).
Qed.

Section SearchLoop.

Variable m : MazeGenerator.
Hypothesis Hwf : wellFormed m.

Local Opaque directions.

Lemma searchLoop_terminates fuel : ∀ (visited : Grid) (queue : list Cell),
    gridHasDims (width m) (height m) visited ->
    (2 * unmarked visited + length queue <= fuel)%nat ->
    is_Some (searchLoop fuel m visited queue).
  Proof.
    induction fuel as [|fuel IH]; intros visited [|c rest] Hd Hm; simpl; eauto.
    - simpl in Hm. lia.
    - destruct (cellEq c (exitPosition m)); eauto.
      destruct (visit_directions m c directions visited rest Hd)
        as (Hd' & new & Hq & Hu & _).
      apply IH; [done|]. rewrite Hq, length_app. simpl in Hm. lia.
  Qed.

Lemma searchLoop_sound (s : Cell) fuel : ∀ (visited : Grid) (queue : list Cell),
    gridHasDims (width m) (height m) visited ->
    (∀ c, c ∈ queue -> reaches m s c) ->
    searchLoop fuel m visited queue = Some true ->
    reaches m s (exitPosition m).
  Proof.
    induction fuel as [|fuel IH]; intros visited [|c rest] Hd Hq; simpl; try done.
    - destruct (cellEq c (exitPosition m)) eqn:E; [|done].
      intros _. apply cellEq_true in E as <-. apply Hq. by left.
    - destruct (cellEq c (exitPosition m)) eqn:E.
      { intros _. apply cellEq_true in E as <-. apply Hq. by left. }
      destruct (visit_directions m c directions visited rest Hd)
        as (Hd' & new & Hq' & Hu & Hn & _).
      apply IH; [done|]. intros c'. rewrite Hq', elem_of_app.
      intros [Hin|Hin]; [apply Hq; by right|].
      destruct (Hn c' Hin) as ((d & Hd1 & ->) & Hb & Hp).
      eapply reaches_step; [apply Hq; by left|by exists d|].
      by apply isPathAt_pathCell.
  Qed.

Lemma searchLoop_complete (s : Cell) fuel :
    ∀ (visited : Grid) (queue : list Cell),
      gridHasDims (width m) (height m) visited ->
      truthyAt visited s = true ->
      (∀ c, c ∈ queue -> truthyAt visited c = true) ->
      settled m visited queue ->
      searchLoop fuel m visited queue = Some false ->
      ¬ reaches m s (exitPosition m).
  Proof.
    induction fuel as [|fuel IH]; intros visited [|c rest] Hd Hs Hq Hset; simpl;
      try (destruct (cellEq c (exitPosition m)); done).
    - intros _ Hreach.
      assert (∀ c, reaches m s c -> truthyAt visited c = true) as Hall.
      { intros c Hc. induction Hc as [|b c Hb IHb (d & Hd1 & ->) Hp]; [done|].
        apply (Hset b); [done|apply not_elem_of_nil|done..]. }
      destruct (Hset (exitPosition m)); [by apply Hall|apply not_elem_of_nil|done].
    - intros _ Hreach.
      assert (∀ c, reaches m s c -> truthyAt visited c = true) as Hall.
      { intros c Hc. induction Hc as [|b c Hb IHb (d & Hd1 & ->) Hp]; [done|].
        apply (Hset b); [done|apply not_elem_of_nil|done..]. }
      destruct (Hset (exitPosition m)); [by apply Hall|apply not_elem_of_nil|done].
    - destruct (cellEq c (exitPosition m)) eqn:E; [done|].
      apply cellEq_false in E.
      destruct (visit_directions m c directions visited rest Hd)
        as (Hd' & new & Hq' & Hu & Hn & Ht & Hc).
      apply IH; [done|..].
      + apply Ht. by left.
      + intros c'. rewrite Hq', elem_of_app. intros [Hin|Hin]; apply Ht.
        * left. apply Hq. by right.
        * by right.
      + intros c' Hv Hnotin. rewrite Hq' in Hnotin.
        apply not_elem_of_app in Hnotin as [Hrest Hnew].
        apply Ht in Hv as [Hv|Hv]; [|done].
        destruct (decide (c' = c)) as [->|Hne].
        * split; [done|]. intros d Hd1 Hp.
          apply pathCell_isPathAt in Hp as [Hb Hp]. by apply Hc.
        * destruct (Hset c' Hv) as [Hex Hnb].
          { intros Hin. apply elem_of_cons in Hin as [?|?]; done. }
          split; [done|]. intros d Hd1 Hp. apply Ht. left. by apply Hnb.
  Qed.

Lemma searchFrom_start (s : Cell) :
    isInBounds m s = true ->
    let visited := setCell (filledGrid (width m) (height m) false) s true in
    gridHasDims (width m) (height m) visited
    ∧ (unmarked visited + 1 = Z.to_nat (width m) * Z.to_nat (height m))%nat
    ∧ truthyAt visited s = true
    ∧ settled m visited [s].
  Proof.
    intros Hs visited.
    pose proof (gridHasDims_filledGrid (width m) (height m) false) as Hd.
    assert (readCell (filledGrid (width m) (height m) false) s = Some false) as Hr.
    { apply readCell_filledGrid. apply (readCell_in_grid _ _ _ _ Hd).
      by apply isInBounds_spec. }
    subst visited.
    split; [by apply gridHasDims_setCell|]. split; [|split].
    - rewrite (unmarked_setCell _ _ Hr). apply unmarked_filledGrid.
    - apply (truthyAt_mark m); [done..|]. by right.
    - intros c Hc Hnotin. apply (truthyAt_mark m) in Hc; [|done..].
      destruct Hc as [Hc| ->].
      + unfold truthyAt in Hc.
        destruct (readCell (filledGrid (width m) (height m) false) c) eqn:E;
          [|done].
        rewrite readCell_filledGrid in E by eauto. by simplify_eq/=.
      + exfalso. apply Hnotin. by left.
  Qed.

Lemma searchFrom_total (s : Cell) :
    isInBounds m s = true -> is_Some (searchFrom m s).
  Proof.
    intros Hs. destruct (searchFrom_start s Hs) as (Hd & Hu & _).
    apply searchLoop_terminates; [done|]. unfold searchFuel. simpl. lia.
  Qed.

Lemma searchFrom_true_reaches (s : Cell) :
    isInBounds m s = true ->
    searchFrom m s = Some true -> reaches m s (exitPosition m).
  Proof.
    intros Hs. destruct (searchFrom_start s Hs) as (Hd & _).
    apply searchLoop_sound; [done|].
    intros c Hc. apply list_elem_of_singleton in Hc as ->. constructor.
  Qed.

Lemma searchFrom_false_unreachable (s : Cell) :
    isInBounds m s = true ->
    searchFrom m s = Some false -> ¬ reaches m s (exitPosition m).
  Proof.
    intros Hs. destruct (searchFrom_start s Hs) as (Hd & _ & Ht & Hset).
    apply searchLoop_complete; [done..| |done].
    intros c Hc. by apply list_elem_of_singleton in Hc as ->.
  Qed.

Lemma reaches_searchFrom (s : Cell) :
    isInBounds m s = true ->
    reaches m s (exitPosition m) -> searchFrom m s = Some true.
  Proof.
    intros Hs Hreach. destruct (searchFrom_total s Hs) as [[|] Hr]; [done|].
    by destruct (searchFrom_false_unreachable s Hs Hr).
  Qed.

End SearchLoop.

(** * The validator *)

Lemma scanOrder_spec w h (c : Cell) :
  In c (scanOrder w h) ↔ (0 <= c.1 < w ∧ 0 <= c.2 < h).
Proof.
  unfold scanOrder. rewrite in_flat_map. split.
  - intros (x & Hx & Hc). apply in_map_iff in Hc as (y & <- & Hy).
    apply list_elem_of_In, elem_of_seqZ in Hx, Hy. simpl. lia.
  - intros [Hx Hy]. exists c.1. split.
    + apply list_elem_of_In, elem_of_seqZ. lia.
    + apply in_map_iff. exists c.2. split; [by destruct c|].
      apply list_elem_of_In, elem_of_seqZ. lia.
Qed.

Lemma findStartCell_Some (m : MazeGenerator) (s : Cell) :
  findStartCell m = Some s ->
  isInBounds m s = true ∧ isPathAt (mazeGrid m) s = true ∧ s ≠ exitPosition m.
Proof.
  unfold findStartCell. intros H. apply find_some in H as [Hin Hp].
  apply scanOrder_spec in Hin. apply andb_true_iff in Hp as [Hp Hne].
  split; [by apply isInBounds_spec|]. split; [done|].
  intros ->. rewrite !Z.eqb_refl in Hne. done.
Qed.

Lemma findStartCell_None (m : MazeGenerator) (c : Cell) :
  findStartCell m = None -> pathCell m c -> c = exitPosition m.
Proof.
  unfold findStartCell. intros H Hc.
  apply pathCell_isPathAt in Hc as [Hb Hp].
  pose proof (find_none _ _ H c) as Hn. simpl in Hn.
  rewrite Hp in Hn. simpl in Hn.
  apply isInBounds_spec in Hb.
  specialize (Hn (proj2 (scanOrder_spec _ _ c) Hb)).
  apply orb_false_iff in Hn as [H1 H2].
  apply negb_false_iff, Z.eqb_eq in H1, H2.
  destruct c, (exitPosition m); simpl in *; congruence.
Qed.

Lemma withGrid_same (m : MazeGenerator) : withGrid m (mazeGrid m) = m.
Proof. by destruct m. Qed.

Lemma reaches_lands_on_path (m : MazeGenerator) (a b : Cell) :
  reaches m a b -> a ≠ b -> pathCell m b.
Proof. intros H Hne. destruct H; done. Qed.

Lemma ensureMazeIsSolvable_keeps_paths (m m' : MazeGenerator) :
  ensureMazeIsSolvable m = Some m' ->
  ∃ g', m' = withGrid m g'
        ∧ ∀ c, readCell (mazeGrid m) c = Some false -> readCell g' c = Some false.
Proof.
  unfold ensureMazeIsSolvable.
  destruct (findStartCell m) as [s|].
  - destruct (searchFrom m s) as [[|]|]; simpl; try done.
    + intros [= <-]. exists (mazeGrid m). by rewrite withGrid_same.
    + apply createPathToExit_keeps_paths.
  - intros [= <-]. exists (mazeGrid m). by rewrite withGrid_same.
Qed.

Lemma ensureMazeIsSolvable_connects (m : MazeGenerator) (s : Cell) :
  wellFormed m ->
  isInBounds m (exitPosition m) = true ->
  findStartCell m = Some s ->
  ∃ g', ensureMazeIsSolvable m = Some (withGrid m g')
        ∧ gridHasDims (width m) (height m) g'
        ∧ readCell g' s = Some false
        ∧ reaches (withGrid m g') s (exitPosition m).
Proof.
  intros Hwf He Hs. unfold ensureMazeIsSolvable. rewrite Hs.
  destruct (findStartCell_Some _ _ Hs) as (Hb & Hp & Hne).
  pose proof (isPathAt_pathCell _ _ Hwf Hb Hp) as [_ Hr].
  destruct (searchFrom_total m s Hb) as [[|] Hf]; rewrite Hf; simpl.
  - exists (mazeGrid m). rewrite withGrid_same. repeat split; try done.
    + apply Hwf.
    + apply Hwf.
    + by apply searchFrom_true_reaches.
  - destruct (createPathToExit_spec m s Hwf Hb He)
      as (g' & Hc & Hd & Hopen & _ & Hstart).
    exists g'. repeat split; try done.
    + apply Hd.
    + apply Hd.
    + by rewrite Hstart.
    + by apply createPathToExit_connects.
Qed.

Lemma ensureMazeIsSolvable_total (m : MazeGenerator) :
  wellFormed m ->
  isInBounds m (exitPosition m) = true ->
  ∃ g', ensureMazeIsSolvable m = Some (withGrid m g')
        ∧ gridHasDims (width m) (height m) g'.
Proof.
  intros Hwf He. destruct (findStartCell m) as [s|] eqn:Hs.
  - destruct (ensureMazeIsSolvable_connects m s Hwf He Hs) as (g' & H1 & H2 & _).
    eauto.
  - exists (mazeGrid m). unfold ensureMazeIsSolvable. rewrite Hs, withGrid_same.
    done.
Qed.

(** What the validator changes is a wall of the corridor, opened. *)
Lemma ensureMazeIsSolvable_changes (m : MazeGenerator) :
  wellFormed m ->
  isInBounds m (exitPosition m) = true ->
  ∃ m2, ensureMazeIsSolvable m = Some m2
        ∧ ∀ c, readCell (mazeGrid m2) c ≠ readCell (mazeGrid m) c ->
               readCell (mazeGrid m) c = Some true
               ∧ readCell (mazeGrid m2) c = Some false
               ∧ ∃ s, findStartCell m = Some s ∧ onCorridor s (exitPosition m) c.
Proof.
  intros Hwf He. unfold ensureMazeIsSolvable.
  destruct (findStartCell m) as [s|] eqn:Hs; [|by exists m].
  destruct (findStartCell_Some _ _ Hs) as (Hb & Hp & Hne).
  destruct (searchFrom_total m s Hb) as [[|] Hf]; rewrite Hf; simpl;
    [by exists m|].
  destruct (createPathToExit_spec m s Hwf Hb He)
    as (g' & Hc & Hd & Hopen & Hframe & Hstart).
  exists (withGrid m g'). split; [done|]. simpl. intros c Hchanged.
  destruct (decide (onCorridor s (exitPosition m) c)) as [Hon|Hoff];
    [|by rewrite Hframe in Hchanged].
  destruct (decide (c = s)) as [->|Hcs]; [by rewrite Hstart in Hchanged|].
  pose proof (Hopen c Hon Hcs) as Hnew. rewrite Hnew in Hchanged.
  split; [|split; [done|eauto]].
  assert (is_Some (readCell g' c)) as Hin by (by rewrite Hnew).
  apply (readCell_in_grid _ _ _ _ Hd) in Hin.
  destruct (proj2 (readCell_in_grid _ _ (mazeGrid m) c Hwf) Hin) as [[|] Hold];
    [done|]. by rewrite Hold in Hchanged.
Qed.

Lemma ensureMazeIsSolvable_unchanged (m : MazeGenerator) :
  wellFormed m ->
  solvableFromEverywhere m ->
  ensureMazeIsSolvable m = Some m.
Proof.
  intros Hwf Hsolv. unfold ensureMazeIsSolvable.
  destruct (findStartCell m) as [s|] eqn:Hs; [|done].
  destruct (findStartCell_Some _ _ Hs) as (Hb & Hp & Hne).
  rewrite (reaches_searchFrom m s Hb); [done|].
  apply Hsolv. by apply isPathAt_pathCell.
Qed.

Lemma gridHasDimsb_true w h (g : Grid) :
  gridHasDimsb w h g = true -> gridHasDims w h g.
Proof.
  unfold gridHasDimsb. rewrite andb_true_iff, Nat.eqb_eq, forallb_forall.
  intros [Hl Hc]. split; [done|]. apply Forall_forall. intros col Hcol.
  apply Nat.eqb_eq, Hc. by apply list_elem_of_In.
Qed.

Lemma solvableFromEverywhereb_true (m : MazeGenerator) :
  wellFormed m ->
  solvableFromEverywhereb m = true -> solvableFromEverywhere m.
Proof.
  intros Hwf H c Hc. unfold solvableFromEverywhereb in H.
  rewrite forallb_forall in H.
  destruct (pathCell_isPathAt _ _ Hc) as [Hb Hp].
  specialize (H c (proj2 (scanOrder_spec _ _ c) (proj1 (isInBounds_spec _ _) Hb))).
  unfold isPathAt in Hp. destruct (isWallAt (mazeGrid m) c); [done|].
  simpl in H. destruct (searchFrom m c) as [[|]|] eqn:E; try done.
  by apply searchFrom_true_reaches.
Qed.

(** * The shift step *)

Lemma considerShift_eligible (m : MazeGenerator) (cells : list Cell) :
  ∀ acc,
    (∀ c, In c cells -> In c (interiorCells m)) ->
    (∀ w, In w acc.1 -> eligibleShift m w) ->
    ∀ w, In w (fold_left (considerShift m) cells acc).1 -> eligibleShift m w.
Proof.
  induction cells as [|c cells IH]; intros acc Hcells Hacc; simpl; [done|].
  apply IH; [intros; apply Hcells; by right|].
  assert (In c (interiorCells m)) as Hc by (apply Hcells; by left).
  unfold considerShift. destruct (nearExit m c) eqn:Hnear; [done|].
  simpl. destruct (Qlt_bool _ _); [|done].
  destruct (isWallAt (mazeGrid m) c) eqn:Hwall.
  - destruct (countAdjacentPaths m (mazeGrid m) c <=? 2) eqn:Hcount; [|done].
    simpl. intros w Hw. apply in_app_or in Hw as [Hw|[<-|[]]]; [by apply Hacc|].
    repeat split; simpl; try done. lia.
  - destruct (3 <=? countAdjacentPaths m (mazeGrid m) c) eqn:Hcount; [|done].
    simpl. intros w Hw. apply in_app_or in Hw as [Hw|[<-|[]]]; [by apply Hacc|].
    repeat split; simpl; try done. lia.
Qed.

Lemma collectShifts_eligible (m : MazeGenerator) (rs : RandomSource) :
  ∀ w, In w (collectShifts m rs).1 -> eligibleShift m w.
Proof. apply considerShift_eligible; [done|]. intros w []. Qed.

Lemma interiorCells_spec (m : MazeGenerator) (c : Cell) :
  In c (interiorCells m) ↔ (1 <= c.1 < width m - 1 ∧ 1 <= c.2 < height m - 1).
Proof.
  unfold interiorCells. rewrite in_flat_map. split.
  - intros (x & Hx & Hc). apply in_map_iff in Hc as (y & <- & Hy).
    apply list_elem_of_In, elem_of_seqZ in Hx, Hy. simpl. lia.
  - intros [Hx Hy]. exists c.1. split.
    + apply list_elem_of_In, elem_of_seqZ. lia.
    + apply in_map_iff. exists c.2. split; [by destruct c|].
      apply list_elem_of_In, elem_of_seqZ. lia.
Qed.

Lemma applyShifts_read (ws : list WallShift) : ∀ (g g' : Grid),
  applyShifts g ws = Some g' ->
  ∀ c, readCell g' c = readCell g c
       ∨ ∃ w, In w ws ∧ shiftCell w = c ∧ readCell g' c = Some (toWall w).
Proof.
  induction ws as [|w ws IH]; intros g g'; simpl; [intros [= <-]; by left|].
  destruct (writeCell g (shiftCell w) (toWall w)) as [g1|] eqn:Hw; [|done].
  simpl. intros Hrest c. destruct (IH _ _ Hrest c) as [Heq|(w' & Hin & Hc & Hr)].
  - rewrite Heq, (readCell_writeCell _ _ _ _ _ Hw).
    case_decide as E; [|by left]. right. exists w. split; [by left|done].
  - right. exists w'. eauto.
Qed.

Lemma applyShifts_written (ws : list WallShift) : ∀ (g g' : Grid),
  applyShifts g ws = Some g' ->
  ∀ w, In w ws ->
       ∃ w', In w' ws ∧ shiftCell w' = shiftCell w
             ∧ readCell g' (shiftCell w) = Some (toWall w').
Proof.
  induction ws as [|w0 ws IH]; intros g g'; simpl; [by intros _ w []|].
  destruct (writeCell g (shiftCell w0) (toWall w0)) as [g1|] eqn:Hw; [|done].
  simpl. intros Hrest w [<-|Hin].
  - destruct (applyShifts_read _ _ _ Hrest (shiftCell w0))
      as [Heq|(w' & Hin' & Hc & Hr)].
    + exists w0. split; [by left|]. split; [done|].
      rewrite Heq, (readCell_writeCell _ _ _ _ _ Hw). by rewrite decide_True.
    + exists w'. split; [by right|done].
  - destruct (IH _ _ Hrest w Hin) as (w' & Hin' & Hc & Hr).
    exists w'. split; [by right|done].
Qed.

Lemma eligibleShift_toWall (m : MazeGenerator) (w : WallShift) :
  eligibleShift m w -> toWall w = negb (isWallAt (mazeGrid m) (shiftCell w)).
Proof.
  intros (_ & _ & H). destruct (toWall w); destruct H as [-> _]; done.
Qed.

Lemma applyShifts_total (ws : list WallShift) : ∀ (g : Grid),
  (∀ w, In w ws -> is_Some (readCell g (shiftCell w))) ->
  is_Some (applyShifts g ws).
Proof.
  induction ws as [|w ws IH]; intros g Hin; simpl; [eauto|].
  destruct (writeCell_is_Some g (shiftCell w) (toWall w)) as [g1 Hw].
  { apply Hin. by left. }
  rewrite Hw. simpl. apply IH. intros w' Hw'.
  rewrite (readCell_writeCell _ _ _ _ _ Hw). case_decide; [done|].
  apply Hin. by right.
Qed.

Lemma applyShifts_dims w h (ws : list WallShift) : ∀ (g g' : Grid),
  applyShifts g ws = Some g' -> gridHasDims w h g -> gridHasDims w h g'.
Proof.
  induction ws as [|x ws IH]; intros g g'; simpl; [by intros [= <-]|].
  destruct (writeCell g (shiftCell x) (toWall x)) as [g1|] eqn:Hw; [|done].
  simpl. intros Hrest Hd. eapply IH; [done|]. by eapply gridHasDims_writeCell.
Qed.

Lemma shiftBatch_inv (m m' : MazeGenerator) (rs rs' : RandomSource) :
  shiftBatch m rs = Some (m', rs') ->
  ∃ g', m' = withGrid m g'
        ∧ applyShifts (mazeGrid m) (collectShifts m rs).1 = Some g'.
Proof.
  unfold shiftBatch. destruct (collectShifts m rs) as [ws rs1]. simpl.
  destruct (applyShifts (mazeGrid m) ws) as [g|]; [|done].
  simpl. intros [= <- <-]. eauto.
Qed.

Lemma shiftBatch_total (m : MazeGenerator) (rs : RandomSource) :
  wellFormed m ->
  ∃ g' rs', shiftBatch m rs = Some (withGrid m g', rs')
            ∧ gridHasDims (width m) (height m) g'.
Proof.
  intros Hwf. unfold shiftBatch.
  pose proof (collectShifts_eligible m rs) as Hel.
  destruct (collectShifts m rs) as [ws rs1]. simpl in *.
  destruct (applyShifts_total ws (mazeGrid m)) as [g Hg].
  { intros w Hw. destruct (Hel w Hw) as (Hin & _).
    apply interiorCells_spec in Hin.
    apply (readCell_in_grid _ _ _ _ Hwf). lia. }
  rewrite Hg. simpl. exists g, rs1. split; [done|].
  by eapply applyShifts_dims.
Qed.

Lemma truthyAt_true (g : Grid) (c : Cell) :
  truthyAt g c = true ↔ readCell g c = Some true.
Proof.
  unfold truthyAt. destruct (readCell g c) as [[|]|]; simpl; split; congruence.
Qed.

Lemma shiftBatch_changes (m m' : MazeGenerator) (rs rs' : RandomSource) :
  shiftBatch m rs = Some (m', rs') ->
  ∀ c, readCell (mazeGrid m') c ≠ readCell (mazeGrid m) c ->
       ∃ w, eligibleShift m w ∧ shiftCell w = c
            ∧ readCell (mazeGrid m') c = Some (toWall w).
Proof.
  intros H c Hc. apply shiftBatch_inv in H as (g' & -> & Happly). simpl in *.
  destruct (applyShifts_read _ _ _ Happly c) as [Heq|(w & Hin & Hw & Hr)];
    [done|].
  exists w. split; [by apply collectShifts_eligible in Hin|done].
Qed.

(** * Loops and draws *)

Lemma repeatLoop_preserves {S : Type} (R : S -> S -> Prop) (body : S -> option S) :
  (∀ s, R s s) ->
  (∀ s1 s2 s3, R s1 s2 -> R s2 s3 -> R s1 s3) ->
  (∀ s s', body s = Some s' -> R s s') ->
  ∀ n s s', repeatLoop n body s = Some s' -> R s s'.
Proof.
  intros Hrefl Htrans Hbody. induction n as [|n IH]; intros s s'; simpl.
  - intros [= <-]. apply Hrefl.
  - destruct (body s) as [s1|] eqn:E; [|done]. simpl. intros Hrest.
    eapply Htrans; [by apply Hbody|by apply IH].
Qed.

Lemma Qfloor_unique (x : Q) (j : Z) :
  Qfloor x = j ↔ (inject_Z j <= x)%Q ∧ (x < inject_Z (j + 1))%Q.
Proof.
  split.
  - intros <-. split; [apply Qfloor_le|apply Qlt_floor].
  - intros [Hlo Hhi].
    apply Qfloor_resp_le in Hlo. rewrite Qfloor_Z in Hlo.
    pose proof (Qfloor_le x) as Hfl.
    assert (inject_Z (Qfloor x) < inject_Z (j + 1))%Q as Hlt
      by (eapply Qle_lt_trans; eauto).
    rewrite <- Zlt_Qlt in Hlt. lia.
Qed.

Lemma randomInt_range (u : Q) (k : Z) :
  unitDraw u -> 0 < k -> 0 <= randomInt u k < k.
Proof.
  intros [Hlo Hhi] Hk. unfold randomInt.
  assert (0 <= u * inject_Z k)%Q as H0.
  { apply Qmult_le_0_compat; [done|]. replace 0%Q with (inject_Z 0) by done.
    rewrite <- Zle_Qle. lia. }
  assert (u * inject_Z k < inject_Z k)%Q as H1.
  { rewrite <- (Qmult_1_l (inject_Z k)) at 2.
    apply Qmult_lt_compat_r; [|done]. replace 0%Q with (inject_Z 0) by done.
    rewrite <- Zlt_Qlt. lia. }
  split.
  - apply Qfloor_resp_le in H0. exact H0.
  - pose proof (Qfloor_le (u * inject_Z k)) as Hfl.
    assert (inject_Z (Qfloor (u * inject_Z k)) < inject_Z k)%Q as Hlt
      by (eapply Qle_lt_trans; eauto).
    by rewrite <- Zlt_Qlt in Hlt.
Qed.

(** * The noise pass stays away from the exit *)

Lemma variationStep_sameNearExit (m : MazeGenerator) (s s' : PassState) :
  variationStep m s = Some s' -> sameNearExit m s s'.
Proof.
  unfold variationStep, sameNearExit. simpl.
  set (c0 := (randomInt (s.2 0%nat) (width m - 2) + 1,
              randomInt (s.2 1%nat) (height m - 2) + 1)).
  destruct (nearExit m c0) eqn:Hnear; [by intros [= <-]|].
  assert (∀ g v c, writeCell s.1 c0 v = Some g -> nearExit m c = true ->
                   readCell g c = readCell s.1 c) as Hwrite.
  { intros g v c Hw Hc. rewrite (readCell_writeCell _ _ _ _ _ Hw).
    rewrite decide_False; [done|]. intros ->. congruence. }
  destruct (isWallAt s.1 c0 && _).
  { destruct (writeCell s.1 c0 false) as [g|] eqn:Hw; [|done].
    simpl. intros [= <-] c Hc. simpl. by eapply Hwrite. }
  destruct (isPathAt s.1 c0 && _); [|by intros [= <-]].
  destruct (createDeadEnd m s.1 c0); [|by intros [= <-]].
  destruct (Qlt_bool _ _); [|by intros [= <-]].
  destruct (writeCell s.1 c0 true) as [g|] eqn:Hw; [|done].
  simpl. intros [= <-] c Hc. simpl. by eapply Hwrite.
Qed.

Lemma addRandomVariations_sameNearExit (m : MazeGenerator) (s s' : PassState) :
  addRandomVariations m s = Some s' -> sameNearExit m s s'.
Proof.
  apply (repeatLoop_preserves (sameNearExit m)).
  - by intros ? ?.
  - intros s1 s2 s3 H12 H23 c Hc. rewrite H23, H12; done.
  - apply variationStep_sameNearExit.
Qed.

(** * The passes keep the grid a [width] by [height] array *)

Lemma forEach_preserves {A S : Type} (R : S -> S -> Prop)
    (body : A -> S -> option S) :
  (∀ s, R s s) ->
  (∀ s1 s2 s3, R s1 s2 -> R s2 s3 -> R s1 s3) ->
  (∀ x s s', body x s = Some s' -> R s s') ->
  ∀ xs s s', forEach xs body s = Some s' -> R s s'.
Proof.
  intros Hrefl Htrans Hbody. induction xs as [|x xs IH]; intros s s'; simpl.
  - intros [= <-]. apply Hrefl.
  - destruct (body x s) as [s1|] eqn:E; [|done]. simpl. intros Hrest.
    eapply Htrans; [by eapply Hbody|by apply IH].
Qed.

Lemma keepsDims_refl w h g : keepsDims w h g g.
Proof. by intros ?. Qed.

Lemma keepsDims_trans w h g1 g2 g3 :
  keepsDims w h g1 g2 -> keepsDims w h g2 g3 -> keepsDims w h g1 g3.
Proof. intros H12 H23 H. by apply H23, H12. Qed.

Lemma keepsDims_writeCell w h g g' c v :
  writeCell g c v = Some g' -> keepsDims w h g g'.
Proof. intros H Hd. by eapply gridHasDims_writeCell. Qed.

Lemma keepsDims_writeIfInBounds w h m g g' c v :
  writeIfInBounds m c v g = Some g' -> keepsDims w h g g'.
Proof.
  unfold writeIfInBounds. destruct (isInBounds m c).
  - apply keepsDims_writeCell.
  - intros [= <-]. apply keepsDims_refl.
Qed.

Lemma keepsDims_writeIf w h cond g g' c v :
  writeIf cond c v g = Some g' -> keepsDims w h g g'.
Proof.
  unfold writeIf. destruct cond.
  - apply keepsDims_writeCell.
  - intros [= <-]. apply keepsDims_refl.
Qed.

Ltac keeps_dims_loop w h :=
  first [apply (forEach_preserves (keepsDims w h))
        |apply (forEach_preserves (passKeepsDims w h))
        |apply (repeatLoop_preserves (passKeepsDims w h))];
  [first [apply keepsDims_refl|intros ?; apply keepsDims_refl]
  |first [apply keepsDims_trans|intros ? ? ?; apply keepsDims_trans]
  |].

Lemma clearChamber_dims w h m center cw ch g g' :
  clearChamber m center cw ch g = Some g' -> keepsDims w h g g'.
Proof.
  keeps_dims_loop w h. intros x. keeps_dims_loop w h.
  intros y s s'. apply keepsDims_writeIfInBounds.
Qed.

Lemma chamberPillar_dims w h m center s s' :
  chamberPillar m center s = Some s' -> passKeepsDims w h s s'.
Proof.
  unfold chamberPillar, passKeepsDims. simpl.
  destruct (writeIfInBounds _ _ _ _) as [g|] eqn:E; [|done].
  simpl. intros [= <-]. simpl. by eapply keepsDims_writeIfInBounds.
Qed.

Lemma chamberStep_dims w h m s s' :
  chamberStep m s = Some s' -> passKeepsDims w h s s'.
Proof.
  unfold chamberStep, passKeepsDims. simpl.
  destruct (distanceSquared _ _ <? 25); [intros [= <-]; apply keepsDims_refl|].
  destruct (clearChamber _ _ _ _ _) as [g|] eqn:E; [|done]. simpl.
  apply clearChamber_dims with (w := w) (h := h) in E.
  destruct (_ && _).
  - intros Hloop. eapply keepsDims_trans; [exact E|].
    revert Hloop. keeps_dims_loop w h. intros ? ?. apply chamberPillar_dims.
  - by intros [= <-].
Qed.

Lemma createChambers_dims w h m s s' :
  createChambers m s = Some s' -> passKeepsDims w h s s'.
Proof.
  unfold createChambers. simpl. intros Hloop.
  change (passKeepsDims w h (s.1, fun n => s.2 (S n)) s').
  revert Hloop. keeps_dims_loop w h. intros ? ?. apply chamberStep_dims.
Qed.

Lemma pillarStep_dims w h m s s' :
  pillarStep m s = Some s' -> passKeepsDims w h s s'.
Proof.
  unfold pillarStep, passKeepsDims. simpl.
  destruct (_ && _); [|intros [= <-]; apply keepsDims_refl].
  destruct (writeCell _ _ _) as [g|] eqn:E; [|done].
  simpl. intros [= <-]. simpl. by eapply keepsDims_writeCell.
Qed.

Lemma archStep_dims w h m s s' :
  archStep m s = Some s' -> passKeepsDims w h s s'.
Proof.
  unfold archStep, passKeepsDims. simpl.
  destruct (_ && _); [|intros [= <-]; apply keepsDims_refl].
  destruct (writeCell s.1 _ _) as [g1|] eqn:E1; [|done]. simpl.
  destruct (writeCell g1 _ _) as [g2|] eqn:E2; [|done]. simpl.
  destruct (writeCell g2 _ _) as [g3|] eqn:E3; [|done]. simpl.
  intros [= <-]. simpl.
  eapply keepsDims_trans; [by eapply keepsDims_writeCell|].
  eapply keepsDims_trans; by eapply keepsDims_writeCell.
Qed.

Lemma addArchitecturalFeatures_dims w h m s s' :
  addArchitecturalFeatures m s = Some s' -> passKeepsDims w h s s'.
Proof.
  unfold addArchitecturalFeatures.
  destruct (repeatLoop _ (pillarStep m) s) as [s1|] eqn:E1; [|done]. simpl.
  intros E2. eapply keepsDims_trans.
  - revert E1. keeps_dims_loop w h. intros ? ?. apply pillarStep_dims.
  - revert E2. keeps_dims_loop w h. intros ? ?. apply archStep_dims.
Qed.

Lemma widenInto_dims w h m c s s' :
  widenInto m c s = Some s' -> passKeepsDims w h s s'.
Proof.
  unfold widenInto, passKeepsDims. simpl.
  destruct (isInBounds m c); [|intros [= <-]; apply keepsDims_refl].
  destruct (Qlt_bool _ _); [|intros [= <-]; apply keepsDims_refl].
  destruct (writeCell _ _ _) as [g|] eqn:E; [|done].
  simpl. intros [= <-]. simpl. by eapply keepsDims_writeCell.
Qed.

Lemma corridorCell_dims w h m startCell direction j s s' :
  corridorCell m startCell direction j s = Some s' -> passKeepsDims w h s s'.
Proof.
  unfold corridorCell, passKeepsDims. destruct direction as [dir|]; [|done].
  simpl.
  destruct (isInBounds m _); [|intros [= <-]; apply keepsDims_refl].
  destruct (writeCell _ _ _) as [g|] eqn:E; [|done]. simpl.
  apply keepsDims_writeCell with (w := w) (h := h) in E.
  destruct (dir.1 =? 0).
  - destruct (widenInto m _ (g, s.2)) as [s1|] eqn:E1; [|done]. simpl.
    intros E2. apply widenInto_dims with (w := w) (h := h) in E1, E2.
    eapply keepsDims_trans; [exact E|]. eapply keepsDims_trans; [exact E1|exact E2].
  - destruct (widenInto m _ (g, s.2)) as [s1|] eqn:E1; [|done]. simpl.
    intros E2. apply widenInto_dims with (w := w) (h := h) in E1, E2.
    eapply keepsDims_trans; [exact E|]. eapply keepsDims_trans; [exact E1|exact E2].
Qed.

Lemma corridorStep_dims w h m s s' :
  corridorStep m s = Some s' -> passKeepsDims w h s s'.
Proof.
  unfold corridorStep, passKeepsDims. simpl.
  destruct (isPathAt _ _); [|intros [= <-]; apply keepsDims_refl].
  intros Hloop.
  change (passKeepsDims w h (s.1, fun n => s.2 (S (S (S (S n))))) s').
  revert Hloop. keeps_dims_loop w h. intros ? ? ?. apply corridorCell_dims.
Qed.

Lemma createWiderCorridors_dims w h m s s' :
  createWiderCorridors m s = Some s' -> passKeepsDims w h s s'.
Proof.
  unfold createWiderCorridors. keeps_dims_loop w h.
  intros ? ?. apply corridorStep_dims.
Qed.

Lemma variationStep_dims w h m s s' :
  variationStep m s = Some s' -> passKeepsDims w h s s'.
Proof.
  unfold variationStep, passKeepsDims. simpl.
  destruct (nearExit m _); [intros [= <-]; apply keepsDims_refl|].
  destruct (isWallAt s.1 _ && _).
  { destruct (writeCell _ _ _) as [g|] eqn:E; [|done].
    simpl. intros [= <-]. simpl. by eapply keepsDims_writeCell. }
  destruct (isPathAt s.1 _ && _); [|intros [= <-]; apply keepsDims_refl].
  destruct (createDeadEnd _ _ _); [|intros [= <-]; apply keepsDims_refl].
  destruct (Qlt_bool _ _); [|intros [= <-]; apply keepsDims_refl].
  destruct (writeCell _ _ _) as [g|] eqn:E; [|done].
  simpl. intros [= <-]. simpl. by eapply keepsDims_writeCell.
Qed.

Lemma addRandomVariations_dims w h m s s' :
  addRandomVariations m s = Some s' -> passKeepsDims w h s s'.
Proof.
  unfold addRandomVariations. keeps_dims_loop w h.
  intros ? ?. apply variationStep_dims.
Qed.

Lemma applyWaveFunctionCollapse_dims w h m s s' :
  applyWaveFunctionCollapse m s = Some s' -> passKeepsDims w h s s'.
Proof.
  unfold applyWaveFunctionCollapse.
  destruct (createChambers m s) as [s1|] eqn:E1; [|done]. simpl.
  destruct (addArchitecturalFeatures m s1) as [s2|] eqn:E2; [|done]. simpl.
  destruct (createWiderCorridors m s2) as [s3|] eqn:E3; [|done]. simpl.
  intros E4.
  apply createChambers_dims with (w := w) (h := h) in E1.
  apply addArchitecturalFeatures_dims with (w := w) (h := h) in E2.
  apply createWiderCorridors_dims with (w := w) (h := h) in E3.
  apply addRandomVariations_dims with (w := w) (h := h) in E4.
  intros H. by apply E4, E3, E2, E1.
Qed.

(** * What reaches the validator *)

Lemma junctionArm_dims w h m cond cellOf g g' :
  junctionArm m cond cellOf g = Some g' -> keepsDims w h g g'.
Proof.
  unfold junctionArm. destruct cond; [|intros [= <-]; apply keepsDims_refl].
  keeps_dims_loop w h. intros i g1 g2. apply keepsDims_writeIfInBounds.
Qed.

Lemma junction_dims w h m c s s' :
  junction m c s = Some s' -> passKeepsDims w h s s'.
Proof.
  unfold junction, passKeepsDims. simpl.
  destruct (writeIfInBounds m c false s.1) as [g0|] eqn:E0; [|done]. simpl.
  destruct (junctionArm m _ _ g0) as [g1|] eqn:E1; [|done]. simpl.
  destruct (junctionArm m _ _ g1) as [g2|] eqn:E2; [|done]. simpl.
  destruct (junctionArm m _ _ g2) as [g3|] eqn:E3; [|done]. simpl.
  destruct (junctionArm m _ _ g3) as [g4|] eqn:E4; [|done]. simpl.
  intros [= <-]. simpl.
  apply keepsDims_writeIfInBounds with (w := w) (h := h) in E0.
  apply junctionArm_dims with (w := w) (h := h) in E1, E2, E3, E4.
  intros H. by apply E4, E3, E2, E1, E0.
Qed.

Lemma diagonalConnection_dims w h m i g g' :
  diagonalConnection m i g = Some g' -> keepsDims w h g g'.
Proof.
  unfold diagonalConnection.
  destruct (_ && _); [|intros [= <-]; apply keepsDims_refl].
  keeps_dims_loop w h. intros j g1 g2. apply keepsDims_writeIf.
Qed.

Lemma zigzag_dims w h m i g g' :
  zigzag m i g = Some g' -> keepsDims w h g g'.
Proof.
  unfold zigzag.
  destruct (_ && _); [|intros [= <-]; apply keepsDims_refl].
  keeps_dims_loop w h. intros j g0 g3.
  destruct (writeIf _ _ false g0) as [g1|] eqn:E1; [|done]. simpl.
  destruct (writeIf _ _ false g1) as [g2|] eqn:E2; [|done]. simpl.
  intros E3. apply keepsDims_writeIf with (w := w) (h := h) in E1, E2, E3.
  intros H. by apply E3, E2, E1.
Qed.

Lemma generateGeometricPattern_dims (m : MazeGenerator) (rs rs' : RandomSource) g :
  generateGeometricPattern m rs = Some (g, rs') ->
  gridHasDims (width m) (height m) g.
Proof.
  unfold generateGeometricPattern.
  destruct (forEach _ _ (filledGrid _ _ _)) as [g1|] eqn:E1; [|done]. simpl.
  destruct (forEach _ _ g1) as [g2|] eqn:E2; [|done]. simpl.
  destruct (forEach _ (diagonalConnection m) g2) as [g3|] eqn:E3; [|done]. simpl.
  destruct (forEach _ (zigzag m) g3) as [g4|] eqn:E4; [|done]. simpl.
  intros E5.
  assert (keepsDims (width m) (height m) (filledGrid (width m) (height m) true) g1)
    as H1.
  { revert E1. keeps_dims_loop (width m) (height m). intros y.
    keeps_dims_loop (width m) (height m). intros x ? ?. apply keepsDims_writeCell. }
  assert (keepsDims (width m) (height m) g1 g2) as H2.
  { revert E2. keeps_dims_loop (width m) (height m). intros x.
    keeps_dims_loop (width m) (height m). intros y ? ?. apply keepsDims_writeCell. }
  assert (keepsDims (width m) (height m) g2 g3) as H3.
  { revert E3. keeps_dims_loop (width m) (height m). intros i ? ?.
    apply diagonalConnection_dims. }
  assert (keepsDims (width m) (height m) g3 g4) as H4.
  { revert E4. keeps_dims_loop (width m) (height m). intros i ? ?.
    apply zigzag_dims. }
  assert (passKeepsDims (width m) (height m) (g4, rs) (g, rs')) as H5.
  { revert E5. keeps_dims_loop (width m) (height m). intros y.
    keeps_dims_loop (width m) (height m). intros x ? ?. apply junction_dims. }
  apply H5, H4, H3, H2, H1, gridHasDims_filledGrid.
Qed.

Lemma mirrorCell_dims w h m c g g' :
  mirrorCell m c g = Some g' -> keepsDims w h g g'.
Proof.
  unfold mirrorCell. destruct (quadrantPattern _ _); [|intros [= <-]; apply keepsDims_refl].
  destruct (writeCell g c false) as [g0|] eqn:E0; [|done]. simpl.
  destruct (writeIfInBounds m _ false g0) as [g1|] eqn:E1; [|done]. simpl.
  destruct (writeIfInBounds m _ false g1) as [g2|] eqn:E2; [|done]. simpl.
  intros E3. apply keepsDims_writeCell with (w := w) (h := h) in E0.
  apply keepsDims_writeIfInBounds with (w := w) (h := h) in E1, E2, E3.
  intros H. by apply E3, E2, E1, E0.
Qed.

Lemma connectingPath_dims w h m s s' :
  connectingPath m s = Some s' -> passKeepsDims w h s s'.
Proof.
  unfold connectingPath, passKeepsDims. simpl.
  destruct (Qlt_bool _ _).
  - destruct (forEach _ _ s.1) as [g|] eqn:E; [|done]. simpl. intros [= <-]. simpl.
    revert E. keeps_dims_loop w h. intros j ? ?. apply keepsDims_writeIfInBounds.
  - destruct (forEach _ _ s.1) as [g|] eqn:E; [|done]. simpl. intros [= <-]. simpl.
    revert E. keeps_dims_loop w h. intros j ? ?. apply keepsDims_writeIfInBounds.
Qed.

Lemma mirroredQuadrants_dims (m : MazeGenerator) g :
  mirroredQuadrants m = Some g -> gridHasDims (width m) (height m) g.
Proof.
  unfold mirroredQuadrants. intros E.
  assert (keepsDims (width m) (height m) (filledGrid (width m) (height m) true) g)
    as H.
  { revert E. keeps_dims_loop (width m) (height m). intros x.
    keeps_dims_loop (width m) (height m). intros y ? ?. apply mirrorCell_dims. }
  apply H, gridHasDims_filledGrid.
Qed.

Lemma generateSymmetricPattern_dims (m : MazeGenerator) (rs rs' : RandomSource) g :
  generateSymmetricPattern m rs = Some (g, rs') ->
  gridHasDims (width m) (height m) g.
Proof.
  unfold generateSymmetricPattern.
  destruct (mirroredQuadrants m) as [g1|] eqn:E1; [|done]. cbn -[repeatLoop].
  intros E2.
  apply mirroredQuadrants_dims in E1.
  assert (passKeepsDims (width m) (height m) (g1, rs) (g, rs')) as H.
  { revert E2. keeps_dims_loop (width m) (height m). intros ? ?.
    apply connectingPath_dims. }
  by apply H.
Qed.

Lemma patternBuilders_allocate other :
  buildersAllocate other -> buildersAllocate (patternBuilders other).
Proof.
  intros Hother [] m rs g rs' H; simpl in H;
    first [by apply (Hother _ _ _ _ _ H)
          |by apply (generateGeometricPattern_dims _ _ _ _ H)
          |by apply (generateSymmetricPattern_dims _ _ _ _ H)].
Qed.

Lemma openField_allocates : buildersAllocate openField.
Proof. intros st m rs g rs' [= <- <-]. apply gridHasDims_filledGrid. Qed.


Lemma createExit_inv (m m' : MazeGenerator) (rs rs' : RandomSource) :
  wellFormed m ->
  createExit m rs = Some (m', rs') ->
  wellFormed m' ∧ isInBounds m' (exitPosition m') = true
  ∧ width m' = width m ∧ height m' = height m.
Proof.
  intros Hwf. unfold createExit. destruct (chooseExit m rs) as [e rs1].
  destruct (writeCell (mazeGrid m) e false) as [g1|] eqn:E1; [|done]. simpl.
  destruct (writeCell g1 _ false) as [g2|] eqn:E2; [|done]. simpl.
  intros [= <- <-]. simpl. split; [|split; [|done]].
  - unfold wellFormed. simpl.
    eapply gridHasDims_writeCell; [exact E2|].
    eapply gridHasDims_writeCell; [exact E1|apply Hwf].
  - unfold writeCell in E1. destruct (readCell (mazeGrid m) e) eqn:Hr; [|done].
    apply isInBounds_spec. simpl. apply (readCell_in_grid _ _ _ e Hwf). eauto.
Qed.

Lemma generateMaze_inv run (m m' : MazeGenerator) (rs rs' : RandomSource) :
  buildersAllocate run ->
  generateMaze run m rs = Some (m', rs') ->
  ∃ m3, wellFormed m3 ∧ isInBounds m3 (exitPosition m3) = true
        ∧ ensureMazeIsSolvable m3 = Some m'.
Proof.
  intros Hrun. unfold generateMaze.
  destruct (run _ _ rs) as [[g1 rs1]|] eqn:E1; [|done]. simpl.
  apply Hrun in E1. simpl in E1.
  destruct (createExit _ rs1) as [[m2 rs2]|] eqn:E2; [|done]. simpl.
  apply createExit_inv in E2 as (Hwf2 & Hb2 & Hw2 & Hh2); [|exact E1].
  destruct (applyWaveFunctionCollapse m2 _) as [[g3 rs3]|] eqn:E3; [|done].
  simpl. apply applyWaveFunctionCollapse_dims
    with (w := width m2) (h := height m2) in E3.
  destruct (ensureMazeIsSolvable _) as [m4|] eqn:E4; [|done]. simpl.
  intros [= <- <-]. exists (withGrid m2 g3). split; [|split; [done|done]].
  apply E3, Hwf2.
Qed.

Lemma shiftMazeWalls_inv (m m' : MazeGenerator) (rs rs' : RandomSource) :
  shiftMazeWalls m rs = Some (m', rs') ->
  ∃ m1, shiftBatch m rs = Some (m1, rs') ∧ ensureMazeIsSolvable m1 = Some m'.
Proof.
  unfold shiftMazeWalls.
  destruct (shiftBatch m rs) as [[m1 rs1]|] eqn:E1; [|done]. simpl.
  destruct (ensureMazeIsSolvable m1) as [m2|] eqn:E2; [|done]. simpl.
  intros [= <- <-]. eauto.
Qed.

Lemma shiftBatch_wellFormed (m m1 : MazeGenerator) (rs rs' : RandomSource) :
  wellFormed m ->
  shiftBatch m rs = Some (m1, rs') ->
  wellFormed m1 ∧ exitPosition m1 = exitPosition m
  ∧ width m1 = width m ∧ height m1 = height m.
Proof.
  intros Hwf H. apply shiftBatch_inv in H as (g' & -> & Happly).
  split; [|done]. unfold wellFormed. simpl.
  by eapply applyShifts_dims.
Qed.

Lemma shiftMazeWalls_returns (m : MazeGenerator) (rs : RandomSource) :
  wellFormed m ->
  isInBounds m (exitPosition m) = true ->
  ∃ m' rs', shiftMazeWalls m rs = Some (m', rs') ∧ wellFormed m'
            ∧ exitPosition m' = exitPosition m.
Proof.
  intros Hwf He. destruct (shiftBatch_total m rs Hwf) as (g1 & rs' & Hb & Hd).
  destruct (ensureMazeIsSolvable_total (withGrid m g1) Hd He) as (g2 & Hg & Hd2).
  exists (withGrid (withGrid m g1) g2), rs'. unfold shiftMazeWalls.
  rewrite Hb. simpl. rewrite Hg. done.
Qed.

(** A firing changes the grid only. *)
Lemma shiftMazeWalls_fields (m m' : MazeGenerator) (rs rs' : RandomSource) :
  shiftMazeWalls m rs = Some (m', rs') -> ∃ g, m' = withGrid m g.
Proof.
  unfold shiftMazeWalls, shiftBatch.
  destruct (collectShifts m rs) as [ws rs1].
  destruct (applyShifts (mazeGrid m) ws) as [g1|]; [|done]. simpl.
  destruct (ensureMazeIsSolvable (withGrid m g1)) as [m2|] eqn:He; [|done].
  simpl. intros [= <- <-].
  apply ensureMazeIsSolvable_keeps_paths in He as (g2 & -> & _). by exists g2.
Qed.

Lemma updateMaze_returns (m : MazeGenerator) (deltaTime : float) (rs : RandomSource) :
  wellFormed m ->
  isInBounds m (exitPosition m) = true ->
  ∃ m' rs' b, updateMaze m deltaTime rs = Some (m', rs', b) ∧ wellFormed m'
              ∧ exitPosition m' = exitPosition m.
Proof.
  intros Hwf He. unfold updateMaze.
  destruct (PrimFloat.leb _ 0); [|by eexists _, _, _].
  destruct (shiftMazeWalls_returns
              (withNextShiftTime m (nextShiftTime m - deltaTime / 1000)%float) rs Hwf He)
    as (m1 & rs' & -> & Hwf1 & Hex).
  simpl. by eexists _, _, _.
Qed.

Lemma validation_connects (m3 m' : MazeGenerator) :
  wellFormed m3 ->
  isInBounds m3 (exitPosition m3) = true ->
  ensureMazeIsSolvable m3 = Some m' ->
  ∀ s, findStartCell m3 = Some s ->
       pathCell m' s ∧ reaches m' s (exitPosition m').
Proof.
  intros Hwf Hb He s Hs.
  destruct (ensureMazeIsSolvable_connects m3 s Hwf Hb Hs)
    as (g' & He' & Hd & Hr & Hreach).
  rewrite He in He'. injection He' as ->.
  split; [|done]. apply pathCell_withGrid. split; [|done].
  by apply findStartCell_Some in Hs as (? & _).
Qed.

(** The check of the validator holds of what it returns: the first path
    cell other than the exit reaches the exit. *)
Lemma validation_result_probe (m3 m' : MazeGenerator) :
  wellFormed m3 ->
  isInBounds m3 (exitPosition m3) = true ->
  ensureMazeIsSolvable m3 = Some m' ->
  ∀ s, findStartCell m' = Some s ->
       pathCell m' s ∧ reaches m' s (exitPosition m').
Proof.
  intros Hwf Hb He s' Hs'.
  destruct (findStartCell m3) as [s|] eqn:Hs;
    [|unfold ensureMazeIsSolvable in He; rewrite Hs in He; congruence].
  destruct (validation_connects _ _ Hwf Hb He s Hs) as [Hps Hrs].
  unfold ensureMazeIsSolvable in He. rewrite Hs in He.
  destruct (findStartCell_Some _ _ Hs) as (Hsb & Hsp & Hsne).
  destruct (searchFrom_total m3 s Hsb) as [[|] Hf]; rewrite Hf in He; simpl in He.
  { injection He as <-. rewrite Hs in Hs'. by injection Hs' as <-. }
  destruct (createPathToExit_spec m3 s Hwf Hsb Hb)
    as (g' & Hc & Hd & Hopen & Hrest & Hstart).
  rewrite He in Hc. injection Hc as ->.
  pose proof (isPathAt_pathCell _ _ Hwf Hsb Hsp) as [_ Hsr].
  assert (∀ c, onCorridor s (exitPosition m3) c -> readCell g' c = Some false)
    as Hopen'.
  { intros c Hc. destruct (decide (c = s)) as [->|Hne]; [|by apply Hopen].
    by rewrite Hstart. }
  assert (wellFormed (withGrid m3 g')) as Hwf' by exact Hd.
  destruct (findStartCell_Some _ _ Hs') as (Hb' & Hp' & Hne').
  split; [by apply isPathAt_pathCell|].
  unfold findStartCell in Hs, Hs'. simpl in Hs'.
  assert (∀ c, isPathAt (mazeGrid m3) c = true -> isPathAt g' c = true) as Hmono.
  { intros c Hp. destruct (decide (onCorridor s (exitPosition m3) c)) as [Hon|Hoff].
    - unfold isPathAt, isWallAt, truthyAt. by rewrite (Hopen' c Hon).
    - unfold isPathAt, isWallAt, truthyAt in *. by rewrite (Hrest c Hoff). }
  destruct (find_refines _ _ _ _ _
              (fun c H => proj2 (andb_true_iff _ _)
                            (conj (Hmono c (proj1 (proj1 (andb_true_iff _ _) H)))
                                  (proj2 (proj1 (andb_true_iff _ _) H))))
              Hs Hs') as [->|Hnew]; [done|].
  simpl in Hne'. apply (corridor_reaches m3 s s' g' Hsb Hb Hopen').
  destruct (decide (onCorridor s (exitPosition m3) s')) as [Hon|Hoff]; [done|].
  exfalso. apply andb_false_iff in Hnew as [Hnp|Hnx].
  - simpl in Hp'. unfold isPathAt, isWallAt, truthyAt in *.
    rewrite (Hrest s' Hoff) in Hp'. congruence.
  - apply orb_false_iff in Hnx as [H1 H2].
    apply negb_false_iff, Z.eqb_eq in H1, H2. apply Hne'.
    destruct s', (exitPosition m3); simpl in *; congruence.
Qed.

Lemma validation_exit (m3 m' : MazeGenerator) :
  wellFormed m3 ->
  isInBounds m3 (exitPosition m3) = true ->
  ensureMazeIsSolvable m3 = Some m' ->
  (∃ c, pathCell m' c) ->
  pathCell m' (exitPosition m').
Proof.
  intros Hwf Hb He [c Hc].
  destruct (findStartCell m3) as [s|] eqn:Hs.
  - destruct (validation_connects _ _ Hwf Hb He s Hs) as [_ Hreach].
    apply findStartCell_Some in Hs as (_ & _ & Hne).
    apply (reaches_lands_on_path _ _ _ Hreach).
    apply ensureMazeIsSolvable_keeps_paths in He as (g' & -> & _). done.
  - unfold ensureMazeIsSolvable in He. rewrite Hs in He. injection He as <-.
    by rewrite <- (findStartCell_None _ _ Hs Hc).
Qed.

Lemma shiftBatch_sameNearExit (m m1 : MazeGenerator) (rs rs' : RandomSource) c :
  shiftBatch m rs = Some (m1, rs') ->
  nearExit m c = true ->
  readCell (mazeGrid m1) c = readCell (mazeGrid m) c.
Proof.
  intros H Hnear.
  destruct (decide (readCell (mazeGrid m1) c = readCell (mazeGrid m) c))
    as [|Hne]; [done|].
  destruct (shiftBatch_changes _ _ _ _ H c Hne)
    as (w & (_ & Hfar & _) & <- & _). congruence.
Qed.

Lemma nearExit_exit (m : MazeGenerator) : nearExit m (exitPosition m) = true.
Proof. unfold nearExit, distanceSquared. apply Z.ltb_lt. lia. Qed.

(** * The passes return *)

Lemma unitSource_next (rs : RandomSource) :
  unitSource rs -> unitDraw (rs O) ∧ unitSource (fun n => rs (S n)).
Proof. intros H. split; [apply H|intros n; apply H]. Qed.

Lemma writeCell_returns w h (g : Grid) (c : Cell) (v : bool) :
  gridHasDims w h g -> 0 <= c.1 < w -> 0 <= c.2 < h ->
  ∃ g', writeCell g c v = Some g' ∧ gridHasDims w h g'.
Proof.
  intros Hd Hx Hy.
  destruct (writeCell_is_Some g c v) as [g' Hg'].
  { by apply (readCell_in_grid w h). }
  exists g'. split; [done|]. by eapply gridHasDims_writeCell.
Qed.

Lemma writeIfInBounds_returns (m : MazeGenerator) (g : Grid) (c : Cell) (v : bool) :
  gridHasDims (width m) (height m) g ->
  ∃ g', writeIfInBounds m c v g = Some g' ∧ gridHasDims (width m) (height m) g'.
Proof.
  intros Hd. unfold writeIfInBounds. destruct (isInBounds m c) eqn:Hb; [|eauto].
  apply isInBounds_spec in Hb. apply writeCell_returns; [done|lia..].
Qed.

Lemma repeatLoop_returns {S : Type} (P : S -> Prop) (body : S -> option S) :
  (∀ s, P s -> ∃ s', body s = Some s' ∧ P s') ->
  ∀ n s, P s -> ∃ s', repeatLoop n body s = Some s' ∧ P s'.
Proof.
  intros Hbody. induction n as [|n IH]; intros s Hs; simpl; [eauto|].
  destruct (Hbody s Hs) as (s1 & -> & Hs1). simpl. by apply IH.
Qed.

Lemma forEach_returns {A S : Type} (P : S -> Prop) (body : A -> S -> option S) :
  (∀ x s, P s -> ∃ s', body x s = Some s' ∧ P s') ->
  ∀ xs s, P s -> ∃ s', forEach xs body s = Some s' ∧ P s'.
Proof.
  intros Hbody. induction xs as [|x xs IH]; intros s Hs; simpl; [eauto|].
  destruct (Hbody x s Hs) as (s1 & -> & Hs1). simpl. by apply IH.
Qed.

Section PassesReturn.

Variable m : MazeGenerator.
Hypothesis wide : 5 <= width m.
Hypothesis high : 5 <= height m.

Lemma clearChamber_returns center cw ch (g : Grid) :
  gridHasDims (width m) (height m) g ->
  ∃ g', clearChamber m center cw ch g = Some g'
        ∧ gridHasDims (width m) (height m) g'.
Proof.
  apply (forEach_returns (gridHasDims (width m) (height m))). intros x.
  apply (forEach_returns (gridHasDims (width m) (height m))). intros y g0.
  apply writeIfInBounds_returns.
Qed.

Lemma chamberPillar_returns center (s : PassState) :
  passReady m s -> ∃ s', chamberPillar m center s = Some s' ∧ passReady m s'.
Proof.
  intros [Hd Hu]. unfold chamberPillar. simpl.
  destruct (writeIfInBounds_returns m s.1
              (center.1 - 1 + randomInt (s.2 0%nat) 3,
               center.2 - 1 + randomInt (s.2 1%nat) 3) true Hd) as (g & -> & Hg).
  simpl. eexists. split; [done|]. split; [done|]. intros n. apply Hu.
Qed.

Lemma chamberStep_returns (s : PassState) :
  passReady m s -> ∃ s', chamberStep m s = Some s' ∧ passReady m s'.
Proof.
  intros [Hd Hu]. unfold chamberStep. simpl.
  destruct (distanceSquared _ _ <? 25).
  { eexists. split; [done|]. split; [done|]. intros n. apply Hu. }
  destruct (clearChamber_returns
              (2 + randomInt (s.2 0%nat) (width m - 4),
               2 + randomInt (s.2 1%nat) (height m - 4))
              (3 + randomInt (s.2 2%nat) 3) (3 + randomInt (s.2 3%nat) 3)
              s.1 Hd) as (g & -> & Hg).
  simpl. destruct (_ && _).
  - apply (repeatLoop_returns (passReady m)); [apply chamberPillar_returns|].
    split; [done|]. intros n. apply Hu.
  - eexists. split; [done|]. split; [done|]. intros n. apply Hu.
Qed.

Lemma createChambers_returns (s : PassState) :
  passReady m s -> ∃ s', createChambers m s = Some s' ∧ passReady m s'.
Proof.
  intros [Hd Hu]. unfold createChambers. simpl.
  apply (repeatLoop_returns (passReady m)); [apply chamberStep_returns|].
  split; [done|]. intros n. apply Hu.
Qed.

Lemma pillarStep_returns (s : PassState) :
  passReady m s -> ∃ s', pillarStep m s = Some s' ∧ passReady m s'.
Proof.
  intros [Hd Hu]. unfold pillarStep. simpl.
  destruct (_ && _);
    [|eexists; split; [done|]; split; [done|]; intros n; apply Hu].
  pose proof (randomInt_range (s.2 0%nat) (width m - 2) (Hu _) ltac:(lia)).
  pose proof (randomInt_range (s.2 1%nat) (height m - 2) (Hu _) ltac:(lia)).
  destruct (writeCell_returns _ _ s.1
              (1 + randomInt (s.2 0%nat) (width m - 2),
               1 + randomInt (s.2 1%nat) (height m - 2)) true Hd)
    as (g & -> & Hg); simpl; [lia..|].
  eexists. split; [done|]. split; [done|]. intros n. apply Hu.
Qed.

Lemma archStep_returns (s : PassState) :
  passReady m s -> ∃ s', archStep m s = Some s' ∧ passReady m s'.
Proof.
  intros [Hd Hu]. unfold archStep. simpl.
  destruct (_ && _);
    [|eexists; split; [done|]; split; [done|]; intros n; apply Hu].
  pose proof (randomInt_range (s.2 0%nat) (width m - 4) (Hu _) ltac:(lia)).
  pose proof (randomInt_range (s.2 1%nat) (height m - 4) (Hu _) ltac:(lia)).
  set (x := 2 + randomInt (s.2 0%nat) (width m - 4)) in *.
  set (y := 2 + randomInt (s.2 1%nat) (height m - 4)) in *.
  destruct (writeCell_returns _ _ s.1 (x, y) true Hd)
    as (g1 & -> & Hg1); simpl; [lia..|].
  destruct (randomInt (s.2 2%nat) 2 =? 0).
  - destruct (writeCell_returns _ _ g1 (x + 2, y) true Hg1)
      as (g2 & -> & Hg2); simpl; [lia..|].
    destruct (writeCell_returns _ _ g2 (x + 1, y) false Hg2)
      as (g3 & -> & Hg3); simpl; [lia..|].
    eexists. split; [done|]. split; [done|]. intros n. apply Hu.
  - destruct (writeCell_returns _ _ g1 (x, y + 2) true Hg1)
      as (g2 & -> & Hg2); simpl; [lia..|].
    destruct (writeCell_returns _ _ g2 (x, y + 1) false Hg2)
      as (g3 & -> & Hg3); simpl; [lia..|].
    eexists. split; [done|]. split; [done|]. intros n. apply Hu.
Qed.

Lemma addArchitecturalFeatures_returns (s : PassState) :
  passReady m s -> ∃ s', addArchitecturalFeatures m s = Some s' ∧ passReady m s'.
Proof.
  intros Hs. unfold addArchitecturalFeatures.
  destruct (repeatLoop_returns (passReady m) _ pillarStep_returns
              (Z.to_nat (width m * height m / 40)) s Hs) as (s1 & -> & Hs1).
  simpl. by apply (repeatLoop_returns (passReady m) _ archStep_returns).
Qed.

Lemma widenInto_returns c (s : PassState) :
  passReady m s -> ∃ s', widenInto m c s = Some s' ∧ passReady m s'.
Proof.
  intros [Hd Hu]. unfold widenInto.
  destruct (isInBounds m c) eqn:Hb; [|by eexists]. simpl.
  destruct (Qlt_bool _ _);
    [|eexists; split; [done|]; split; [done|]; intros n; apply Hu].
  apply isInBounds_spec in Hb.
  destruct (writeCell_returns _ _ s.1 c false Hd) as (g & -> & Hg); [lia..|].
  simpl. eexists. split; [done|]. split; [done|]. intros n. apply Hu.
Qed.

Lemma corridorCell_returns startCell dir j (s : PassState) :
  passReady m s ->
  ∃ s', corridorCell m startCell (Some dir) j s = Some s' ∧ passReady m s'.
Proof.
  intros [Hd Hu]. unfold corridorCell. simpl.
  destruct (isInBounds m _) eqn:Hb; [|by eexists].
  apply isInBounds_spec in Hb.
  destruct (writeCell_returns _ _ s.1
              (startCell.1 + dir.1 * j, startCell.2 + dir.2 * j) false Hd)
    as (g & -> & Hg); [simpl in *; lia..|].
  simpl. destruct (dir.1 =? 0).
  - destruct (widenInto_returns
                (startCell.1 + dir.1 * j + 1, startCell.2 + dir.2 * j) (g, s.2))
      as (s1 & -> & Hs1); [done|]. simpl. by apply widenInto_returns.
  - destruct (widenInto_returns
                (startCell.1 + dir.1 * j, startCell.2 + dir.2 * j + 1) (g, s.2))
      as (s1 & -> & Hs1); [done|]. simpl. by apply widenInto_returns.
Qed.

Lemma corridorStep_returns (s : PassState) :
  passReady m s -> ∃ s', corridorStep m s = Some s' ∧ passReady m s'.
Proof.
  intros [Hd Hu]. unfold corridorStep. simpl.
  destruct (isPathAt _ _);
    [|eexists; split; [done|]; split; [done|]; intros n; apply Hu].
  pose proof (randomInt_range (s.2 2%nat) 4 (Hu _) ltac:(lia)) as Hr.
  unfold directionAt. replace (0 <=? randomInt (s.2 2%nat) 4) with true by lia.
  destruct (directions !! Z.to_nat (randomInt (s.2 2%nat) 4)) as [dir|] eqn:E.
  2:{ apply lookup_ge_None in E. simpl in E. lia. }
  apply (forEach_returns (passReady m)).
  - intros j. apply corridorCell_returns.
  - split; [done|]. intros n. apply Hu.
Qed.

Lemma createWiderCorridors_returns (s : PassState) :
  passReady m s -> ∃ s', createWiderCorridors m s = Some s' ∧ passReady m s'.
Proof. apply (repeatLoop_returns (passReady m) _ corridorStep_returns). Qed.

Lemma variationStep_returns (s : PassState) :
  passReady m s -> ∃ s', variationStep m s = Some s' ∧ passReady m s'.
Proof.
  intros [Hd Hu]. unfold variationStep. simpl.
  pose proof (randomInt_range (s.2 0%nat) (width m - 2) (Hu _) ltac:(lia)).
  pose proof (randomInt_range (s.2 1%nat) (height m - 2) (Hu _) ltac:(lia)).
  set (c := (randomInt (s.2 0%nat) (width m - 2) + 1,
             randomInt (s.2 1%nat) (height m - 2) + 1)) in *.
  assert (∀ v, ∃ g, writeCell s.1 c v = Some g
                    ∧ gridHasDims (width m) (height m) g) as Hw.
  { intros v. apply writeCell_returns; [done|simpl; lia..]. }
  destruct (nearExit m c);
    [eexists; split; [done|]; split; [done|]; intros n; apply Hu|].
  destruct (isWallAt s.1 c && _).
  { destruct (Hw false) as (g & -> & Hg). simpl.
    eexists. split; [done|]. split; [done|]. intros n. apply Hu. }
  destruct (isPathAt s.1 c && _);
    [|eexists; split; [done|]; split; [done|]; intros n; apply Hu].
  destruct (createDeadEnd m s.1 c);
    [|eexists; split; [done|]; split; [done|]; intros n; apply Hu].
  destruct (Qlt_bool _ _);
    [|eexists; split; [done|]; split; [done|]; intros n; apply Hu].
  destruct (Hw true) as (g & -> & Hg). simpl.
  eexists. split; [done|]. split; [done|]. intros n. apply Hu.
Qed.

Lemma addRandomVariations_returns (s : PassState) :
  passReady m s -> ∃ s', addRandomVariations m s = Some s' ∧ passReady m s'.
Proof. apply (repeatLoop_returns (passReady m) _ variationStep_returns). Qed.

Lemma applyWaveFunctionCollapse_returns (s : PassState) :
  passReady m s -> ∃ s', applyWaveFunctionCollapse m s = Some s' ∧ passReady m s'.
Proof.
  intros Hs. unfold applyWaveFunctionCollapse.
  destruct (createChambers_returns s Hs) as (s1 & -> & Hs1). simpl.
  destruct (addArchitecturalFeatures_returns s1 Hs1) as (s2 & -> & Hs2). simpl.
  destruct (createWiderCorridors_returns s2 Hs2) as (s3 & -> & Hs3). simpl.
  by apply addRandomVariations_returns.
Qed.

Lemma forEach_returns_in {A S : Type} (P : S -> Prop) (body : A -> S -> option S)
    (xs : list A) :
  (∀ x s, In x xs -> P s -> ∃ s', body x s = Some s' ∧ P s') ->
  ∀ s, P s -> ∃ s', forEach xs body s = Some s' ∧ P s'.
Proof.
  induction xs as [|x xs IH]; intros Hbody s Hs; simpl; [eauto|].
  destruct (Hbody x s (or_introl eq_refl) Hs) as (s1 & -> & Hs1). simpl.
  apply IH; [|done]. intros y s2 Hy. apply Hbody. by right.
Qed.

Lemma steps_spec start step bound v :
  0 < step -> In v (steps start step bound) -> start <= v < bound.
Proof.
  intros Hstep Hv. unfold steps in Hv. apply in_map_iff in Hv as (k & <- & Hk).
  apply list_elem_of_In, elem_of_seqZ in Hk.
  pose proof (Z.mul_div_le (bound - start + step - 1) step Hstep). nia.
Qed.

Lemma seqZ_spec start len v : In v (seqZ start len) ↔ start <= v < start + len.
Proof. rewrite <- list_elem_of_In. apply elem_of_seqZ. Qed.

Lemma writeIf_returns cond (g : Grid) (c : Cell) (v : bool) :
  gridHasDims (width m) (height m) g ->
  (cond = true -> 0 <= c.1 < width m ∧ 0 <= c.2 < height m) ->
  ∃ g', writeIf cond c v g = Some g' ∧ gridHasDims (width m) (height m) g'.
Proof.
  intros Hd Hc. unfold writeIf. destruct cond; [|eauto].
  destruct (Hc eq_refl). by apply writeCell_returns.
Qed.

Lemma diagonalConnection_returns i (g : Grid) :
  0 <= i ->
  gridHasDims (width m) (height m) g ->
  ∃ g', diagonalConnection m i g = Some g' ∧ gridHasDims (width m) (height m) g'.
Proof.
  intros Hi Hd. unfold diagonalConnection, gridSpacing.
  pose proof (Z.mod_pos_bound (i * 3 * 2) (width m) ltac:(lia)).
  pose proof (Z.mod_pos_bound (i * 3) (height m) ltac:(lia)).
  destruct (_ && _) eqn:Hcond; [|eauto].
  apply andb_true_iff in Hcond as [Hx Hy].
  apply (forEach_returns_in (gridHasDims (width m) (height m))); [|done].
  intros j g0 Hj Hg0. apply seqZ_spec in Hj.
  apply writeIf_returns; [done|]. intros _. simpl. lia.
Qed.

Lemma zigzag_returns i (g : Grid) :
  0 <= i ->
  gridHasDims (width m) (height m) g ->
  ∃ g', zigzag m i g = Some g' ∧ gridHasDims (width m) (height m) g'.
Proof.
  intros Hi Hd. unfold zigzag, gridSpacing.
  pose proof (Z.mod_pos_bound (i * 3 * 3) (width m) ltac:(lia)).
  pose proof (Z.mod_pos_bound (i * 3 * 2) (height m) ltac:(lia)).
  destruct (_ && _) eqn:Hcond; [|eauto].
  apply andb_true_iff in Hcond as [Hx Hy].
  apply (forEach_returns_in (gridHasDims (width m) (height m))); [|done].
  intros j g0 Hj Hg0. apply seqZ_spec in Hj.
  destruct (writeIf_returns (3 * 2 + (i * 3 * 3) `mod` width m + j <? width m) g0
              (3 * 2 + (i * 3 * 3) `mod` width m + j,
               3 * 2 + (i * 3 * 2) `mod` height m) false Hg0)
    as (g1 & -> & Hg1); [intros; simpl; lia|]. simpl.
  destruct (writeIf_returns (3 * 2 + (i * 3 * 2) `mod` height m + j <? height m) g1
              (3 * 2 + (i * 3 * 3) `mod` width m + 3,
               3 * 2 + (i * 3 * 2) `mod` height m + j) false Hg1)
    as (g2 & -> & Hg2); [intros; simpl; lia|]. simpl.
  apply writeIf_returns; [done|]. intros; simpl; lia.
Qed.

Lemma junctionArm_returns cond cellOf (g : Grid) :
  gridHasDims (width m) (height m) g ->
  ∃ g', junctionArm m cond cellOf g = Some g'
        ∧ gridHasDims (width m) (height m) g'.
Proof.
  intros Hd. unfold junctionArm. destruct cond; [|eauto].
  apply (forEach_returns (gridHasDims (width m) (height m))); [|done].
  intros i g0. apply writeIfInBounds_returns.
Qed.

Lemma junction_returns c (s : PassState) :
  passReady m s -> ∃ s', junction m c s = Some s' ∧ passReady m s'.
Proof.
  intros [Hd Hu]. unfold junction. simpl.
  destruct (writeIfInBounds_returns m s.1 c false Hd) as (g0 & -> & Hg0). simpl.
  destruct (junctionArm_returns
              ((randomInt (s.2 0%nat) 4 =? 0) || (randomInt (s.2 0%nat) 4 =? 3))
              (fun i => (c.1, c.2 + i)) g0 Hg0) as (g1 & -> & Hg1). simpl.
  destruct (junctionArm_returns
              ((randomInt (s.2 0%nat) 4 =? 1) || (randomInt (s.2 0%nat) 4 =? 3))
              (fun i => (c.1 + i, c.2)) g1 Hg1) as (g2 & -> & Hg2). simpl.
  destruct (junctionArm_returns
              ((randomInt (s.2 0%nat) 4 =? 2) || (randomInt (s.2 0%nat) 4 =? 3))
              (fun i => (c.1, c.2 - i)) g2 Hg2) as (g3 & -> & Hg3). simpl.
  destruct (junctionArm_returns
              ((randomInt (s.2 0%nat) 4 =? 0) || (randomInt (s.2 0%nat) 4 =? 2))
              (fun i => (c.1 - i, c.2)) g3 Hg3) as (g4 & -> & Hg4). simpl.
  eexists. split; [done|]. split; [done|]. intros n. apply Hu.
Qed.

Lemma generateGeometricPattern_returns (rs : RandomSource) :
  unitSource rs ->
  ∃ g rs', generateGeometricPattern m rs = Some (g, rs')
           ∧ gridHasDims (width m) (height m) g ∧ unitSource rs'.
Proof.
  intros Hu. unfold generateGeometricPattern, gridSpacing.
  destruct (forEach_returns_in (gridHasDims (width m) (height m))
              (fun y => forEach (seqZ 0 (width m))
                          (fun x g => writeCell g (x, y) false))
              (steps 3 3 (height m))) with (s := filledGrid (width m) (height m) true)
    as (g1 & -> & Hg1); [|apply gridHasDims_filledGrid|].
  { intros y g Hy Hg. apply steps_spec in Hy; [|lia].
    apply (forEach_returns_in (gridHasDims (width m) (height m))); [|done].
    intros x g0 Hx Hg0. apply seqZ_spec in Hx.
    apply writeCell_returns; [done|simpl; lia..]. }
  simpl.
  destruct (forEach_returns_in (gridHasDims (width m) (height m))
              (fun x => forEach (seqZ 0 (height m))
                          (fun y g => writeCell g (x, y) false))
              (steps 3 3 (width m))) with (s := g1)
    as (g2 & -> & Hg2); [|done|].
  { intros x g Hx Hg. apply steps_spec in Hx; [|lia].
    apply (forEach_returns_in (gridHasDims (width m) (height m))); [|done].
    intros y g0 Hy Hg0. apply seqZ_spec in Hy.
    apply writeCell_returns; [done|simpl; lia..]. }
  simpl.
  destruct (forEach_returns_in (gridHasDims (width m) (height m))
              (diagonalConnection m) (seqZ 0 ((width m + 2) / 3))) with (s := g2)
    as (g3 & -> & Hg3); [|done|].
  { intros i g Hi Hg. apply seqZ_spec in Hi.
    apply diagonalConnection_returns; [lia|done]. }
  simpl.
  destruct (forEach_returns_in (gridHasDims (width m) (height m))
              (zigzag m) (seqZ 0 ((width m + 3) / 4))) with (s := g3)
    as (g4 & -> & Hg4); [|done|].
  { intros i g Hi Hg. apply seqZ_spec in Hi.
    apply zigzag_returns; [lia|done]. }
  simpl.
  destruct (forEach_returns (passReady m)
              (fun y => forEach (steps 3 (3 * 2) (width m))
                          (fun x => junction m (x, y))))
    with (xs := steps 3 (3 * 2) (height m)) (s := (g4, rs))
    as ([g rs'] & Hrun & Hg & Hu'); [|done|by exists g, rs'].
  intros y s Hs. apply (forEach_returns (passReady m)); [|done].
  intros x s0. apply junction_returns.
Qed.

Lemma createExit_returns (rs : RandomSource) :
  wellFormed m ->
  unitSource rs ->
  ∃ m' rs', createExit m rs = Some (m', rs')
            ∧ wellFormed m' ∧ unitSource rs'
            ∧ width m' = width m ∧ height m' = height m.
Proof.
  intros Hwf Hu. unfold createExit.
  assert (∃ e rs', chooseExit m rs = (e, rs') ∧ unitSource rs'
                   ∧ 0 <= e.1 < width m ∧ 0 <= e.2 < height m
                   ∧ (e.1 = 0 ∨ e.1 = width m - 1 ∨ e.2 = 0 ∨ e.2 = height m - 1))
    as (e & rs' & -> & Hu' & Hx & Hy & Hedge).
  { unfold chooseExit. simpl.
    pose proof (randomInt_range (rs 0%nat) 4 (Hu _) ltac:(lia)) as Hside.
    pose proof (randomInt_range (rs 1%nat) (width m) (Hu _) ltac:(lia)).
    pose proof (randomInt_range (rs 1%nat) (height m) (Hu _) ltac:(lia)).
    assert (unitSource (fun n => rs (S (S n)))) by (intros n; apply Hu).
    destruct (randomInt (rs 0%nat) 4) as [|[[|[]|]|[|[]|]|]|]; try lia;
      eexists _, _; (split; [done|]); (split; [done|]); simpl; lia. }
  destruct (writeCell_returns _ _ (mazeGrid m) e false Hwf Hx Hy)
    as (g1 & -> & Hg1). simpl.
  destruct (writeCell_returns _ _ g1 (exitApproach m e) false Hg1)
    as (g2 & -> & Hg2).
  { unfold exitApproach.
    destruct (e.1 =? 0) eqn:E1; [simpl; lia|].
    destruct (e.1 =? width m - 1) eqn:E2; [simpl; lia|].
    destruct (e.2 =? 0) eqn:E3; [simpl; lia|].
    destruct (e.2 =? height m - 1) eqn:E4; simpl; lia. }
  { unfold exitApproach.
    destruct (e.1 =? 0) eqn:E1; [simpl; lia|].
    destruct (e.1 =? width m - 1) eqn:E2; [simpl; lia|].
    destruct (e.2 =? 0) eqn:E3; [simpl; lia|].
    destruct (e.2 =? height m - 1) eqn:E4; simpl; lia. }
  simpl. by eexists _, _.
Qed.

Lemma mirrorCell_returns (c : Cell) (g : Grid) :
  0 <= c.1 < width m / 2 -> 0 <= c.2 < height m / 2 ->
  gridHasDims (width m) (height m) g ->
  ∃ g', mirrorCell m c g = Some g' ∧ gridHasDims (width m) (height m) g'.
Proof.
  intros Hx Hy Hg. unfold mirrorCell.
  destruct (quadrantPattern _ _); [|eauto].
  pose proof (Z.mul_div_le (width m) 2 ltac:(lia)).
  pose proof (Z.mul_div_le (height m) 2 ltac:(lia)).
  destruct (writeCell_returns _ _ g c false Hg) as (g0 & -> & Hg0); [lia..|].
  simpl.
  destruct (writeIfInBounds_returns m g0 (width m - 1 - c.1, c.2) false Hg0)
    as (g1 & -> & Hg1). simpl.
  destruct (writeIfInBounds_returns m g1 (c.1, height m - 1 - c.2) false Hg1)
    as (g2 & -> & Hg2). simpl.
  apply writeIfInBounds_returns. exact Hg2.
Qed.

Lemma connectingPath_returns (s : PassState) :
  passReady m s -> ∃ s', connectingPath m s = Some s' ∧ passReady m s'.
Proof.
  intros [Hd Hu]. unfold connectingPath. simpl.
  destruct (Qlt_bool _ _);
    match goal with
    | |- context [forEach ?xs ?body s.1] =>
        destruct (forEach_returns (gridHasDims (width m) (height m)) body
                    (fun j g0 => writeIfInBounds_returns m g0 _ false) xs s.1 Hd)
          as (g & -> & Hg)
    end;
    simpl; (eexists; split; [done|]); (split; [done|]); intros n; apply Hu.
Qed.

Lemma mirroredQuadrants_returns :
  ∃ g, mirroredQuadrants m = Some g ∧ gridHasDims (width m) (height m) g.
Proof.
  unfold mirroredQuadrants.
  apply (forEach_returns_in (gridHasDims (width m) (height m)));
    [|apply gridHasDims_filledGrid].
  intros x g Hx Hg. apply seqZ_spec in Hx.
  apply (forEach_returns_in (gridHasDims (width m) (height m))); [|done].
  intros y g0 Hy Hg0. apply seqZ_spec in Hy.
  apply mirrorCell_returns; [simpl; lia..|done].
Qed.

Lemma generateSymmetricPattern_returns (rs : RandomSource) :
  unitSource rs ->
  ∃ g rs', generateSymmetricPattern m rs = Some (g, rs')
           ∧ gridHasDims (width m) (height m) g ∧ unitSource rs'.
Proof.
  intros Hu. unfold generateSymmetricPattern.
  destruct mirroredQuadrants_returns as (g1 & -> & Hg1). cbn -[repeatLoop].
  destruct (repeatLoop_returns (passReady m) (connectingPath m)
              connectingPath_returns 10 (g1, rs) (conj Hg1 Hu))
    as ([g rs'] & E & Hg & Hu').
  by exists g, rs'.
Qed.

End PassesReturn.



(** * Counting path cells *)

Lemma pathCount_column (col : list bool) (v : bool) : ∀ (i : nat) (b : bool),
  col !! i = Some b ->
  (length (List.filter negb (<[i := v]> col)) + (if b then 0 else 1)
   = length (List.filter negb col) + (if v then 0 else 1))%nat.
Proof.
  induction col as [|b0 col IH]; intros [|i] b; simpl; try done.
  - intros [= ->]. destruct b, v; simpl; lia.
  - intros Hi. specialize (IH i b Hi). destruct b0; simpl; lia.
Qed.

Lemma pathCount_setCell (g : Grid) (c : Cell) (b v : bool) :
  readCell g c = Some b ->
  (pathCount (setCell g c v) + (if b then 0 else 1)
   = pathCount g + (if v then 0 else 1))%nat.
Proof.
  intros Hc. destruct (readCell_nonneg _ _ _ Hc) as [Hx Hy].
  unfold readCell in Hc. replace (0 <=? c.1) with true in Hc by lia.
  replace (0 <=? c.2) with true in Hc by lia. simpl in Hc.
  unfold pathCount, unmarked, setCell. revert Hc. generalize (Z.to_nat c.1) as i.
  induction g as [|col g IH]; intros [|i]; simpl; try done.
  - intros Hi. pose proof (pathCount_column col v _ _ Hi). lia.
  - intros Hi. specialize (IH i Hi). change (alter ?f i g)
      with (list_alter f i g) in IH. lia.
Qed.

Lemma closesAtMost_refl k g : closesAtMost k g g.
Proof. unfold closesAtMost. lia. Qed.

Lemma closesAtMost_trans a b g1 g2 g3 :
  closesAtMost a g1 g2 -> closesAtMost b g2 g3 -> closesAtMost (a + b) g1 g3.
Proof. unfold closesAtMost. lia. Qed.

Lemma opens_trans g1 g2 g3 :
  closesAtMost 0 g1 g2 -> closesAtMost 0 g2 g3 -> closesAtMost 0 g1 g3.
Proof. apply (closesAtMost_trans 0 0). Qed.

Lemma closesAtMost_writeCell g g' c v :
  writeCell g c v = Some g' -> closesAtMost (if v then 1 else 0) g g'.
Proof.
  unfold writeCell, closesAtMost. destruct (readCell g c) as [b|] eqn:Hr; [|done].
  intros [= <-]. pose proof (pathCount_setCell g c b v Hr).
  destruct b, v; lia.
Qed.

Lemma opens_writeCell g g' c :
  writeCell g c false = Some g' -> closesAtMost 0 g g'.
Proof. apply (closesAtMost_writeCell g g' c false). Qed.

Lemma opens_writeIfInBounds m g g' c :
  writeIfInBounds m c false g = Some g' -> closesAtMost 0 g g'.
Proof.
  unfold writeIfInBounds. destruct (isInBounds m c).
  - apply opens_writeCell.
  - intros [= <-]. apply closesAtMost_refl.
Qed.

Lemma opens_writeIf cond g g' c :
  writeIf cond c false g = Some g' -> closesAtMost 0 g g'.
Proof.
  unfold writeIf. destruct cond.
  - apply opens_writeCell.
  - intros [= <-]. apply closesAtMost_refl.
Qed.

Ltac opens_loop :=
  first [apply (forEach_preserves (closesAtMost 0))
        |apply (forEach_preserves (passCloses 0))
        |apply (repeatLoop_preserves (passCloses 0))];
  [first [apply closesAtMost_refl|intros ?; apply closesAtMost_refl]
  |first [apply opens_trans|intros ? ? ?; apply opens_trans]
  |].

Lemma repeatLoop_closes {S : Type} (grid : S -> Grid) (P : S -> Prop)
    (body : S -> option S) (k : nat) :
  (∀ s s', P s -> body s = Some s' -> P s' ∧ closesAtMost k (grid s) (grid s')) ->
  ∀ n s s', P s -> repeatLoop n body s = Some s' ->
            P s' ∧ closesAtMost (n * k) (grid s) (grid s').
Proof.
  intros Hbody. induction n as [|n IH]; intros s s' Hs; simpl.
  - intros [= <-]. split; [done|apply closesAtMost_refl].
  - destruct (body s) as [s1|] eqn:E; [|done]. simpl. intros Hrest.
    destruct (Hbody _ _ Hs E) as [Hs1 H1].
    destruct (IH _ _ Hs1 Hrest) as [Hs' H2].
    split; [done|]. by eapply closesAtMost_trans.
Qed.

(** ** The chambers *)

Lemma clearChamber_opens m center cw ch g g' :
  clearChamber m center cw ch g = Some g' -> closesAtMost 0 g g'.
Proof.
  opens_loop. intros x. opens_loop.
  intros y s s'. apply opens_writeIfInBounds.
Qed.

Lemma chamberPillar_closes m center s s' :
  unitSource s.2 -> chamberPillar m center s = Some s' ->
  unitSource s'.2 ∧ closesAtMost 1 s.1 s'.1.
Proof.
  unfold chamberPillar. simpl. intros Hu.
  destruct (writeIfInBounds _ _ _ _) as [g|] eqn:E; [|done].
  simpl. intros [= <-]. simpl. split; [intros n; apply Hu|].
  unfold writeIfInBounds in E. destruct (isInBounds _ _).
  - by apply closesAtMost_writeCell in E.
  - injection E as <-. apply closesAtMost_refl.
Qed.

Lemma closesAtMost_weaken a b g g' :
  (a <= b)%nat -> closesAtMost a g g' -> closesAtMost b g g'.
Proof. unfold closesAtMost. lia. Qed.

Lemma chamberStep_closes m s s' :
  unitSource s.2 -> chamberStep m s = Some s' ->
  unitSource s'.2 ∧ closesAtMost 2 s.1 s'.1.
Proof.
  unfold chamberStep. simpl. intros Hu.
  destruct (distanceSquared _ _ <? 25).
  { intros [= <-]. split; [intros n; apply Hu|apply closesAtMost_refl]. }
  destruct (clearChamber _ _ _ _ _) as [g|] eqn:E; [|done]. simpl.
  apply clearChamber_opens in E.
  destruct (_ && _).
  - intros Hloop.
    pose proof (randomInt_range (s.2 4%nat) 2 (Hu _) ltac:(lia)) as Hr.
    apply (repeatLoop_closes fst (fun s => unitSource s.2) _ 1) in Hloop
      as [Hu' Hloss].
    + split; [done|]. simpl in Hloss.
      apply (closesAtMost_trans 0 _ _ _ _ E) in Hloss.
      eapply closesAtMost_weaken; [|exact Hloss]. lia.
    + intros s1 s2. apply chamberPillar_closes.
    + intros n. apply Hu.
  - intros [= <-]. split; [intros n; apply Hu|].
    eapply closesAtMost_weaken; [|exact E]. lia.
Qed.

Lemma createChambers_closes m s s' :
  unitSource s.2 -> createChambers m s = Some s' ->
  unitSource s'.2 ∧ closesAtMost 8 s.1 s'.1.
Proof.
  unfold createChambers. simpl. intros Hu Hloop.
  pose proof (randomInt_range (s.2 0%nat) 3 (Hu _) ltac:(lia)) as Hr.
  apply (repeatLoop_closes fst (fun s => unitSource s.2) _ 2) in Hloop
    as [Hu' Hloss].
  - split; [done|]. eapply closesAtMost_weaken; [|exact Hloss]. lia.
  - intros s1 s2. apply chamberStep_closes.
  - intros n. apply Hu.
Qed.

(** ** Pillars and arches *)

Lemma pillarStep_closes m s s' :
  unitSource s.2 -> pillarStep m s = Some s' ->
  unitSource s'.2 ∧ closesAtMost 1 s.1 s'.1.
Proof.
  unfold pillarStep. simpl. intros Hu.
  destruct (_ && _).
  - destruct (writeCell _ _ _) as [g|] eqn:E; [|done].
    simpl. intros [= <-]. split; [intros n; apply Hu|].
    by apply closesAtMost_writeCell in E.
  - intros [= <-]. split; [intros n; apply Hu|apply closesAtMost_refl].
Qed.

Lemma archStep_closes m s s' :
  unitSource s.2 -> archStep m s = Some s' ->
  unitSource s'.2 ∧ closesAtMost 2 s.1 s'.1.
Proof.
  unfold archStep. simpl. intros Hu.
  destruct (_ && _).
  - destruct (writeCell s.1 _ _) as [g1|] eqn:E1; [|done]. simpl.
    destruct (writeCell g1 _ _) as [g2|] eqn:E2; [|done]. simpl.
    destruct (writeCell g2 _ _) as [g3|] eqn:E3; [|done]. simpl.
    intros [= <-]. split; [intros n; apply Hu|]. simpl.
    apply closesAtMost_writeCell in E1, E2, E3.
    unfold closesAtMost in *. lia.
  - intros [= <-]. split; [intros n; apply Hu|apply closesAtMost_refl].
Qed.

Lemma addArchitecturalFeatures_closes m s s' :
  unitSource s.2 -> addArchitecturalFeatures m s = Some s' ->
  unitSource s'.2
  ∧ closesAtMost (Z.to_nat (width m * height m / 40)
                  + 2 * Z.to_nat (width m * height m / 60)) s.1 s'.1.
Proof.
  unfold addArchitecturalFeatures. intros Hu.
  destruct (repeatLoop _ (pillarStep m) s) as [s1|] eqn:E1; [|done]. simpl.
  intros E2.
  apply (repeatLoop_closes fst (fun s => unitSource s.2) _ 1) in E1
    as [Hu1 H1]; [|intros ? ?; apply pillarStep_closes|done].
  apply (repeatLoop_closes fst (fun s => unitSource s.2) _ 2) in E2
    as [Hu2 H2]; [|intros ? ?; apply archStep_closes|done].
  split; [done|]. unfold closesAtMost in *. lia.
Qed.

(** ** Corridors *)

Lemma widenInto_opens m c s s' :
  widenInto m c s = Some s' -> passCloses 0 s s'.
Proof.
  unfold widenInto, passCloses. simpl.
  destruct (isInBounds m c); [|intros [= <-]; apply closesAtMost_refl].
  destruct (Qlt_bool _ _); [|intros [= <-]; apply closesAtMost_refl].
  destruct (writeCell _ _ _) as [g|] eqn:E; [|done].
  simpl. intros [= <-]. simpl. by eapply opens_writeCell.
Qed.

Lemma corridorCell_opens m startCell direction j s s' :
  corridorCell m startCell direction j s = Some s' -> passCloses 0 s s'.
Proof.
  unfold corridorCell, passCloses. destruct direction as [dir|]; [|done].
  simpl.
  destruct (isInBounds m _); [|intros [= <-]; apply closesAtMost_refl].
  destruct (writeCell _ _ _) as [g|] eqn:E; [|done]. simpl.
  apply opens_writeCell in E.
  destruct (dir.1 =? 0).
  - destruct (widenInto m _ (g, s.2)) as [s1|] eqn:E1; [|done]. simpl.
    intros E2. apply widenInto_opens in E1, E2.
    eapply opens_trans; [exact E|]. eapply opens_trans; [exact E1|exact E2].
  - destruct (widenInto m _ (g, s.2)) as [s1|] eqn:E1; [|done]. simpl.
    intros E2. apply widenInto_opens in E1, E2.
    eapply opens_trans; [exact E|]. eapply opens_trans; [exact E1|exact E2].
Qed.

Lemma corridorStep_opens m s s' :
  corridorStep m s = Some s' -> passCloses 0 s s'.
Proof.
  unfold corridorStep, passCloses. simpl.
  destruct (isPathAt _ _); [|intros [= <-]; apply closesAtMost_refl].
  intros Hloop.
  change (passCloses 0 (s.1, fun n => s.2 (S (S (S (S n))))) s').
  revert Hloop. opens_loop. intros ? ? ?. apply corridorCell_opens.
Qed.

Lemma createWiderCorridors_opens m s s' :
  createWiderCorridors m s = Some s' -> passCloses 0 s s'.
Proof.
  unfold createWiderCorridors. opens_loop.
  intros ? ?. apply corridorStep_opens.
Qed.

(** ** Noise *)

Lemma variationStep_closes m s s' :
  variationStep m s = Some s' -> closesAtMost 1 s.1 s'.1.
Proof.
  unfold variationStep. simpl.
  destruct (nearExit m _); [intros [= <-]; apply closesAtMost_refl|].
  destruct (isWallAt s.1 _ && _).
  { destruct (writeCell _ _ _) as [g|] eqn:E; [|done].
    simpl. intros [= <-]. simpl. apply closesAtMost_writeCell in E.
    eapply closesAtMost_weaken; [|exact E]. lia. }
  destruct (isPathAt s.1 _ && _); [|intros [= <-]; apply closesAtMost_refl].
  destruct (createDeadEnd _ _ _); [|intros [= <-]; apply closesAtMost_refl].
  destruct (Qlt_bool _ _); [|intros [= <-]; apply closesAtMost_refl].
  destruct (writeCell _ _ _) as [g|] eqn:E; [|done].
  simpl. intros [= <-]. simpl. by apply closesAtMost_writeCell in E.
Qed.

Lemma addRandomVariations_closes m s s' :
  addRandomVariations m s = Some s' ->
  closesAtMost (Z.to_nat (width m * height m / 10)) s.1 s'.1.
Proof.
  unfold addRandomVariations. intros Hloop.
  apply (repeatLoop_closes fst (fun _ => True) _ 1) in Hloop as [_ H]; [|..|done].
  - eapply closesAtMost_weaken; [|exact H]. lia.
  - intros s1 s2 _ E. split; [done|]. by apply (variationStep_closes m).
Qed.

Lemma applyWaveFunctionCollapse_closes m s s' :
  unitSource s.2 -> applyWaveFunctionCollapse m s = Some s' ->
  closesAtMost (wallBudget m) s.1 s'.1.
Proof.
  unfold applyWaveFunctionCollapse. intros Hu.
  destruct (createChambers m s) as [s1|] eqn:E1; [|done]. simpl.
  destruct (addArchitecturalFeatures m s1) as [s2|] eqn:E2; [|done]. simpl.
  destruct (createWiderCorridors m s2) as [s3|] eqn:E3; [|done]. simpl.
  intros E4.
  apply createChambers_closes in E1 as [Hu1 H1]; [|done].
  apply addArchitecturalFeatures_closes in E2 as [Hu2 H2]; [|done].
  apply createWiderCorridors_opens in E3.
  apply addRandomVariations_closes in E4.
  unfold passCloses, closesAtMost, wallBudget in *. lia.
Qed.

(** ** The exit *)

Lemma chooseExit_source m rs : unitSource rs -> unitSource (chooseExit m rs).2.
Proof.
  intros Hu. unfold chooseExit. simpl.
  destruct (randomInt (rs 0%nat) 4) as [|[[p|p|]|[p|p|]|]|p]; simpl;
    intros n; apply Hu.
Qed.

Lemma createExit_opens m m' rs rs' :
  unitSource rs ->
  createExit m rs = Some (m', rs') ->
  unitSource rs' ∧ closesAtMost 0 (mazeGrid m) (mazeGrid m').
Proof.
  intros Hu. unfold createExit.
  pose proof (chooseExit_source m rs Hu) as Hu'.
  destruct (chooseExit m rs) as [e rs1].
  destruct (writeCell (mazeGrid m) e false) as [g1|] eqn:E1; [|done]. simpl.
  destruct (writeCell g1 _ false) as [g2|] eqn:E2; [|done]. simpl.
  intros [= <- <-]. simpl. split; [done|].
  apply opens_writeCell in E1, E2. by eapply opens_trans.
Qed.

(** ** Two path cells give the validator a start *)

Lemma pathCount_walls (g : Grid) :
  (∀ c, readCell g c ≠ Some false) -> pathCount g = O.
Proof.
  intros Hwalls.
  assert (Forall (Forall (fun b => b = true)) g) as Hall.
  { apply Forall_lookup. intros i col Hi. apply Forall_lookup. intros j b Hj.
    destruct b; [done|]. exfalso. apply (Hwalls (Z.of_nat i, Z.of_nat j)).
    unfold readCell. cbn [fst snd].
    rewrite (proj2 (Z.leb_le 0 (Z.of_nat i))), (proj2 (Z.leb_le 0 (Z.of_nat j)))
      by lia.
    rewrite !Nat2Z.id, Hi. simpl. done. }
  clear Hwalls. unfold pathCount, unmarked.
  induction Hall as [|col g Hcol _ IH]; simpl; [done|].
  rewrite IH. induction Hcol as [|b col -> _ IHc]; simpl; [done|]. exact IHc.
Qed.

Lemma findStartCell_None_count (m : MazeGenerator) :
  wellFormed m -> findStartCell m = None -> (pathCount (mazeGrid m) <= 1)%nat.
Proof.
  intros Hwf Hnone.
  assert (∀ c, readCell (mazeGrid m) c = Some false -> c = exitPosition m) as Hexit.
  { intros c Hc. apply (findStartCell_None m c Hnone). split; [|done].
    apply isInBounds_spec, (readCell_in_grid _ _ _ c Hwf). eauto. }
  destruct (readCell (mazeGrid m) (exitPosition m)) as [b|] eqn:He.
  - pose proof (pathCount_setCell _ _ b true He) as Hcount.
    rewrite pathCount_walls in Hcount; [destruct b; lia|].
    intros c Hc. destruct (readCell_nonneg _ _ _ He) as [Hx Hy].
    rewrite readCell_setCell in Hc by done.
    case_decide as Hce; [by rewrite He in Hc|].
    by apply Hexit in Hc.
  - rewrite pathCount_walls; [lia|]. intros c Hc.
    pose proof (Hexit c Hc) as ->. congruence.
Qed.

Lemma two_paths_give_a_start (m : MazeGenerator) :
  wellFormed m -> (2 <= pathCount (mazeGrid m))%nat ->
  ∃ s, findStartCell m = Some s.
Proof.
  intros Hwf Hcount. destruct (findStartCell m) as [s|] eqn:E; [eauto|].
  pose proof (findStartCell_None_count m Hwf E). lia.
Qed.

(** ** What the geometric builder carves *)

Lemma keepsPaths_refl g : keepsPaths g g.
Proof. by intros ?. Qed.

Lemma keepsPaths_trans g1 g2 g3 :
  keepsPaths g1 g2 -> keepsPaths g2 g3 -> keepsPaths g1 g3.
Proof. intros H12 H23 c Hc. by apply H23, H12. Qed.

Lemma keepsPaths_writeCell g g' c :
  writeCell g c false = Some g' -> keepsPaths g g'.
Proof.
  intros Hw c' Hc'. rewrite (readCell_writeCell _ _ _ _ _ Hw).
  by case_decide.
Qed.

Lemma keepsPaths_writeIfInBounds m g g' c :
  writeIfInBounds m c false g = Some g' -> keepsPaths g g'.
Proof.
  unfold writeIfInBounds. destruct (isInBounds m c).
  - apply keepsPaths_writeCell.
  - intros [= <-]. apply keepsPaths_refl.
Qed.

Lemma keepsPaths_writeIf cond g g' c :
  writeIf cond c false g = Some g' -> keepsPaths g g'.
Proof.
  unfold writeIf. destruct cond.
  - apply keepsPaths_writeCell.
  - intros [= <-]. apply keepsPaths_refl.
Qed.

Ltac keeps_paths_loop :=
  first [apply (forEach_preserves keepsPaths)
        |apply (forEach_preserves passKeepsPaths)];
  [first [apply keepsPaths_refl|intros ?; apply keepsPaths_refl]
  |first [apply keepsPaths_trans|intros ? ? ?; apply keepsPaths_trans]
  |].

Lemma junctionArm_keeps_paths m cond cellOf g g' :
  junctionArm m cond cellOf g = Some g' -> keepsPaths g g'.
Proof.
  unfold junctionArm. destruct cond; [|intros [= <-]; apply keepsPaths_refl].
  keeps_paths_loop. intros i g1 g2. apply keepsPaths_writeIfInBounds.
Qed.

Lemma junction_keeps_paths m c s s' :
  unitSource s.2 -> junction m c s = Some s' ->
  unitSource s'.2 ∧ keepsPaths s.1 s'.1.
Proof.
  unfold junction. simpl. intros Hu.
  destruct (writeIfInBounds m c false s.1) as [g0|] eqn:E0; [|done]. simpl.
  destruct (junctionArm m _ _ g0) as [g1|] eqn:E1; [|done]. simpl.
  destruct (junctionArm m _ _ g1) as [g2|] eqn:E2; [|done]. simpl.
  destruct (junctionArm m _ _ g2) as [g3|] eqn:E3; [|done]. simpl.
  destruct (junctionArm m _ _ g3) as [g4|] eqn:E4; [|done]. simpl.
  intros [= <-]. simpl. split; [intros n; apply Hu|].
  apply keepsPaths_writeIfInBounds in E0.
  apply junctionArm_keeps_paths in E1, E2, E3, E4.
  intros c' Hc'. by apply E4, E3, E2, E1, E0.
Qed.

Lemma diagonalConnection_keeps_paths m i g g' :
  diagonalConnection m i g = Some g' -> keepsPaths g g'.
Proof.
  unfold diagonalConnection.
  destruct (_ && _); [|intros [= <-]; apply keepsPaths_refl].
  keeps_paths_loop. intros j g1 g2. apply keepsPaths_writeIf.
Qed.

Lemma zigzag_keeps_paths m i g g' :
  zigzag m i g = Some g' -> keepsPaths g g'.
Proof.
  unfold zigzag.
  destruct (_ && _); [|intros [= <-]; apply keepsPaths_refl].
  keeps_paths_loop. intros j g0 g3.
  destruct (writeIf _ _ false g0) as [g1|] eqn:E1; [|done]. simpl.
  destruct (writeIf _ _ false g1) as [g2|] eqn:E2; [|done]. simpl.
  intros E3. apply keepsPaths_writeIf in E1, E2, E3.
  intros c Hc. by apply E3, E2, E1.
Qed.

(** A loop whose turns only open cells: what a turn has opened stays open. *)
Lemma forEach_opens {A : Type} (body : A -> Grid -> option Grid)
    (opened : A -> Grid -> Prop) :
  (∀ a g g', body a g = Some g' -> keepsPaths g g' ∧ opened a g') ->
  (∀ a g g', keepsPaths g g' -> opened a g -> opened a g') ->
  ∀ xs g g', forEach xs body g = Some g' ->
             keepsPaths g g' ∧ ∀ a, In a xs -> opened a g'.
Proof.
  intros Hbody Hstable. induction xs as [|x xs IH]; intros g g'; simpl.
  - intros [= <-]. split; [apply keepsPaths_refl|done].
  - destruct (body x g) as [g1|] eqn:E; [|done]. simpl. intros Hrest.
    destruct (Hbody _ _ _ E) as [H1 Hx]. destruct (IH _ _ Hrest) as [H2 Hxs].
    split; [by eapply keepsPaths_trans|].
    intros a [<-|Ha]; [by eapply Hstable|by apply Hxs].
Qed.

Lemma carveRows_opens (columns rows : list Z) (g g' : Grid) :
  forEach rows (fun y => forEach columns (fun x g => writeCell g (x, y) false)) g
  = Some g' ->
  keepsPaths g g' ∧ ∀ c, In c (rowCells columns rows) -> readCell g' c = Some false.
Proof.
  intros H.
  apply (forEach_opens _ (fun y g => ∀ x, In x columns -> readCell g (x, y) = Some false))
    in H as [Hkeep Hrows].
  - split; [done|]. intros c Hc. unfold rowCells in Hc.
    apply in_flat_map in Hc as (y & Hy & Hc).
    apply in_map_iff in Hc as (x & <- & Hx). by apply Hrows.
  - intros y g0 g1.
    apply (forEach_opens _ (fun x g => readCell g (x, y) = Some false)).
    + intros x g2 g3 Hw. split; [by eapply keepsPaths_writeCell|].
      rewrite (readCell_writeCell _ _ _ _ _ Hw). by rewrite decide_True.
    + intros x g2 g3 Hk. apply Hk.
  - intros y g0 g1 Hk Hrow x Hx. by apply Hk, Hrow.
Qed.

Lemma pathCount_lower_bound (cells : list Cell) : ∀ g,
  NoDup cells -> (∀ c, In c cells -> readCell g c = Some false) ->
  (length cells <= pathCount g)%nat.
Proof.
  induction cells as [|c cells IH]; intros g Hnd Hopen; simpl; [lia|].
  apply NoDup_cons in Hnd as [Hc Hnd].
  pose proof (Hopen c (or_introl eq_refl)) as Hr.
  pose proof (pathCount_setCell g c false true Hr) as Hcount.
  destruct (readCell_nonneg _ _ _ Hr) as [Hx Hy].
  specialize (IH (setCell g c true) Hnd). simpl in Hcount.
  assert (length cells <= pathCount (setCell g c true))%nat; [|lia].
  apply IH. intros c' Hc'. rewrite readCell_setCell by done.
  rewrite decide_False; [by apply Hopen; right|].
  intros ->. by apply Hc, list_elem_of_In.
Qed.

Lemma rowCells_NoDup (columns rows : list Z) :
  NoDup columns -> NoDup rows -> NoDup (rowCells columns rows).
Proof.
  intros Hc. unfold rowCells. induction 1 as [|y rows Hy Hrows IH]; simpl.
  - constructor.
  - apply NoDup_app. split; [|split; [|done]].
    + apply (NoDup_fmap_2 (fun x => (x, y))); [by intros ? ? [= ->]..|done].
    + intros c Hin Hrest. rewrite list_elem_of_In in Hin.
      rewrite list_elem_of_In in Hrest.
      apply in_map_iff in Hin as (x & <- & _).
      apply in_flat_map in Hrest as (y' & Hy' & Hin).
      apply in_map_iff in Hin as (x' & [= -> ->] & _).
      by apply Hy, list_elem_of_In.
Qed.

Lemma rowCells_length (columns rows : list Z) :
  length (rowCells columns rows) = (length rows * length columns)%nat.
Proof.
  unfold rowCells. induction rows as [|y rows IH]; simpl; [done|].
  rewrite length_app, length_map. f_equal. exact IH.
Qed.

Lemma steps_NoDup start step bound : 0 < step -> NoDup (steps start step bound).
Proof.
  intros Hstep. unfold steps.
  assert (Inj (=) (=) (fun k : Z => start + k * step)) by (intros a b ?; nia).
  apply (NoDup_fmap_2 (fun k => start + k * step)), NoDup_seqZ.
Qed.

Lemma opensAndDraws_refl s : opensAndDraws s s.
Proof. intros Hu. split; [done|apply keepsPaths_refl]. Qed.

Lemma opensAndDraws_trans s1 s2 s3 :
  opensAndDraws s1 s2 -> opensAndDraws s2 s3 -> opensAndDraws s1 s3.
Proof.
  intros H12 H23 Hu. destruct (H12 Hu) as [Hu2 K12].
  destruct (H23 Hu2) as [Hu3 K23]. split; [done|by eapply keepsPaths_trans].
Qed.

Lemma generateGeometricPattern_carves (m : MazeGenerator) (rs rs' : RandomSource) g :
  unitSource rs ->
  generateGeometricPattern m rs = Some (g, rs') ->
  unitSource rs'
  ∧ (Z.to_nat ((height m - 1) / 3) * Z.to_nat (width m) <= pathCount g)%nat.
Proof.
  intros Hu. unfold generateGeometricPattern.
  destruct (forEach _ _ (filledGrid _ _ _)) as [g1|] eqn:E1; [|done]. simpl.
  destruct (forEach _ _ g1) as [g2|] eqn:E2; [|done]. simpl.
  destruct (forEach _ (diagonalConnection m) g2) as [g3|] eqn:E3; [|done]. simpl.
  destruct (forEach _ (zigzag m) g3) as [g4|] eqn:E4; [|done]. simpl.
  intros E5.
  apply carveRows_opens in E1 as [_ Hrows].
  assert (keepsPaths g1 g2) as H2.
  { revert E2. keeps_paths_loop. intros x. keeps_paths_loop.
    intros y ? ?. apply keepsPaths_writeCell. }
  assert (keepsPaths g2 g3) as H3.
  { revert E3. keeps_paths_loop. intros i ? ?. apply diagonalConnection_keeps_paths. }
  assert (keepsPaths g3 g4) as H4.
  { revert E4. keeps_paths_loop. intros i ? ?. apply zigzag_keeps_paths. }
  assert (opensAndDraws (g4, rs) (g, rs')) as H5.
  { revert E5.
    apply (forEach_preserves opensAndDraws);
      [apply opensAndDraws_refl|apply opensAndDraws_trans|].
    intros y.
    apply (forEach_preserves opensAndDraws);
      [apply opensAndDraws_refl|apply opensAndDraws_trans|].
    intros x s s' E Hs. by eapply junction_keeps_paths. }
  destruct (H5 Hu) as [Hu' H5']. split; [done|].
  assert (length (rowCells (seqZ 0 (width m))
                           (steps gridSpacing gridSpacing (height m)))
          = (Z.to_nat ((height m - 1) / 3) * Z.to_nat (width m))%nat) as <-.
  { rewrite rowCells_length. unfold steps, gridSpacing.
    rewrite length_map, !length_seqZ. do 3 f_equal. lia. }
  apply pathCount_lower_bound.
  - apply rowCells_NoDup; [apply NoDup_seqZ|]. by apply steps_NoDup.
  - intros c Hc. by apply H5', H4, H3, H2, Hrows.
Qed.

(** On a grid of 14 by 14 cells or more the rows of the geometric pattern
    alone outnumber the cells the passes can close. *)
Lemma rows_exceed_the_budget (m : MazeGenerator) :
  14 <= width m -> 14 <= height m ->
  (wallBudget m + 2 <= Z.to_nat ((height m - 1) / 3) * Z.to_nat (width m))%nat.
Proof.
  intros Hw Hh. unfold wallBudget.
  set (w := width m) in *. set (h := height m) in *.
  assert (0 <= w * h) by nia.
  pose proof (Z.mul_div_le (w * h) 40 ltac:(lia)).
  pose proof (Z.mul_div_le (w * h) 60 ltac:(lia)).
  pose proof (Z.mul_div_le (w * h) 10 ltac:(lia)).
  pose proof (Z.div_pos (w * h) 40 ltac:(lia) ltac:(lia)).
  pose proof (Z.div_pos (w * h) 60 ltac:(lia) ltac:(lia)).
  pose proof (Z.div_pos (w * h) 10 ltac:(lia) ltac:(lia)).
  assert (h - 3 <= 3 * ((h - 1) / 3)).
  { pose proof (Z.div_mod (h - 1) 3 ltac:(lia)).
    pose proof (Z.mod_pos_bound (h - 1) 3 ltac:(lia)). lia. }
  assert (0 <= (h - 1) / 3) by (apply Z.div_pos; lia).
  rewrite <- Z2Nat.inj_mul by lia.
  apply Nat2Z.inj_le. rewrite !Nat2Z.inj_add, Nat2Z.inj_mul, !Z2Nat.id by nia.
  simpl Z.of_nat. nia.
Qed.

(** The builder behind [patternType = 0] delivers on every grid of 14 by
    14 cells or more, the default 20 by 20 of a room among them. *)
Lemma geometric_builder_delivers other (m : MazeGenerator) (rs : RandomSource) :
  14 <= width m -> 14 <= height m ->
  selectedStrategy m = Geometric ->
  unitSource rs ->
  builderDelivers (patternBuilders other) m rs.
Proof.
  intros Hw Hh Hsel Hu. unfold builderDelivers.
  change (selectedStrategy (initializeMaze m)) with (selectedStrategy m).
  rewrite Hsel. simpl.
  destruct (generateGeometricPattern_returns (initializeMaze m)
              ltac:(simpl; lia) ltac:(simpl; lia) rs Hu) as (g & rs1 & Hrun & Hg & Hu1).
  exists g, rs1. split; [done|]. split; [done|]. split; [done|].
  apply generateGeometricPattern_carves in Hrun as [_ Hcount]; [|done].
  exact (Nat.le_trans _ _ _ (rows_exceed_the_budget m Hw Hh) Hcount).
Qed.

(** ** What the symmetric builder carves *)

Lemma connectingPath_closes m s s' :
  unitSource s.2 -> connectingPath m s = Some s' ->
  unitSource s'.2 ∧ closesAtMost 0 s.1 s'.1.
Proof.
  unfold connectingPath. simpl. intros Hu.
  destruct (Qlt_bool _ _);
    (destruct (forEach _ _ s.1) as [g|] eqn:E; [|done]); simpl; intros [= <-];
    (split; [intros n; apply Hu|]); simpl; revert E; opens_loop;
    intros j ? ?; apply opens_writeIfInBounds.
Qed.

Lemma generateSymmetricPattern_carves (m : MazeGenerator) (rs rs' : RandomSource)
    g1 g :
  mirroredQuadrants m = Some g1 ->
  unitSource rs ->
  generateSymmetricPattern m rs = Some (g, rs') ->
  unitSource rs' ∧ (pathCount g1 <= pathCount g)%nat.
Proof.
  intros E1 Hu. unfold generateSymmetricPattern. rewrite E1. cbn -[repeatLoop].
  intros E2.
  apply (repeatLoop_closes fst (fun s => unitSource s.2) _ 0) in E2 as [Hu' H];
    [|intros ? ?; apply connectingPath_closes|done].
  split; [done|]. unfold closesAtMost in H. simpl in H. lia.
Qed.

Lemma forEach_ext {A S : Type} (f g : A -> S -> option S) (xs : list A) :
  (∀ x s, f x s = g x s) -> ∀ s, forEach xs f s = forEach xs g s.
Proof.
  intros Hfg. induction xs as [|x xs IH]; intros s; simpl; [done|].
  rewrite Hfg. destruct (g x s); simpl; [apply IH|done].
Qed.

(** The pattern depends on the generator through its dimensions only. *)
Lemma mirroredQuadrants_ext (m m' : MazeGenerator) :
  width m = width m' -> height m = height m' ->
  mirroredQuadrants m = mirroredQuadrants m'.
Proof.
  intros Hw Hh. unfold mirroredQuadrants. rewrite Hw, Hh.
  apply forEach_ext. intros x g. apply forEach_ext. intros y g0.
  unfold mirrorCell, writeIfInBounds, isInBounds. by rewrite Hw, Hh.
Qed.

(** In a room of the default dimensions the pattern of the quadrants
    opens 176 cells, and the passes can close 70. *)
Lemma mirroredQuadrants_default (m : MazeGenerator) :
  width m = 20 -> height m = 20 ->
  ∃ g, mirroredQuadrants m = Some g ∧ pathCount g = 176%nat.
Proof.
  intros Hw Hh.
  rewrite (mirroredQuadrants_ext m (mazeOf 20 20 (0, 0) [] 0)) by done.
  eexists. split; vm_compute; reflexivity.
Qed.

Lemma symmetric_builder_delivers other (m : MazeGenerator) (rs : RandomSource) :
  width m = 20 -> height m = 20 ->
  selectedStrategy m = Symmetric ->
  unitSource rs ->
  builderDelivers (patternBuilders other) m rs.
Proof.
  intros Hw Hh Hsel Hu. unfold builderDelivers.
  change (selectedStrategy (initializeMaze m)) with (selectedStrategy m).
  rewrite Hsel. cbn [patternBuilders].
  destruct (generateSymmetricPattern_returns (initializeMaze m)
              ltac:(simpl; lia) ltac:(simpl; lia) rs Hu) as (g & rs1 & Hrun & Hg & Hu1).
  exists g, rs1. split; [done|]. split; [done|]. split; [done|].
  destruct (mirroredQuadrants_default (initializeMaze m) Hw Hh) as (g1 & Hg1 & Hcount).
  apply (generateSymmetricPattern_carves _ _ _ _ _ Hg1 Hu) in Hrun as [_ Hle].
  assert (wallBudget m = 70%nat) as ->
    by (unfold wallBudget; rewrite Hw, Hh; vm_compute; reflexivity).
  lia.
Qed.

(** ** [generateMaze] opens the exit *)

Lemma generateMaze_delivers run (m : MazeGenerator) (rs : RandomSource) :
  5 <= width m -> 5 <= height m ->
  builderDelivers run m rs ->
  ∃ m' rs', generateMaze run m rs = Some (m', rs')
            ∧ wellFormed m' ∧ pathCell m' (exitPosition m').
Proof.
  intros Hw Hh (g1 & rs1 & Hrun & Hg1 & Hu1 & Hcount). unfold generateMaze.
  rewrite Hrun. simpl.
  destruct (createExit_returns (withGrid (initializeMaze m) g1) Hw Hh rs1 Hg1 Hu1)
    as (m2 & rs2 & Hexit & Hwf2 & Hu2 & Hw2 & Hh2).
  rewrite Hexit. simpl.
  destruct (createExit_opens _ _ _ _ Hu1 Hexit) as [_ Hopen2].
  destruct (createExit_inv (withGrid (initializeMaze m) g1) _ _ _ Hg1 Hexit)
    as (_ & Hb2 & _).
  assert (5 <= width m2) as Hw2' by (rewrite Hw2; exact Hw).
  assert (5 <= height m2) as Hh2' by (rewrite Hh2; exact Hh).
  destruct (applyWaveFunctionCollapse_returns m2 Hw2' Hh2'
              (mazeGrid m2, rs2) (conj Hwf2 Hu2)) as ([g3 rs3] & E3 & Hg3 & Hu3).
  rewrite E3. simpl.
  apply applyWaveFunctionCollapse_closes in E3; [|done].
  destruct (ensureMazeIsSolvable_total (withGrid m2 g3) Hg3 Hb2) as (g4 & E4 & Hg4).
  rewrite E4. simpl. eexists _, _. split; [done|]. split; [exact Hg4|].
  assert (wallBudget m2 = wallBudget m) as Hbudget
    by (unfold wallBudget; rewrite Hw2, Hh2; done).
  destruct (two_paths_give_a_start (withGrid m2 g3) Hg3) as [s Hs].
  { unfold closesAtMost in *. cbn [fst snd mazeGrid withGrid] in *. lia. }
  apply (validation_exit (withGrid m2 g3)); [done..|].
  destruct (validation_connects (withGrid m2 g3) _ Hg3 Hb2 E4 s Hs) as [Hp _].
  eauto.
Qed.




(** * The exit after generation and after a firing

    Only an arch of [addArchitecturalFeatures] can wall the exit, and the
    validator opens it again from any path cell. *)

(** ** The corridors only open cells *)

Lemma widenInto_keeps_paths m c s s' :
  widenInto m c s = Some s' -> passKeepsPaths s s'.
Proof.
  unfold widenInto, passKeepsPaths. simpl.
  destruct (isInBounds m c); [|intros [= <-]; apply keepsPaths_refl].
  destruct (Qlt_bool _ _); [|intros [= <-]; apply keepsPaths_refl].
  destruct (writeCell _ _ _) as [g|] eqn:E; [|done].
  simpl. intros [= <-]. simpl. by eapply keepsPaths_writeCell.
Qed.

Lemma corridorCell_keeps_paths m startCell direction j s s' :
  corridorCell m startCell direction j s = Some s' -> passKeepsPaths s s'.
Proof.
  unfold corridorCell, passKeepsPaths. destruct direction as [dir|]; [|done].
  simpl.
  destruct (isInBounds m _); [|intros [= <-]; apply keepsPaths_refl].
  destruct (writeCell _ _ _) as [g|] eqn:E; [|done]. simpl.
  apply keepsPaths_writeCell in E.
  destruct (dir.1 =? 0).
  - destruct (widenInto m _ (g, s.2)) as [s1|] eqn:E1; [|done]. simpl.
    intros E2. apply widenInto_keeps_paths in E1, E2.
    eapply keepsPaths_trans; [exact E|]. eapply keepsPaths_trans; [exact E1|exact E2].
  - destruct (widenInto m _ (g, s.2)) as [s1|] eqn:E1; [|done]. simpl.
    intros E2. apply widenInto_keeps_paths in E1, E2.
    eapply keepsPaths_trans; [exact E|]. eapply keepsPaths_trans; [exact E1|exact E2].
Qed.

Lemma corridorStep_keeps_paths m s s' :
  corridorStep m s = Some s' -> passKeepsPaths s s'.
Proof.
  unfold corridorStep, passKeepsPaths. simpl.
  destruct (isPathAt _ _); [|intros [= <-]; apply keepsPaths_refl].
  intros Hloop.
  change (passKeepsPaths (s.1, fun n => s.2 (S (S (S (S n))))) s').
  revert Hloop. keeps_paths_loop. intros ? ? ?. apply corridorCell_keeps_paths.
Qed.

Lemma createWiderCorridors_keeps_paths m s s' :
  createWiderCorridors m s = Some s' -> passKeepsPaths s s'.
Proof.
  unfold createWiderCorridors.
  apply (repeatLoop_preserves passKeepsPaths);
    [intros ?; apply keepsPaths_refl
    |intros ? ? ?; apply keepsPaths_trans
    |apply corridorStep_keeps_paths].
Qed.

(** An invariant of the turns of a loop. *)
Lemma repeatLoop_invariant {S : Type} (I : S -> Prop) (body : S -> option S) :
  (∀ s s', I s -> body s = Some s' -> I s') ->
  ∀ n s s', I s -> repeatLoop n body s = Some s' -> I s'.
Proof.
  intros Hbody. induction n as [|n IH]; intros s s' Hs; simpl.
  - by intros [= <-].
  - destruct (body s) as [s1|] eqn:E; [|done]. simpl. intros Hrest.
    eapply IH; [|exact Hrest]. by eapply Hbody.
Qed.

(** ** The exit before the arches *)

(** A pillar of a chamber stands at 3 cells or more from the exit. *)
Lemma chamberPillar_far (m : MazeGenerator) (center c : Cell) (d1 d2 : Z) :
  25 <= distanceSquared center (exitPosition m) ->
  0 <= d1 <= 2 -> 0 <= d2 <= 2 ->
  c = (center.1 - 1 + d1, center.2 - 1 + d2) ->
  nearExit m c = false.
Proof.
  intros Hfar H1 H2 ->. unfold nearExit, distanceSquared in *. simpl.
  apply Z.ltb_ge. destruct (exitPosition m) as [ex ey]. simpl in *.
  set (a := center.1 - ex) in *. set (b := center.2 - ey) in *.
  replace (center.1 - 1 + d1 - ex) with (a + (d1 - 1)) by (unfold a; lia).
  replace (center.2 - 1 + d2 - ey) with (b + (d2 - 1)) by (unfold b; lia).
  clearbody a b.
  assert (∀ x, x <= -3 ∨ 3 <= x -> 9 <= x * x) as Hsq by (intros x [?|?]; nia).
  pose proof (Z.square_nonneg (a + (d1 - 1))) as Ha0.
  pose proof (Z.square_nonneg (b + (d2 - 1))) as Hb0.
  assert (a <= -4 ∨ 4 <= a ∨ -3 <= a <= 3) as [Ha|[Ha|Ha]] by lia;
    [pose proof (Hsq (a + (d1 - 1)) ltac:(lia)); lia..|].
  assert (b <= -4 ∨ 4 <= b ∨ -3 <= b <= 3) as [Hb|[Hb|Hb]] by lia;
    [pose proof (Hsq (b + (d2 - 1)) ltac:(lia)); lia..|].
  nia.
Qed.

Lemma chamberPillar_keeps_near (m : MazeGenerator) (center : Cell)
    (s s' : PassState) (c : Cell) :
  25 <= distanceSquared center (exitPosition m) ->
  unitSource s.2 -> chamberPillar m center s = Some s' ->
  nearExit m c = true ->
  unitSource s'.2 ∧ (readCell s.1 c = Some false -> readCell s'.1 c = Some false).
Proof.
  intros Hfar Hu. unfold chamberPillar. simpl.
  destruct (writeIfInBounds _ _ _ _) as [g|] eqn:E; [|done].
  simpl. intros [= <-] Hnear. simpl. split; [intros n; apply Hu|].
  unfold writeIfInBounds in E. destruct (isInBounds _ _); [|by injection E as <-].
  rewrite (readCell_writeCell _ _ _ _ _ E).
  rewrite decide_False; [done|]. intros ->.
  pose proof (randomInt_range (s.2 0%nat) 3 (Hu _) ltac:(lia)) as H1.
  pose proof (randomInt_range (s.2 1%nat) 3 (Hu _) ltac:(lia)) as H2.
  rewrite (chamberPillar_far m center _ (randomInt (s.2 0%nat) 3)
             (randomInt (s.2 1%nat) 3) Hfar ltac:(lia) ltac:(lia) eq_refl)
    in Hnear. done.
Qed.

Lemma clearChamber_keeps_paths m center cw ch g g' :
  clearChamber m center cw ch g = Some g' -> keepsPaths g g'.
Proof.
  keeps_paths_loop. intros x. keeps_paths_loop.
  intros y s s'. apply keepsPaths_writeIfInBounds.
Qed.

(** The chambers close no cell at less than 3 cells from the exit. *)
Lemma chamberStep_keeps_near (m : MazeGenerator) (s s' : PassState) (c : Cell) :
  nearExit m c = true ->
  unitSource s.2 ∧ readCell s.1 c = Some false ->
  chamberStep m s = Some s' ->
  unitSource s'.2 ∧ readCell s'.1 c = Some false.
Proof.
  intros Hnear [Hu Hc]. unfold chamberStep. simpl.
  set (center := (2 + randomInt (s.2 0%nat) (width m - 4),
                  2 + randomInt (s.2 1%nat) (height m - 4))).
  destruct (distanceSquared center (exitPosition m) <? 25) eqn:Hd.
  { intros [= <-]. split; [intros n; apply Hu|done]. }
  apply Z.ltb_ge in Hd.
  destruct (clearChamber _ _ _ _ _) as [g|] eqn:E; [|done]. simpl.
  apply clearChamber_keeps_paths in E. specialize (E c Hc).
  destruct (_ && _); [|intros [= <-]; split; [intros n; apply Hu|done]].
  apply (repeatLoop_invariant
           (fun s0 => unitSource s0.2 ∧ readCell s0.1 c = Some false)).
  - intros s0 s1 [Hu0 Hc0] Hstep.
    destruct (chamberPillar_keeps_near m center s0 s1 c Hd Hu0 Hstep Hnear)
      as [Hu1 Hkeep]. split; [done|by apply Hkeep].
  - split; [intros n; apply Hu|done].
Qed.

Lemma createChambers_keeps_near (m : MazeGenerator) (s s' : PassState) (c : Cell) :
  nearExit m c = true ->
  unitSource s.2 -> readCell s.1 c = Some false ->
  createChambers m s = Some s' ->
  unitSource s'.2 ∧ readCell s'.1 c = Some false.
Proof.
  intros Hnear Hu Hc. unfold createChambers. simpl.
  apply (repeatLoop_invariant
           (fun s0 => unitSource s0.2 ∧ readCell s0.1 c = Some false)).
  - intros s0 s1 H0 Hstep. by apply (chamberStep_keeps_near m s0 s1 c).
  - split; [intros n; apply Hu|done].
Qed.

(** The standalone pillars stand inside the grid, off its edge. *)
Lemma pillarStep_keeps_edge (m : MazeGenerator) (s s' : PassState) (c : Cell) :
  3 <= width m -> 3 <= height m -> onEdge m c ->
  unitSource s.2 ∧ readCell s.1 c = Some false ->
  pillarStep m s = Some s' ->
  unitSource s'.2 ∧ readCell s'.1 c = Some false.
Proof.
  intros Hw Hh Hedge [Hu Hc]. unfold pillarStep. simpl.
  destruct (_ && _); [|intros [= <-]; split; [intros n; apply Hu|done]].
  destruct (writeCell _ _ _) as [g|] eqn:E; [|done]. simpl.
  intros [= <-]. split; [intros n; apply Hu|]. simpl.
  rewrite (readCell_writeCell _ _ _ _ _ E). rewrite decide_False; [done|].
  intros ->. unfold onEdge in Hedge. simpl in Hedge.
  pose proof (randomInt_range (s.2 0%nat) (width m - 2) (Hu _) ltac:(lia)).
  pose proof (randomInt_range (s.2 1%nat) (height m - 2) (Hu _) ltac:(lia)).
  lia.
Qed.

(** ** The arches *)

Lemma openWithin_weaken m k k' g : k <= k' -> openWithin m k g -> openWithin m k' g.
Proof. intros Hk (c & Hc & Hd). exists c. split; [done|lia]. Qed.

(** An arch that closes a path cell opens the cell beside it. *)
Lemma archStep_openWithin (m : MazeGenerator) (k : Z) (s s' : PassState) :
  openWithin m k s.1 -> archStep m s = Some s' -> openWithin m (k + 1) s'.1.
Proof.
  intros (c & Hc & Hd). unfold archStep. simpl.
  set (x := 2 + randomInt (s.2 0%nat) (width m - 4)).
  set (y := 2 + randomInt (s.2 1%nat) (height m - 4)).
  destruct (_ && _);
    [|intros [= <-]; exists c; split; [done|lia]].
  destruct (randomInt (s.2 2%nat) 2 =? 0).
  - destruct (writeCell s.1 (x, y) true) as [g1|] eqn:E1; [|done]. simpl.
    destruct (writeCell g1 (x + 2, y) true) as [g2|] eqn:E2; [|done]. simpl.
    destruct (writeCell g2 (x + 1, y) false) as [g3|] eqn:E3; [|done]. simpl.
    intros [= <-]. simpl.
    destruct (decide (c = (x, y) ∨ c = (x + 2, y))) as [Hpillar|Hother].
    + exists (x + 1, y). rewrite (readCell_writeCell _ _ _ _ _ E3).
      rewrite decide_True by done. split; [done|].
      destruct Hpillar as [-> | ->]; simpl in *; lia.
    + exists c. split; [|lia].
      rewrite (readCell_writeCell _ _ _ _ _ E3). case_decide; [done|].
      rewrite (readCell_writeCell _ _ _ _ _ E2). rewrite decide_False by tauto.
      rewrite (readCell_writeCell _ _ _ _ _ E1). rewrite decide_False by tauto.
      done.
  - destruct (writeCell s.1 (x, y) true) as [g1|] eqn:E1; [|done]. simpl.
    destruct (writeCell g1 (x, y + 2) true) as [g2|] eqn:E2; [|done]. simpl.
    destruct (writeCell g2 (x, y + 1) false) as [g3|] eqn:E3; [|done]. simpl.
    intros [= <-]. simpl.
    destruct (decide (c = (x, y) ∨ c = (x, y + 2))) as [Hpillar|Hother].
    + exists (x, y + 1). rewrite (readCell_writeCell _ _ _ _ _ E3).
      rewrite decide_True by done. split; [done|].
      destruct Hpillar as [-> | ->]; simpl in *; lia.
    + exists c. split; [|lia].
      rewrite (readCell_writeCell _ _ _ _ _ E3). case_decide; [done|].
      rewrite (readCell_writeCell _ _ _ _ _ E2). rewrite decide_False by tauto.
      rewrite (readCell_writeCell _ _ _ _ _ E1). rewrite decide_False by tauto.
      done.
Qed.

Lemma arches_openWithin (m : MazeGenerator) : ∀ (n : nat) (k : Z) (s s' : PassState),
  openWithin m k s.1 -> repeatLoop n (archStep m) s = Some s' ->
  openWithin m (k + Z.of_nat n) s'.1.
Proof.
  induction n as [|n IH]; intros k s s' Hk; simpl.
  - intros [= <-]. eapply openWithin_weaken; [|exact Hk]. lia.
  - destruct (archStep m s) as [s1|] eqn:E; [|done]. simpl. intros Hrest.
    apply (archStep_openWithin m k) in E; [|done].
    apply (IH (k + 1) s1 s' E) in Hrest.
    eapply openWithin_weaken; [|exact Hrest]. lia.
Qed.

(** Two steps from the exit is less than 3 cells from it. *)
Lemma openWithin_near (m : MazeGenerator) (g : Grid) :
  openWithin m 2 g -> ∃ c, readCell g c = Some false ∧ nearExit m c = true.
Proof.
  intros (c & Hc & Hd). exists c. split; [done|].
  unfold nearExit, distanceSquared. apply Z.ltb_lt. nia.
Qed.

(** ** [createExit] puts the exit on the border and opens it *)

Lemma chooseExit_edge (m : MazeGenerator) (rs : RandomSource) :
  unitSource rs ->
  (chooseExit m rs).1.1 = 0 ∨ (chooseExit m rs).1.1 = width m - 1
  ∨ (chooseExit m rs).1.2 = 0 ∨ (chooseExit m rs).1.2 = height m - 1.
Proof.
  intros Hu. unfold chooseExit. simpl.
  pose proof (randomInt_range (rs 0%nat) 4 (Hu _) ltac:(lia)) as Hside.
  destruct (randomInt (rs 0%nat) 4) as [|[[|[]|]|[|[]|]|]|]; try lia; simpl; auto.
Qed.

Lemma createExit_edge (m m' : MazeGenerator) (rs rs' : RandomSource) :
  unitSource rs ->
  createExit m rs = Some (m', rs') ->
  onEdge m' (exitPosition m')
  ∧ readCell (mazeGrid m') (exitPosition m') = Some false.
Proof.
  intros Hu. unfold createExit.
  pose proof (chooseExit_edge m rs Hu) as Hedge.
  destruct (chooseExit m rs) as [e rs1].
  destruct (writeCell (mazeGrid m) e false) as [g1|] eqn:E1; [|done]. simpl.
  destruct (writeCell g1 _ false) as [g2|] eqn:E2; [|done]. simpl.
  intros [= <- <-]. simpl. split; [exact Hedge|].
  rewrite (readCell_writeCell _ _ _ e _ E2).
  destruct (decide _); [done|].
  rewrite (readCell_writeCell _ _ _ e _ E1). by rewrite decide_True.
Qed.

(** ** The passes up to the noise leave an opening near the exit *)

Lemma addArchitecturalFeatures_openWithin (m : MazeGenerator) (s s' : PassState) :
  3 <= width m -> 3 <= height m ->
  onEdge m (exitPosition m) ->
  unitSource s.2 -> readCell s.1 (exitPosition m) = Some false ->
  addArchitecturalFeatures m s = Some s' ->
  openWithin m (Z.of_nat (Z.to_nat (width m * height m / 60))) s'.1.
Proof.
  intros Hw Hh Hedge Hu Hopen. unfold addArchitecturalFeatures.
  destruct (repeatLoop _ (pillarStep m) s) as [s1|] eqn:E1; [|done]. simpl.
  intros E2.
  apply (repeatLoop_invariant
           (fun s => unitSource s.2 ∧ readCell s.1 (exitPosition m) = Some false)
           (pillarStep m)) in E1 as [_ Hopen1]; [| |done].
  - apply (arches_openWithin m _ 0 s1 s' ) in E2; [done|].
    exists (exitPosition m). split; [done|lia].
  - intros s0 s0' Hs0. by apply pillarStep_keeps_edge.
Qed.

Lemma applyWaveFunctionCollapse_keeps_an_opening (m : MazeGenerator)
    (s s' : PassState) :
  3 <= width m -> 3 <= height m -> width m * height m < 180 ->
  onEdge m (exitPosition m) ->
  unitSource s.2 -> readCell s.1 (exitPosition m) = Some false ->
  applyWaveFunctionCollapse m s = Some s' ->
  ∃ c, readCell s'.1 c = Some false.
Proof.
  intros Hw Hh Hsmall Hedge Hu Hopen. unfold applyWaveFunctionCollapse.
  destruct (createChambers m s) as [s1|] eqn:E1; [|done]. simpl.
  destruct (addArchitecturalFeatures m s1) as [s2|] eqn:E2; [|done]. simpl.
  destruct (createWiderCorridors m s2) as [s3|] eqn:E3; [|done]. simpl.
  intros E4.
  destruct (createChambers_keeps_near m s s1 (exitPosition m)
              (nearExit_exit m) Hu Hopen E1) as [Hu1 Hopen1].
  apply addArchitecturalFeatures_openWithin in E2; [|done..].
  apply (openWithin_weaken m _ 2) in E2.
  2:{ assert (width m * height m / 60 <= 2)
        by (apply Z.lt_succ_r, Z.div_lt_upper_bound; lia).
      lia. }
  apply openWithin_near in E2 as (c & Hc & Hnear).
  apply createWiderCorridors_keeps_paths in E3.
  apply addRandomVariations_sameNearExit in E4.
  exists c. rewrite (E4 c Hnear). by apply E3.
Qed.

(** ** [generateMaze] on a grid of fewer than 180 cells *)

Lemma generateMaze_small_grid run (m : MazeGenerator) (rs : RandomSource) :
  5 <= width m -> 5 <= height m -> width m * height m < 180 ->
  builderReturns run m rs ->
  ∃ m' rs', generateMaze run m rs = Some (m', rs')
            ∧ wellFormed m' ∧ pathCell m' (exitPosition m').
Proof.
  intros Hw Hh Hsmall (g1 & rs1 & Hrun & Hg1 & Hu1). unfold generateMaze.
  rewrite Hrun. simpl.
  destruct (createExit_returns (withGrid (initializeMaze m) g1) Hw Hh rs1 Hg1 Hu1)
    as (m2 & rs2 & Hexit & Hwf2 & Hu2 & Hw2 & Hh2).
  rewrite Hexit. simpl.
  destruct (createExit_edge _ _ _ _ Hu1 Hexit) as [Hedge2 Hopen2].
  destruct (createExit_inv (withGrid (initializeMaze m) g1) _ _ _ Hg1 Hexit)
    as (_ & Hb2 & _).
  simpl in Hw2, Hh2.
  assert (5 <= width m2) as Hw2' by (rewrite Hw2; exact Hw).
  assert (5 <= height m2) as Hh2' by (rewrite Hh2; exact Hh).
  destruct (applyWaveFunctionCollapse_returns m2 Hw2' Hh2'
              (mazeGrid m2, rs2) (conj Hwf2 Hu2)) as ([g3 rs3] & E3 & Hg3 & Hu3).
  rewrite E3. simpl.
  apply applyWaveFunctionCollapse_keeps_an_opening in E3 as (c & Hc);
    [|first [lia|done|by rewrite Hw2, Hh2]..].
  destruct (ensureMazeIsSolvable_total (withGrid m2 g3) Hg3 Hb2) as (g4 & E4 & Hg4).
  rewrite E4. simpl. eexists _, _. split; [done|]. split; [exact Hg4|].
  apply (validation_exit (withGrid m2 g3)); [done..|].
  exists c. apply ensureMazeIsSolvable_keeps_paths in E4 as (g' & Heq & Hkeep).
  rewrite Heq. apply pathCell_withGrid. simpl in *. split; [|by apply Hkeep].
  apply isInBounds_spec. simpl.
  apply (readCell_in_grid _ _ g3 c Hg3). eauto.
Qed.

(** ** The exit is a path unless the maze has no path at all *)




(** ** The columns of the geometric builder *)

Lemma carveColumns_opens (columns rows : list Z) (g g' : Grid) :
  forEach columns (fun x => forEach rows (fun y g => writeCell g (x, y) false)) g
  = Some g' ->
  keepsPaths g g'
  ∧ ∀ x y, In x columns -> In y rows -> readCell g' (x, y) = Some false.
Proof.
  intros H.
  apply (forEach_opens _ (fun x g => ∀ y, In y rows -> readCell g (x, y) = Some false))
    in H as [Hkeep Hcols].
  - split; [done|]. intros x y Hx Hy. by apply Hcols.
  - intros x g0 g1.
    apply (forEach_opens _ (fun y g => readCell g (x, y) = Some false)).
    + intros y g2 g3 Hw. split; [by eapply keepsPaths_writeCell|].
      rewrite (readCell_writeCell _ _ _ _ _ Hw). by rewrite decide_True.
    + intros y g2 g3 Hk. apply Hk.
  - intros x g0 g1 Hk Hcol y Hy. by apply Hk, Hcol.
Qed.

Lemma generateGeometricPattern_carves_columns (m : MazeGenerator)
    (rs rs' : RandomSource) g :
  unitSource rs ->
  generateGeometricPattern m rs = Some (g, rs') ->
  (Z.to_nat ((width m - 1) / 3) * Z.to_nat (height m) <= pathCount g)%nat.
Proof.
  intros Hu. unfold generateGeometricPattern.
  destruct (forEach _ _ (filledGrid _ _ _)) as [g1|] eqn:E1; [|done]. simpl.
  destruct (forEach _ _ g1) as [g2|] eqn:E2; [|done]. simpl.
  destruct (forEach _ (diagonalConnection m) g2) as [g3|] eqn:E3; [|done]. simpl.
  destruct (forEach _ (zigzag m) g3) as [g4|] eqn:E4; [|done]. simpl.
  intros E5.
  apply carveColumns_opens in E2 as [_ Hcols].
  assert (keepsPaths g2 g3) as H3.
  { revert E3. keeps_paths_loop. intros i ? ?. apply diagonalConnection_keeps_paths. }
  assert (keepsPaths g3 g4) as H4.
  { revert E4. keeps_paths_loop. intros i ? ?. apply zigzag_keeps_paths. }
  assert (opensAndDraws (g4, rs) (g, rs')) as H5.
  { revert E5.
    apply (forEach_preserves opensAndDraws);
      [apply opensAndDraws_refl|apply opensAndDraws_trans|].
    intros y.
    apply (forEach_preserves opensAndDraws);
      [apply opensAndDraws_refl|apply opensAndDraws_trans|].
    intros x s s' E Hs. by eapply junction_keeps_paths. }
  destruct (H5 Hu) as [_ H5'].
  set (cells := map (fun c : Cell => (c.2, c.1))
                    (rowCells (seqZ 0 (height m))
                              (steps gridSpacing gridSpacing (width m)))).
  assert (length cells
          = (Z.to_nat ((width m - 1) / 3) * Z.to_nat (height m))%nat) as <-.
  { unfold cells. rewrite length_map, rowCells_length. unfold steps, gridSpacing.
    rewrite length_map, !length_seqZ. do 3 f_equal. lia. }
  apply pathCount_lower_bound.
  - assert (Inj (=) (=) (fun c : Cell => (c.2, c.1)))
      by (intros [a b] [a' b'] [= -> ->]; done).
    apply (NoDup_fmap_2 (fun c : Cell => (c.2, c.1))).
    apply rowCells_NoDup; [apply NoDup_seqZ|]. by apply steps_NoDup.
  - intros c Hc. apply in_map_iff in Hc as ([y x] & <- & Hc). simpl.
    unfold rowCells in Hc. apply in_flat_map in Hc as (x' & Hx & Hc).
    apply in_map_iff in Hc as (y' & [= -> ->] & Hy).
    by apply H5', H4, H3, Hcols.
Qed.

(** On a grid of 180 cells or more the rows or the columns of the
    geometric pattern outnumber the cells the passes can close. *)
Lemma lines_exceed_the_budget (m : MazeGenerator) :
  5 <= width m -> 5 <= height m -> 180 <= width m * height m ->
  (wallBudget m + 2
   <= Nat.max (Z.to_nat ((height m - 1) / 3) * Z.to_nat (width m))
              (Z.to_nat ((width m - 1) / 3) * Z.to_nat (height m)))%nat.
Proof.
  intros Hw Hh Hbig. unfold wallBudget.
  set (w := width m) in *. set (h := height m) in *.
  pose proof (Z.mul_div_le (w * h) 40 ltac:(lia)).
  pose proof (Z.mul_div_le (w * h) 60 ltac:(lia)).
  pose proof (Z.mul_div_le (w * h) 10 ltac:(lia)).
  pose proof (Z.div_pos (w * h) 40 ltac:(lia) ltac:(lia)).
  pose proof (Z.div_pos (w * h) 60 ltac:(lia) ltac:(lia)).
  pose proof (Z.div_pos (w * h) 10 ltac:(lia) ltac:(lia)).
  assert (h - 3 <= 3 * ((h - 1) / 3)).
  { pose proof (Z.div_mod (h - 1) 3 ltac:(lia)).
    pose proof (Z.mod_pos_bound (h - 1) 3 ltac:(lia)). lia. }
  assert (w - 3 <= 3 * ((w - 1) / 3)).
  { pose proof (Z.div_mod (w - 1) 3 ltac:(lia)).
    pose proof (Z.mod_pos_bound (w - 1) 3 ltac:(lia)). lia. }
  assert (0 <= (h - 1) / 3) by (apply Z.div_pos; lia).
  assert (0 <= (w - 1) / 3) by (apply Z.div_pos; lia).
  rewrite <- !Z2Nat.inj_mul by lia.
  set (f40 := w * h / 40) in *. set (f60 := w * h / 60) in *.
  set (f10 := w * h / 10) in *.
  set (r := (h - 1) / 3) in *. set (c := (w - 1) / 3) in *.
  assert (120 * (10 + f40 + 2 * f60 + f10) <= 1200 + 19 * (w * h)) as Hbudget by lia.
  destruct (Z.le_ge_cases w h) as [Hle|Hle].
  - etransitivity; [|apply Nat.le_max_l].
    apply Nat2Z.inj_le.
    rewrite !Nat2Z.inj_add, Nat2Z.inj_mul, !Z2Nat.id by nia.
    change (Z.of_nat 8) with 8. change (Z.of_nat 2) with 2.
    assert (40 * (w * h) - 120 * w <= 120 * (r * w)) by nia.
    assert (400 + 40 * w <= 7 * (w * h)).
    { destruct (Z.le_gt_cases w 21); [lia|]. nia. }
    lia.
  - etransitivity; [|apply Nat.le_max_r].
    apply Nat2Z.inj_le.
    rewrite !Nat2Z.inj_add, Nat2Z.inj_mul, !Z2Nat.id by nia.
    change (Z.of_nat 8) with 8. change (Z.of_nat 2) with 2.
    assert (40 * (w * h) - 120 * h <= 120 * (c * h)) by nia.
    assert (400 + 40 * h <= 7 * (w * h)).
    { destruct (Z.le_gt_cases h 21); [lia|]. nia. }
    lia.
Qed.

Lemma geometric_builder_delivers_on_large_grids other (m : MazeGenerator)
    (rs : RandomSource) :
  5 <= width m -> 5 <= height m -> 180 <= width m * height m ->
  selectedStrategy m = Geometric ->
  unitSource rs ->
  builderDelivers (patternBuilders other) m rs.
Proof.
  intros Hw Hh Hbig Hsel Hu. unfold builderDelivers.
  change (selectedStrategy (initializeMaze m)) with (selectedStrategy m).
  rewrite Hsel. simpl.
  destruct (generateGeometricPattern_returns (initializeMaze m)
              ltac:(simpl; lia) ltac:(simpl; lia) rs Hu) as (g & rs1 & Hrun & Hg & Hu1).
  exists g, rs1. split; [done|]. split; [done|]. split; [done|].
  pose proof (generateGeometricPattern_carves _ _ _ _ Hu Hrun) as [_ Hrows].
  pose proof (generateGeometricPattern_carves_columns _ _ _ _ Hu Hrun) as Hcols.
  pose proof (lines_exceed_the_budget m Hw Hh Hbig) as Hlines.
  change (width (initializeMaze m)) with (width m) in Hrows, Hcols.
  change (height (initializeMaze m)) with (height m) in Hrows, Hcols.
  eapply Nat.le_trans; [exact Hlines|]. by apply Nat.max_lub.
Qed.

Lemma geometric_builder_returns other (m : MazeGenerator) (rs : RandomSource) :
  5 <= width m -> 5 <= height m ->
  selectedStrategy m = Geometric ->
  unitSource rs ->
  builderReturns (patternBuilders other) m rs.
Proof.
  intros Hw Hh Hsel Hu. unfold builderReturns.
  change (selectedStrategy (initializeMaze m)) with (selectedStrategy m).
  rewrite Hsel. simpl.
  apply (generateGeometricPattern_returns (initializeMaze m)); [simpl; lia..|done].
Qed.

(** The builder behind [patternType = 0]: the exit is a path cell after
    [generateMaze] on every grid of 5 by 5 cells or more. *)
Lemma geometric_generation_opens_every_exit other (m : MazeGenerator)
    (rs : RandomSource) :
  5 <= width m -> 5 <= height m ->
  selectedStrategy m = Geometric ->
  unitSource rs ->
  ∃ m' rs', generateMaze (patternBuilders other) m rs = Some (m', rs')
            ∧ wellFormed m' ∧ pathCell m' (exitPosition m').
Proof.
  intros Hw Hh Hsel Hu.
  destruct (Z.lt_ge_cases (width m * height m) 180) as [Hsmall|Hbig].
  - apply generateMaze_small_grid; [done..|].
    by apply geometric_builder_returns.
  - apply generateMaze_delivers; [done..|].
    by apply geometric_builder_delivers_on_large_grids.
Qed.

(** * The claims *)

(** C5.  When the search from the probe start does not reach the exit,
    [ensureMazeIsSolvable] runs [createPathToExit], which succeeds and
    carves exactly the L-shaped corridor: afterwards every cell of the
    start's row between the start's column and the exit's, and every cell
    of the exit's column between the start's row and the exit's, is a path;
    every other cell is as before; and the start reaches the exit. *)
Theorem repair_carves_the_corridor (m : MazeGenerator) (s : Cell) :
  wellFormed m ->
  isInBounds m (exitPosition m) = true ->
  findStartCell m = Some s ->
  ¬ reaches m s (exitPosition m) ->
  ∃ m', ensureMazeIsSolvable m = Some m'
        ∧ createPathToExit m s = Some m'
        ∧ wellFormed m'
        ∧ exitPosition m' = exitPosition m
        ∧ (∀ c, onCorridor s (exitPosition m) c -> pathCell m' c)
        ∧ (∀ c, ¬ onCorridor s (exitPosition m) c ->
                readCell (mazeGrid m') c = readCell (mazeGrid m) c)
        ∧ reaches m' s (exitPosition m').
Proof.
  intros Hwf He Hs Hno.
  destruct (findStartCell_Some _ _ Hs) as (Hb & Hp & Hne).
  destruct (createPathToExit_spec m s Hwf Hb He)
    as (g' & Hc & Hd & Hopen & Hrest & Hstart).
  exists (withGrid m g'). split; [|split; [done|split; [done|split; [done|]]]].
  - unfold ensureMazeIsSolvable. rewrite Hs.
    destruct (searchFrom_total m s Hb) as [[|] Hf]; rewrite Hf; simpl; [|done].
    destruct Hno. by apply searchFrom_true_reaches.
  - split; [|split; [done|exact (createPathToExit_connects m s g' Hb He Hopen)]].
    intros c Hon. apply pathCell_withGrid.
    assert (isInBounds m c = true) as Hcb.
    { apply isInBounds_spec. apply isInBounds_spec in Hb, He.
      destruct Hon as [[-> Hbt]|[-> Hbt]]; unfold between in Hbt; lia. }
    split; [done|]. destruct (decide (c = s)) as [->|Hcs]; [|by apply Hopen].
    rewrite Hstart. by apply isPathAt_pathCell.
Qed.

Lemma repair_carves_the_corridor_witness :
  ∃ m', ensureMazeIsSolvable walledExitMaze = Some m'
        ∧ createPathToExit walledExitMaze (1, 1) = Some m'
        ∧ wellFormed m'
        ∧ exitPosition m' = exitPosition walledExitMaze
        ∧ (∀ c, onCorridor (1, 1) (exitPosition walledExitMaze) c -> pathCell m' c)
        ∧ (∀ c, ¬ onCorridor (1, 1) (exitPosition walledExitMaze) c ->
                readCell (mazeGrid m') c = readCell (mazeGrid walledExitMaze) c)
        ∧ reaches m' (1, 1) (exitPosition m').
Proof.
  apply (repair_carves_the_corridor walledExitMaze (1, 1)).
  - apply gridHasDimsb_true. vm_compute. reflexivity.
  - vm_compute. reflexivity.
  - vm_compute. reflexivity.
  - apply searchFrom_false_unreachable; vm_compute; reflexivity.
Defined.

(** C10.  [ensureMazeIsSolvable], the repair included, never turns a
    path cell into a wall: whatever grid it is given, every path cell of
    that grid is a path cell of the grid it leaves.  And it does return on
    every [width] by [height] grid whose exit is in bounds. *)
Theorem validation_never_closes_a_path (m : MazeGenerator) :
  (∀ m', ensureMazeIsSolvable m = Some m' ->
         ∀ c, pathCell m c -> pathCell m' c)
  ∧ (wellFormed m -> isInBounds m (exitPosition m) = true ->
     ∃ m', ensureMazeIsSolvable m = Some m').
Proof.
  split.
  - intros m' Hg c [Hb Hc].
    apply ensureMazeIsSolvable_keeps_paths in Hg as (g2 & -> & Hkeep).
    apply pathCell_withGrid. split; [done|by apply Hkeep].
  - intros Hwf He.
    destruct (ensureMazeIsSolvable_total m Hwf He) as (g' & Hg & _). eauto.
Qed.

Lemma validation_never_closes_a_path_witness :
  (∃ m', ensureMazeIsSolvable walledExitMaze = Some m')
  ∧ pathCell walledExitMaze (1, 1)
  ∧ pathCell (mazeOf 5 5 (4, 4)
                [(1, 1); (2, 1); (3, 1); (4, 1); (4, 2); (4, 3); (4, 4)] 60)
             (1, 1).
Proof.
  destruct (validation_never_closes_a_path walledExitMaze) as [Hkeep Htotal].
  assert (pathCell walledExitMaze (1, 1)) as Hp by (split; vm_compute; reflexivity).
  split; [|split; [exact Hp|]].
  - apply Htotal; [apply gridHasDimsb_true|]; vm_compute; reflexivity.
  - apply (Hkeep _ ltac:(vm_compute; reflexivity) (1, 1) Hp).
Defined.

(** C6.  On a maze whose every path cell reaches the exit, the validator
    changes nothing: it returns the object it was given. *)
Theorem validation_is_idempotent_on_solvable_mazes (m : MazeGenerator) :
  wellFormed m ->
  solvableFromEverywhere m ->
  ensureMazeIsSolvable m = Some m.
Proof. apply ensureMazeIsSolvable_unchanged. Qed.

Lemma validation_is_idempotent_on_solvable_mazes_witness :
  ensureMazeIsSolvable junctionMaze = Some junctionMaze.
Proof.
  assert (wellFormed junctionMaze) as Hwf
    by (apply gridHasDimsb_true; vm_compute; reflexivity).
  apply (validation_is_idempotent_on_solvable_mazes junctionMaze Hwf).
  apply solvableFromEverywhereb_true; [exact Hwf|]. vm_compute. reflexivity.
Defined.

(** C4, as the code has it.  The conversions of a shift firing are the
    entries of [wallsToShift], collected by a scan that only reads the
    grid and applied, all of them, once the scan is over.  A cell they
    change was a wall with at most 2 open neighbours and is now a path,
    or was a path with at least 3 open neighbours and is now a wall, the
    neighbours being counted on the grid as it stood before the firing.
    The re-validation that ends the firing counts nothing: what it
    changes is a wall on the corridor from its probe start to the exit,
    which it opens. *)
Theorem shift_conversions_respect_neighbour_counts
    (m : MazeGenerator) (rs : RandomSource) :
  wellFormed m ->
  ∃ m1 rs',
    shiftBatch m rs = Some (m1, rs')
    ∧ shiftMazeWalls m rs = (m2 ← ensureMazeIsSolvable m1; Some (m2, rs'))
    ∧ (∀ w, In w (collectShifts m rs).1 ->
            readCell (mazeGrid m1) (shiftCell w) = Some (toWall w))
    ∧ (∀ c, readCell (mazeGrid m1) c ≠ readCell (mazeGrid m) c ->
            (readCell (mazeGrid m) c = Some true
             ∧ readCell (mazeGrid m1) c = Some false
             ∧ countAdjacentPaths m (mazeGrid m) c <= 2)
            ∨ (readCell (mazeGrid m) c = Some false
               ∧ readCell (mazeGrid m1) c = Some true
               ∧ 3 <= countAdjacentPaths m (mazeGrid m) c))
    ∧ (isInBounds m (exitPosition m) = true ->
       ∃ m2, ensureMazeIsSolvable m1 = Some m2
             ∧ ∀ c, readCell (mazeGrid m2) c ≠ readCell (mazeGrid m1) c ->
                    readCell (mazeGrid m1) c = Some true
                    ∧ readCell (mazeGrid m2) c = Some false
                    ∧ ∃ s, findStartCell m1 = Some s
                           ∧ onCorridor s (exitPosition m) c).
Proof.
  intros Hwf. destruct (shiftBatch_total m rs Hwf) as (g' & rs' & Hb & Hd).
  exists (withGrid m g'), rs'. split; [done|]. split.
  { unfold shiftMazeWalls. rewrite Hb. done. }
  split.
  { intros w Hw. destruct (shiftBatch_inv _ _ _ _ Hb) as (g2 & Heq & Happly).
    injection Heq as <-. simpl.
    destruct (applyShifts_written _ _ _ Happly w Hw) as (w' & Hin' & Hc & ->).
    f_equal. rewrite (eligibleShift_toWall m w), (eligibleShift_toWall m w');
      [by rewrite Hc|by apply (collectShifts_eligible m rs)..]. }
  split.
  { intros c Hc.
    destruct (shiftBatch_changes _ _ _ _ Hb c Hc)
      as ([c' tw] & (Hin & Hnear & Hel) & Hcell & Hnew).
    simpl in *. subst c'. destruct tw.
    - right. destruct Hel as [Hwall Hcount]. split; [|done].
      apply (unvisited_is_unmarked m); [exact Hwf| |exact Hwall].
      apply interiorCells_spec in Hin. apply isInBounds_spec. lia.
    - left. destruct Hel as [Hwall Hcount]. split; [|done].
      by apply truthyAt_true. }
  intros He. exact (ensureMazeIsSolvable_changes (withGrid m g') Hd He).
Qed.

(** The firing of [crowdedMaze] that walls the crossing (3,3) and is
    repaired from the probe start (1,1). *)
Lemma shift_conversions_respect_neighbour_counts_witness :
  ∃ m1 rs' m2,
    shiftBatch crowdedMaze (drawsExcept 12) = Some (m1, rs')
    ∧ shiftMazeWalls crowdedMaze (drawsExcept 12) = Some (m2, rs')
    ∧ ensureMazeIsSolvable m1 = Some m2
    ∧ (∀ w, In w (collectShifts crowdedMaze (drawsExcept 12)).1 ->
            readCell (mazeGrid m1) (shiftCell w) = Some (toWall w))
    ∧ (∀ c, readCell (mazeGrid m1) c ≠ readCell (mazeGrid crowdedMaze) c ->
            (readCell (mazeGrid crowdedMaze) c = Some true
             ∧ readCell (mazeGrid m1) c = Some false
             ∧ countAdjacentPaths crowdedMaze (mazeGrid crowdedMaze) c <= 2)
            ∨ (readCell (mazeGrid crowdedMaze) c = Some false
               ∧ readCell (mazeGrid m1) c = Some true
               ∧ 3 <= countAdjacentPaths crowdedMaze (mazeGrid crowdedMaze) c))
    ∧ (∀ c, readCell (mazeGrid m2) c ≠ readCell (mazeGrid m1) c ->
            readCell (mazeGrid m1) c = Some true
            ∧ readCell (mazeGrid m2) c = Some false
            ∧ ∃ s, findStartCell m1 = Some s
                   ∧ onCorridor s (exitPosition crowdedMaze) c).
Proof.
  destruct (shift_conversions_respect_neighbour_counts crowdedMaze (drawsExcept 12))
    as (m1 & rs' & Hbatch & Hshift & Hall & Hcount & Hrepair).
  { apply gridHasDimsb_true. vm_compute. reflexivity. }
  destruct Hrepair as (m2 & Hm2 & Hchanged); [vm_compute; reflexivity|].
  exists m1, rs', m2. split; [exact Hbatch|]. split.
  { rewrite Hshift, Hm2. reflexivity. }
  split; [exact Hm2|]. split; [exact Hall|]. split; [exact Hcount|exact Hchanged].
Defined.

(** C4 fails as stated.  In this firing the batch walls the crossing
    (3,3), the probe start (1,1) has lost the exit, and the repair opens
    the wall (3,1), which had three open neighbours before the firing. *)
Lemma repair_opens_a_crowded_wall :
  (collectShifts crowdedMaze (drawsExcept 12)).1 = [mkWallShift (3, 3) true]
  ∧ readCell (mazeGrid crowdedMaze) (3, 1) = Some true
  ∧ countAdjacentPaths crowdedMaze (mazeGrid crowdedMaze) (3, 1) = 3
  ∧ ∃ m' rs', shiftMazeWalls crowdedMaze (drawsExcept 12) = Some (m', rs')
              ∧ readCell (mazeGrid m') (3, 1) = Some false.
Proof.
  do 3 (split; [vm_compute; reflexivity|]).
  eexists _, _. split; vm_compute; reflexivity.
Qed.

(** A firing of [junctionMaze] converts one cell: the crossing (4,3), a
    path with four open neighbours, becomes a wall. *)
Example junction_is_walled :
  (collectShifts junctionMaze (drawsExcept 7)).1 = [mkWallShift (4, 3) true]
  ∧ countAdjacentPaths junctionMaze (mazeGrid junctionMaze) (4, 3) = 4.
Proof. split; vm_compute; reflexivity. Qed.

(** C3, as the code has it.  The noise pass and the conversions of a shift
    firing leave every cell at distance below 3 from the exit as it was. *)
Theorem noise_and_shift_conversions_spare_the_exit_zone
    (m : MazeGenerator) (c : Cell) :
  nearExit m c = true ->
  (∀ s s', addRandomVariations m s = Some s' -> readCell s'.1 c = readCell s.1 c)
  ∧ (∀ rs m1 rs', shiftBatch m rs = Some (m1, rs') ->
                  readCell (mazeGrid m1) c = readCell (mazeGrid m) c).
Proof.
  intros Hnear. split.
  - intros s s' H. by apply (addRandomVariations_sameNearExit m s s' H).
  - intros rs m1 rs' H. by eapply shiftBatch_sameNearExit.
Qed.

Lemma noise_and_shift_conversions_spare_the_exit_zone_witness :
  (∀ s s', addRandomVariations junctionMaze s = Some s' ->
           readCell s'.1 (2, 3) = readCell s.1 (2, 3))
  ∧ (∀ rs m1 rs', shiftBatch junctionMaze rs = Some (m1, rs') ->
                  readCell (mazeGrid m1) (2, 3)
                  = readCell (mazeGrid junctionMaze) (2, 3)).
Proof.
  apply (noise_and_shift_conversions_spare_the_exit_zone junctionMaze (2, 3)).
  vm_compute. reflexivity.
Defined.

(** C3 fails as stated.  The chambers pass opens the wall (2,6), at
    distance below 3 from the exit (0,5); the features pass walls the exit
    (7,3) itself; the corridor pass opens the wall (5,4) next to the exit
    (7,3); and a shift firing, through the repair of its re-validation,
    opens the wall (6,2) next to the exit (6,3). *)
Lemma exit_zone_is_changed :
  (∃ s', createChambers chamberMaze (mazeGrid chamberMaze, chamberDraws) = Some s'
         ∧ nearExit chamberMaze (2, 6) = true
         ∧ readCell (mazeGrid chamberMaze) (2, 6) = Some true
         ∧ readCell s'.1 (2, 6) = Some false)
  ∧ (∃ s', addArchitecturalFeatures archMaze (mazeGrid archMaze, archDraws) = Some s'
           ∧ nearExit archMaze (7, 3) = true
           ∧ readCell (mazeGrid archMaze) (7, 3) = Some false
           ∧ readCell s'.1 (7, 3) = Some true)
  ∧ (∃ s', createWiderCorridors archMaze (mazeGrid archMaze, corridorDraws) = Some s'
           ∧ nearExit archMaze (5, 4) = true
           ∧ readCell (mazeGrid archMaze) (5, 4) = Some true
           ∧ readCell s'.1 (5, 4) = Some false)
  ∧ (∃ m' rs', shiftMazeWalls bridgeMaze (drawsExcept 12) = Some (m', rs')
               ∧ nearExit bridgeMaze (6, 2) = true
               ∧ readCell (mazeGrid bridgeMaze) (6, 2) = Some true
               ∧ readCell (mazeGrid m') (6, 2) = Some false).
Proof.
  split; [|split; [|split]].
  - eexists. split; [vm_compute; reflexivity|]. repeat split; vm_compute; reflexivity.
  - eexists. split; [vm_compute; reflexivity|]. repeat split; vm_compute; reflexivity.
  - eexists. split; [vm_compute; reflexivity|]. repeat split; vm_compute; reflexivity.
  - eexists _, _. split; [vm_compute; reflexivity|].
    repeat split; vm_compute; reflexivity.
Qed.

(** C1, as the code has it.  [generateMaze] and [shiftMazeWalls] end with
    the validator, and the validator's own check holds of the maze they
    leave: its first path cell other than the exit, in the order of the
    scan, reaches the exit. *)
Theorem probe_start_reaches_the_exit
    (run : Strategy -> MazeGenerator -> RandomSource -> option (Grid * RandomSource))
    (m m' : MazeGenerator) (rs rs' : RandomSource) :
  buildersAllocate run ->
  generateMaze run m rs = Some (m', rs')
  ∨ (wellFormed m ∧ isInBounds m (exitPosition m) = true
     ∧ shiftMazeWalls m rs = Some (m', rs')) ->
  ∀ s, findStartCell m' = Some s ->
       pathCell m' s
       ∧ reaches m' s (exitPosition m')
       ∧ searchFrom m' s = Some true.
Proof.
  intros Hrun Hrun' s Hs.
  assert (pathCell m' s ∧ reaches m' s (exitPosition m')) as [Hp Hr].
  { destruct Hrun' as [Hgen|(Hwf & He & Hshift)].
    - destruct (generateMaze_inv _ _ _ _ _ Hrun Hgen) as (m3 & Hwf3 & Hb3 & He3).
      by apply (validation_result_probe m3).
    - destruct (shiftMazeWalls_inv _ _ _ _ Hshift) as (m1 & Hb & He1).
      destruct (shiftBatch_wellFormed _ _ _ _ Hwf Hb) as (Hwf1 & Hex & Hw & Hh).
      apply (validation_result_probe m1); [done| |done..].
      rewrite Hex. apply isInBounds_spec. apply isInBounds_spec in He. lia. }
  split; [done|]. split; [done|].
  apply reaches_searchFrom; [apply Hp|done].
Qed.

Lemma probe_start_reaches_the_exit_witness :
  pathCell bridgeMazeRepaired (1, 1)
  ∧ reaches bridgeMazeRepaired (1, 1) (exitPosition bridgeMazeRepaired)
  ∧ searchFrom bridgeMazeRepaired (1, 1) = Some true.
Proof.
  apply (probe_start_reaches_the_exit (patternBuilders openField)
           bridgeMaze bridgeMazeRepaired (drawsExcept 12) halfDraws).
  - apply patternBuilders_allocate, openField_allocates.
  - right. split; [apply gridHasDimsb_true; vm_compute; reflexivity|].
    split; vm_compute; reflexivity.
  - vm_compute. reflexivity.
Defined.

(** C1 fails as stated, after a generation and after a shift.

    [generateMaze] on a 7 by 7 grid with the geometric builder: the
    features pass puts a pillar on the crossing (3,3); the probe start
    (0,6) no longer reaches the exit (0,3) and the validator carves the
    column 0; the path cells (3,0), (3,1), (3,2) stay cut off.

    [shiftMazeWalls] on [junctionMaze], where every path cell reaches the
    exit: the firing walls the crossing (4,3); the probe start (1,3) still
    reaches the exit, so nothing is repaired, and the path cell (5,3) is
    left with no way to the exit. *)
Lemma path_cells_are_stranded :
  (∃ m' rs',
     generateMaze (patternBuilders openField) freshMaze7 generationDraws
     = Some (m', rs')
     ∧ pathCell m' (3, 0)
     ∧ searchFrom m' (3, 0) = Some false
     ∧ ¬ reaches m' (3, 0) (exitPosition m'))
  ∧ wellFormed junctionMaze
  ∧ solvableFromEverywhere junctionMaze
  ∧ ∃ m' rs', shiftMazeWalls junctionMaze (drawsExcept 7) = Some (m', rs')
              ∧ pathCell m' (5, 3)
              ∧ searchFrom m' (5, 3) = Some false
              ∧ ¬ reaches m' (5, 3) (exitPosition m').
Proof.
  assert (wellFormed junctionMaze) as Hwf
    by (apply gridHasDimsb_true; vm_compute; reflexivity).
  split; [|split; [exact Hwf|split]].
  - eexists _, _. split; [vm_compute; reflexivity|]. split; [|split].
    + split; vm_compute; reflexivity.
    + vm_compute. reflexivity.
    + apply searchFrom_false_unreachable; vm_compute; reflexivity.
  - apply solvableFromEverywhereb_true; [exact Hwf|]. vm_compute. reflexivity.
  - eexists _, _. split; [vm_compute; reflexivity|]. split; [|split].
    + split; vm_compute; reflexivity.
    + vm_compute. reflexivity.
    + apply searchFrom_false_unreachable; vm_compute; reflexivity.
Qed.




(** The firing of [junctionMaze] that walls the crossing: the exit (0,3)
    is a path before and after. *)
Example exit_survives_the_junction_shift :
  ∃ m' rs', shiftMazeWalls junctionMaze (drawsExcept 7) = Some (m', rs')
            ∧ pathCell junctionMaze (0, 3) ∧ pathCell m' (0, 3).
Proof.
  eexists _, _. split; [vm_compute; reflexivity|].
  split; split; vm_compute; reflexivity.
Qed.

(** * The constructor *)

Lemma Qlt_bool_spec (a b : Q) : Qlt_bool a b = true ↔ (a < b)%Q.
Proof.
  unfold Qlt_bool. rewrite negb_true_iff. split.
  - intros H. apply Qnot_le_lt. intros Hle.
    apply Qle_bool_iff in Hle. congruence.
  - intros H. destruct (Qle_bool b a) eqn:E; [|done].
    apply Qle_bool_iff in E. by apply Qlt_not_le in H.
Qed.

Lemma randomInt_thirds (u : Q) :
  unitDraw u ->
  randomInt u 3 = if Qlt_bool u (1 # 3) then 0
                  else if Qlt_bool u (2 # 3) then 1 else 2.
Proof.
  intros [Hlo Hhi]. unfold randomInt. apply Qfloor_unique.
  destruct (Qlt_bool u (1 # 3)) eqn:E1; [|destruct (Qlt_bool u (2 # 3)) eqn:E2].
  - apply Qlt_bool_spec in E1. revert Hlo E1.
    unfold Qle, Qlt; destruct u as [a b]; simpl. lia.
  - apply Qlt_bool_spec in E2.
    assert (¬ (u < 1 # 3)%Q) as E1' by (rewrite <- Qlt_bool_spec; congruence).
    apply Qnot_lt_le in E1'. revert E1' E2.
    unfold Qle, Qlt; destruct u as [a b]; simpl. lia.
  - assert (¬ (u < 2 # 3)%Q) as E2' by (rewrite <- Qlt_bool_spec; congruence).
    apply Qnot_lt_le in E2'. revert E2' Hhi.
    unfold Qle, Qlt; destruct u as [a b]; simpl. lia.
Qed.

Lemma constructor_inr w h cs u m :
  constructor w h cs u = inr m ->
  m = {| width := w; height := h; cellSize := cs;
         shiftInterval := 60; shiftChance := literal_0_2;
         mazeGrid := filledGrid w h true;
         exitPosition := (0, 0);
         nextShiftTime := 0;
         usePatternedGeneration := true;
         patternType := randomInt u 3 |}.
Proof.
  unfold constructor. destruct (negb (validArrayLength w)); [done|].
  destruct (_ && _); [done|]. by intros [= <-].
Qed.

(** A room of the default dimensions whose constructor has drawn the
    geometric or the symmetric pattern: [generateMaze] returns, and the
    exit is a path cell of the maze. *)
Example default_room_opens_the_exit other (u : Q) (rs : RandomSource)
    (m : MazeGenerator) :
  unitDraw u -> (u < 1 # 3)%Q ∨ (2 # 3 <= u)%Q -> unitSource rs ->
  startGameGenerator None None u = inr m ->
  ∃ m' rs', generateMaze (patternBuilders other) m rs = Some (m', rs')
            ∧ wellFormed m' ∧ pathCell m' (exitPosition m').
Proof.
  intros Hu Hdraw Hrs Hm. apply constructor_inr in Hm. subst m.
  apply generateMaze_delivers; [simpl; lia..|].
  destruct Hdraw as [Hlt|Hge].
  - apply geometric_builder_delivers; [simpl; lia..| |done].
    unfold selectedStrategy. simpl. rewrite randomInt_thirds by done.
    by rewrite (proj2 (Qlt_bool_spec _ _) Hlt).
  - apply symmetric_builder_delivers; [done..| |done].
    unfold selectedStrategy. simpl. rewrite randomInt_thirds by done.
    assert (Qlt_bool u (1 # 3) = false) as ->.
    { apply not_true_is_false. rewrite Qlt_bool_spec. intros Hlt.
      apply (Qlt_not_le _ _ Hlt). eapply Qle_trans; [|exact Hge]. done. }
    assert (Qlt_bool u (2 # 3) = false) as ->; [|done].
    apply not_true_is_false. rewrite Qlt_bool_spec. by apply Qle_not_lt.
Qed.




(** C9, as the code has it.  The constructor checks nothing itself.  It
    fails, with the [RangeError] of [Array], exactly when [width] is not an
    array length or, with at least one column to allocate, [height] is not
    one.  With [width = 0], or [height = 0] and a valid [width], it returns
    an object: its grid has no cell and its exit is (0,0). *)
Theorem constructor_fails_only_on_array_lengths (w h cs : Z) (u : Q) :
  (constructor w h cs u = inl RangeError
   ↔ (w < 0 ∨ 2 ^ 32 <= w ∨ (0 < w ∧ (h < 0 ∨ 2 ^ 32 <= h))))
  ∧ (w = 0 ∨ (0 < w < 2 ^ 32 ∧ h = 0) ->
     ∃ m, constructor w h cs u = inr m
          ∧ width m = w ∧ height m = h
          ∧ exitPosition m = (0, 0)
          ∧ ∀ c, readCell (mazeGrid m) c = None).
Proof.
  unfold constructor, validArrayLength. split.
  - destruct (0 <=? w) eqn:E1, (w <? 2 ^ 32) eqn:E2; simpl;
      try (split; [intros _; lia|done]).
    destruct (0 <? w) eqn:E3; simpl.
    + destruct (0 <=? h) eqn:E4, (h <? 2 ^ 32) eqn:E5; simpl;
        try (split; [intros _; lia|done]).
      split; [done|lia].
    + split; [done|lia].
  - intros Hdims.
    replace (negb ((0 <=? w) && (w <? 2 ^ 32))) with false by lia.
    replace ((0 <? w) && negb ((0 <=? h) && (h <? 2 ^ 32))) with false by lia.
    eexists. split; [done|]. simpl. repeat split.
    intros c. destruct (readCell (filledGrid w h true) c) eqn:E; [|done].
    assert (is_Some (readCell (filledGrid w h true) c)) as Hs by eauto.
    apply (readCell_in_grid w h) in Hs; [lia|apply gridHasDims_filledGrid].
Qed.

Lemma constructor_fails_only_on_array_lengths_witness :
  ∃ m, constructor 0 20 2 (1 # 2) = inr m
       ∧ width m = 0 ∧ height m = 20
       ∧ exitPosition m = (0, 0)
       ∧ ∀ c, readCell (mazeGrid m) c = None.
Proof.
  apply (constructor_fails_only_on_array_lengths 0 20 2 (1 # 2)). left. reflexivity.
Defined.

(** C9 fails as stated: with [width = 0], and with [height = 0], the
    constructor returns an object, with a grid and an exit position. *)
Lemma constructor_accepts_zero_dimensions :
  constructor 0 20 2 (1 # 2)
  = inr {| width := 0; height := 20; cellSize := 2;
           shiftInterval := 60; shiftChance := literal_0_2;
           mazeGrid := []; exitPosition := (0, 0); nextShiftTime := 0;
           usePatternedGeneration := true; patternType := 1 |}
  ∧ constructor 20 0 2 (1 # 2)
    = inr {| width := 20; height := 0; cellSize := 2;
             shiftInterval := 60; shiftChance := literal_0_2;
             mazeGrid := replicate 20 []; exitPosition := (0, 0);
             nextShiftTime := 0;
             usePatternedGeneration := true; patternType := 1 |}.
Proof. split; vm_compute; reflexivity. Qed.

(** [RangeError] is the only error of the constructor. *)
Example constructor_raises_no_TypeError (w h cs : Z) (u : Q) :
  constructor w h cs u ≠ inl TypeError.
Proof.
  unfold constructor. destruct (negb (validArrayLength w)); [done|].
  by destruct (_ && _).
Qed.

(** [RoomManager] checks nothing either: a width of 0 is taken for a
    missing option and replaced by 20; a negative width reaches the
    constructor, where [Array] raises. *)
Example room_dimensions_are_not_validated :
  (∃ m, startGameGenerator (Some 0) (Some 15) (1 # 2) = inr m
        ∧ width m = 20 ∧ height m = 15)
  ∧ startGameGenerator (Some (-3)) (Some 15) (1 # 2) = inl RangeError.
Proof. split; [eexists; split; [vm_compute; reflexivity|done]|reflexivity]. Qed.

(** C8, as the code has it.  [updateMaze] returns [true] exactly when the
    countdown, computed in binary64, has run out at this call; then
    [shiftMazeWalls] has run on the generator with the new countdown, the
    call returns what that firing left, with the countdown back at
    [shiftInterval], whether or not a cell changed.  When it returns
    [false], nothing but the countdown has changed.  On a [width] by
    [height] grid with the exit in bounds the call returns. *)
Theorem updateMaze_reports_the_firing
    (m : MazeGenerator) (deltaTime : float) (rs : RandomSource) :
  let m0 := withNextShiftTime m (nextShiftTime m - deltaTime / 1000)%float in
  (∀ m' rs' b,
     updateMaze m deltaTime rs = Some (m', rs', b) ->
     b = PrimFloat.leb (nextShiftTime m - deltaTime / 1000)%float 0
     ∧ (b = true ->
        ∃ m1, shiftMazeWalls m0 rs = Some (m1, rs')
              ∧ m' = withNextShiftTime m1 (shiftInterval m1)
              ∧ shiftInterval m1 = shiftInterval m)
     ∧ (b = false -> m' = m0 ∧ mazeGrid m' = mazeGrid m ∧ rs' = rs))
  ∧ (wellFormed m -> isInBounds m (exitPosition m) = true ->
     ∃ m' rs' b, updateMaze m deltaTime rs = Some (m', rs', b)).
Proof.
  intros m0. split.
  - intros m' rs' b. unfold updateMaze. fold m0.
    change (nextShiftTime m0) with (nextShiftTime m - deltaTime / 1000)%float.
    destruct (PrimFloat.leb (nextShiftTime m - deltaTime / 1000)%float 0).
    + destruct (shiftMazeWalls m0 rs) as [[m1 rs1]|] eqn:Hshift; [|done].
      simpl. intros [= <- <- <-]. split; [done|]. split; [|done].
      intros _. exists m1. split; [done|]. split; [done|].
      by destruct (shiftMazeWalls_fields _ _ _ _ Hshift) as [g ->].
    + intros [= <- <- <-]. split; [done|]. split; [done|]. done.
  - intros Hwf He.
    destruct (updateMaze_returns m deltaTime rs Hwf He) as (m' & rs' & b & H & _).
    eauto.
Qed.

(** A maze whose countdown stands at the binary64 number [0.1]. *)
Lemma updateMaze_reports_the_firing_witness :
  ∃ m' rs' m1,
    updateMaze (withNextShiftTime junctionMaze 0x1.999999999999ap-4) 100 halfDraws
    = Some (m', rs', true)
    ∧ shiftMazeWalls (withNextShiftTime junctionMaze
                        (0x1.999999999999ap-4 - 100 / 1000)%float) halfDraws
      = Some (m1, rs')
    ∧ m' = withNextShiftTime m1 (shiftInterval m1).
Proof.
  destruct (updateMaze_reports_the_firing
              (withNextShiftTime junctionMaze 0x1.999999999999ap-4) 100 halfDraws)
    as [Hfire Hreturns].
  destruct Hreturns as (m' & rs' & b & Hrun).
  - apply gridHasDimsb_true. vm_compute. reflexivity.
  - vm_compute. reflexivity.
  - destruct (Hfire m' rs' b Hrun) as (Hb & Htrue & _).
    vm_compute in Hb. subst b.
    destruct (Htrue eq_refl) as (m1 & Hshift & Hm' & _).
    exists m', rs', m1. split; [exact Hrun|]. split; [exact Hshift|exact Hm'].
Defined.

(** C8 fails as stated.  The countdown of this maze has run out; the
    firing collects no conversion and repairs nothing, the grid is what it
    was, and [updateMaze] returns [true]. *)
Lemma updateMaze_true_without_a_change :
  (collectShifts (withNextShiftTime junctionMaze 0) halfDraws).1 = []
  ∧ ∃ m' rs', updateMaze (withNextShiftTime junctionMaze 0) (1000 / 30) halfDraws
              = Some (m', rs', true)
              ∧ mazeGrid m' = mazeGrid (withNextShiftTime junctionMaze 0).
Proof.
  split; [vm_compute; reflexivity|].
  eexists _, _. split; vm_compute; reflexivity.
Qed.
